(** * Agentic Redpanda: routing, filtered delivery and resilient delivery

    A shallow embedding of the decision logic of the Python package
    [agentic_redpanda] and the properties its specification states about it.

    Conventions of the embedding.
    - Python [str] values are Rocq strings of ASCII characters; [str.lower]
      is the ASCII case map and [len] is [String.length].
    - Python dictionaries are [gmap]s, Python sets of strings are [gset]s,
      Python lists are lists.
    - An object that is mutated while several containers refer to it lives
      in an explicit store and the containers hold references.
    - A call that may raise returns an [outcome]; [datetime] values are
      integers counting microseconds, and every clock read is an argument.
    - Python floats are IEEE 754 binary64 numbers, the primitive floats. *)

From Stdlib Require Import Ascii String ZArith Floats.
From stdpp Require Import gmap strings list fin_maps pretty sorting.

Local Open Scope string_scope.

(** ** Python values shared by all components *)

(** An instance of a class derived from [Exception], as far as the code
    inspects one: the name of its class ([type(e).__name__]) and its text
    ([str(e)]). The exits that derive from [BaseException] only
    ([SystemExit], [KeyboardInterrupt], [GeneratorExit],
    [asyncio.CancelledError]) are not values of this type: every
    [except Exception] of the code lets them pass, they end the run, and no
    call of this embedding raises one. *)
Record exn := Exn { exn_class : string; exn_text : string }.

(** The result of a call that returns or raises an [Exception]. *)
Inductive outcome (A : Type) : Type :=
| Returns (a : A)
| Raises (e : exn).
Arguments Returns {A} a.
Arguments Raises {A} e.

Definition bind_outcome {A B} (o : outcome A) (k : A -> outcome B) : outcome B :=
  match o with
  | Returns a => k a
  | Raises e => Raises e
  end.

(** [try: return body / except Exception: return fallback]; every
    [exn] is an [Exception] and is caught. *)
Definition try_except {A} (body : outcome A) (fallback : A) : A :=
  match body with
  | Returns a => a
  | Raises _ => fallback
  end.

Module Str.

(** [str.lower] on ASCII text. *)
Definition lower_char (c : ascii) : ascii :=
  let n := nat_of_ascii c in
  if (65 <=? n)%nat && (n <=? 90)%nat then ascii_of_nat (n + 32) else c.

Fixpoint lower (s : string) : string :=
  match s with
  | EmptyString => EmptyString
  | String c s' => String (lower_char c) (lower s')
  end.

(** [s.startswith(p)]. *)
Fixpoint startswith (s p : string) {struct p} : bool :=
  match p, s with
  | EmptyString, _ => true
  | String a p', String b s' => bool_decide (a = b) && startswith s' p'
  | String _ _, EmptyString => false
  end.

(** [needle in hay]. *)
Fixpoint contains (needle hay : string) : bool :=
  startswith hay needle ||
  match hay with
  | EmptyString => false
  | String _ hay' => contains needle hay'
  end.

Fixpoint endswith_char (s : string) (c : ascii) : bool :=
  match s with
  | EmptyString => false
  | String d EmptyString => bool_decide (d = c)
  | String _ s' => endswith_char s' c
  end.

Fixpoint all_chars (p : ascii -> bool) (s : string) : bool :=
  match s with
  | EmptyString => true
  | String c s' => p c && all_chars p s'
  end.

Fixpoint map_chars (f : ascii -> ascii) (s : string) : string :=
  match s with
  | EmptyString => EmptyString
  | String c s' => String (f c) (map_chars f s')
  end.

Definition is_empty (s : string) : bool :=
  match s with EmptyString => true | _ => false end.

(** [any(k.lower() in content.lower() for k in keywords)]. *)
Definition any_keyword_in (keywords : list string) (content : string) : bool :=
  existsb (fun k => contains (lower k) (lower content)) keywords.

End Str.

(** ** schemas/message.py *)

Module Message.

Inductive MessageType :=
| TEXT | TASK | RESULT | QUERY | RESPONSE | NOTIFICATION | ERROR | HEARTBEAT.

Inductive MessagePriority := LOW | NORMAL | HIGH | URGENT.

Global Instance MessageType_eq_dec : EqDecision MessageType.
Proof. solve_decision. Defined.

Global Instance MessagePriority_eq_dec : EqDecision MessagePriority.
Proof. solve_decision. Defined.

Definition MessageType_index (t : MessageType) : nat :=
  match t with
  | TEXT => 0 | TASK => 1 | RESULT => 2 | QUERY => 3
  | RESPONSE => 4 | NOTIFICATION => 5 | ERROR => 6 | HEARTBEAT => 7
  end.

Definition MessageType_of_index (n : nat) : MessageType :=
  match n with
  | 0 => TEXT | 1 => TASK | 2 => RESULT | 3 => QUERY
  | 4 => RESPONSE | 5 => NOTIFICATION | 6 => ERROR | _ => HEARTBEAT
  end.

Global Instance MessageType_countable : Countable MessageType.
Proof.
  apply (inj_countable' MessageType_index MessageType_of_index).
  intros []; reflexivity.
Defined.

(** Both enumerations derive from [str]: a member equals its value. *)
Definition MessageType_value (t : MessageType) : string :=
  match t with
  | TEXT => "text" | TASK => "task" | RESULT => "result" | QUERY => "query"
  | RESPONSE => "response" | NOTIFICATION => "notification"
  | ERROR => "error" | HEARTBEAT => "heartbeat"
  end.

Definition MessagePriority_value (p : MessagePriority) : string :=
  match p with
  | LOW => "low" | NORMAL => "normal" | HIGH => "high" | URGENT => "urgent"
  end.

(** The [priority_order] dictionary of the router and of the subscription
    manager. *)
Definition priority_order (p : MessagePriority) : Z :=
  match p with LOW => 0 | NORMAL => 1 | HIGH => 2 | URGENT => 3 end.

(** Timestamps and durations count microseconds. *)
Definition datetime := Z.
Definition timedelta := Z.
Definition seconds (n : Z) : timedelta := (n * 1000000)%Z.

(** [AgentMessage]; [id] is the UUID as a number, metadata values are
    compared by equality only and are kept as strings. *)
Record AgentMessage := {
  id : N;
  timestamp : datetime;
  sender_id : string;
  sender_name : string;
  sender_role : string;
  message_type : MessageType;
  priority : MessagePriority;
  content : string;
  topic : string;
  reply_to : option string;
  metadata : gmap string string;
  tags : list string;
  correlation_id : option N;
  requires_response : bool;
  response_timeout : option Z;
  ttl : option Z;
  retry_count : Z;
  max_retries : Z
}.

(** [is_expired]: [age = (utcnow() - timestamp).total_seconds()] exceeds
    [ttl] seconds; [now] is the value read from the clock. *)
Definition is_expired (now : datetime) (m : AgentMessage) : bool :=
  match ttl m with
  | None => false
  | Some t => bool_decide (seconds t < now - timestamp m)%Z
  end.

Definition should_retry (now : datetime) (m : AgentMessage) : bool :=
  bool_decide (retry_count m < max_retries m)%Z && negb (is_expired now m).

(** [increment_retry]: a copy with the retry count raised by one. *)
Definition increment_retry (m : AgentMessage) : AgentMessage :=
  {| id := id m; timestamp := timestamp m; sender_id := sender_id m;
     sender_name := sender_name m; sender_role := sender_role m;
     message_type := message_type m; priority := priority m; content := content m;
     topic := topic m; reply_to := reply_to m; metadata := metadata m;
     tags := tags m; correlation_id := correlation_id m;
     requires_response := requires_response m;
     response_timeout := response_timeout m; ttl := ttl m;
     retry_count := retry_count m + 1; max_retries := max_retries m |}.

End Message.

(** ** core/topic_validator.py *)

Module TopicValidator.

Inductive TopicType := GENERAL | TEAM | PROJECT | PRIVATE | SYSTEM | RANDOM.

Inductive PermissionLevel := READ | WRITE | ADMIN | OWNER.

Global Instance PermissionLevel_eq_dec : EqDecision PermissionLevel.
Proof. solve_decision. Defined.

Record TopicPermission := {
  agent_id : string;
  permission_level : PermissionLevel;
  granted_by : string;
  granted_at : string
}.

(** The entries of [errors], one constructor per message of the source. *)
Inductive TopicNameError :=
| TooShort            (* "Topic name too short (minimum 3 characters)" *)
| TooLong             (* "Topic name too long (maximum 50 characters)" *)
| Reserved            (* "Topic name '...' is reserved" *)
| InvalidCharacters   (* "... can only contain lowercase letters, numbers, and hyphens" *)
| ConsecutiveHyphens  (* "... cannot contain consecutive hyphens" *)
| EdgeHyphen          (* "... cannot start or end with a hyphen" *)
| PatternMismatch (t : TopicType).

Record TopicValidationResult := {
  is_valid : bool;
  errors : list TopicNameError;
  warnings : list string;
  suggestions : list string
}.

Definition reserved_topics : gset string :=
  {[ "system"; "admin"; "config"; "logs"; "metrics"; "health" ]}.

Definition max_topic_length : nat := 50.
Definition min_topic_length : nat := 3.

(** The character class [[a-z0-9-]]. *)
Definition name_char (c : ascii) : bool :=
  let n := nat_of_ascii c in
  ((97 <=? n)%nat && (n <=? 122)%nat) || ((48 <=? n)%nat && (n <=? 57)%nat)
  || (n =? 45)%nat.

Definition hyphen : ascii := "-"%char.
Definition newline : ascii := "010"%char.

(** [$] also matches just before a newline that ends the text: the text
    without that one newline. *)
Fixpoint before_dollar (s : string) : string :=
  match s with
  | EmptyString => EmptyString
  | String c EmptyString => if bool_decide (c = newline) then EmptyString else s
  | String c s' => String c (before_dollar s')
  end.

(** [re.match(r"^[a-z0-9-]+$", s)]. *)
Definition match_name_chars (s : string) : bool :=
  let body := before_dollar s in
  negb (Str.is_empty body) && Str.all_chars name_char body.

Fixpoint drop_prefix (p s : string) : option string :=
  match p, s with
  | EmptyString, _ => Some s
  | String a p', String b s' => if bool_decide (a = b) then drop_prefix p' s' else None
  | String _ _, EmptyString => None
  end.

(** [re.match(r"^<prefix>[a-z0-9-]+$", s)]. *)
Definition match_prefixed (p s : string) : bool :=
  match drop_prefix p s with
  | Some rest => match_name_chars rest
  | None => false
  end.

(** [re.match(topic_patterns[t], s)] for the types that have a pattern;
    [SYSTEM] has none. *)
Definition topic_patterns (t : TopicType) : option (string -> bool) :=
  match t with
  | TEAM => Some (match_prefixed "team-")
  | PROJECT => Some (match_prefixed "project-")
  | PRIVATE => Some (match_prefixed "private-")
  | GENERAL => Some match_name_chars
  | RANDOM => Some (fun s => bool_decide (before_dollar s = "random"))
  | SYSTEM => None
  end.

(** [re.sub(r"-+", "-", s)]. *)
Fixpoint collapse_hyphens (s : string) : string :=
  match s with
  | EmptyString => EmptyString
  | String c s' =>
      if bool_decide (c = hyphen) && Str.startswith s' "-"
      then collapse_hyphens s'
      else String c (collapse_hyphens s')
  end.

Fixpoint lstrip_hyphens (s : string) : string :=
  match s with
  | String c s' => if bool_decide (c = hyphen) then lstrip_hyphens s' else s
  | EmptyString => EmptyString
  end.

Fixpoint rstrip_hyphens (s : string) : string :=
  match s with
  | EmptyString => EmptyString
  | String c s' =>
      let r := rstrip_hyphens s' in
      if bool_decide (c = hyphen) && Str.is_empty r then EmptyString else String c r
  end.

(** The cleaned name offered in [suggestions]. *)
Definition cleaned_name (topic_name : string) : string :=
  let cleaned :=
    Str.map_chars (fun c => if name_char c then c else hyphen) (Str.lower topic_name) in
  rstrip_hyphens (lstrip_hyphens (collapse_hyphens cleaned)).

Definition when {A} (b : bool) (x : A) : list A := if b then [x] else [].

Definition length_errors (topic_name : string) : list TopicNameError :=
  if (String.length topic_name <? min_topic_length)%nat then [TooShort]
  else if (max_topic_length <? String.length topic_name)%nat then [TooLong]
  else [].

Definition pattern_errors (topic_name : string) (topic_type : option TopicType)
  : list TopicNameError :=
  match topic_type with
  | Some t =>
      match topic_patterns t with
      | Some matches => when (negb (matches topic_name)) (PatternMismatch t)
      | None => []
      end
  | None => []
  end.

(** [validate_topic_name]; [_find_similar_topics] returns the empty list,
    so no warning is ever produced. *)
Definition validate_topic_name (topic_name : string)
    (topic_type : option TopicType) (created_by : option string)
  : TopicValidationResult :=
  let errs :=
    (length_errors topic_name
    ++ when (bool_decide (Str.lower topic_name ∈ reserved_topics)) Reserved
    ++ when (negb (match_name_chars topic_name)) InvalidCharacters
    ++ when (Str.contains "--" topic_name) ConsecutiveHyphens
    ++ when (Str.startswith topic_name "-" || Str.endswith_char topic_name hyphen) EdgeHyphen
    ++ pattern_errors topic_name topic_type)%list in
  let cleaned := cleaned_name topic_name in
  let sugg :=
    match errs with
    | [] => []
    | _ :: _ =>
        when (negb (Str.is_empty cleaned)
              && (min_topic_length <=? String.length cleaned)%nat) cleaned
    end in
  {| is_valid := bool_decide (length errs = 0%nat);
     errors := errs; warnings := []; suggestions := sugg |}.

(** The state of a validator: [topic_permissions]. *)
Abbreviation permissions := (gmap string (list TopicPermission)).

(** The loop of [grant_permission] over the records of one topic: the
    first record of the agent is updated in place. *)
Fixpoint update_existing (perms : list TopicPermission) (agent : string)
    (level : PermissionLevel) (by_agent : string) : option (list TopicPermission) :=
  match perms with
  | [] => None
  | perm :: rest =>
      if bool_decide (agent_id perm = agent)
      then Some ({| agent_id := agent_id perm; permission_level := level;
                    granted_by := by_agent; granted_at := granted_at perm |} :: rest)
      else cons perm <$> update_existing rest agent level by_agent
  end.

Definition grant_permission (st : permissions) (topic agent : string)
    (level : PermissionLevel) (by_agent : string) : permissions * bool :=
  let perms := default [] (st !! topic) in
  match update_existing perms agent level by_agent with
  | Some perms' => (<[topic := perms']> st, true)
  | None =>
      let permission := {| agent_id := agent; permission_level := level;
                           granted_by := by_agent; granted_at := "now" |} in
      (<[topic := (perms ++ [permission])%list]> st, true)
  end.

Definition revoke_permission (st : permissions) (topic agent revoked_by : string)
  : permissions * bool :=
  match st !! topic with
  | None => (st, false)
  | Some perms =>
      let kept := filter (fun perm => agent_id perm ≠ agent) perms in
      (<[topic := kept]> st, bool_decide (length kept < length perms)%nat)
  end.

Definition level_hierarchy (l : PermissionLevel) : Z :=
  match l with READ => 1 | WRITE => 2 | ADMIN => 3 | OWNER => 4 end.

Definition permission_level_sufficient (current required : PermissionLevel) : bool :=
  bool_decide (level_hierarchy required <= level_hierarchy current)%Z.

Fixpoint first_permission (perms : list TopicPermission) (agent : string)
  : option TopicPermission :=
  match perms with
  | [] => None
  | perm :: rest =>
      if bool_decide (agent_id perm = agent) then Some perm
      else first_permission rest agent
  end.

Definition check_permission (st : permissions) (topic agent : string)
    (required : PermissionLevel) : bool :=
  match st !! topic with
  | None => false
  | Some perms =>
      match first_permission perms agent with
      | Some perm => permission_level_sufficient (permission_level perm) required
      | None => false
      end
  end.

(** [get_topic_permissions]: a copy of the topic's records. *)
Definition get_topic_permissions (st : permissions) (topic : string)
  : list TopicPermission :=
  default [] (st !! topic).

(** The loop of [get_agent_permissions] over the records of one topic:
    every record of the agent overwrites the entry, so the last one stays. *)
Definition last_level (perms : list TopicPermission) (agent : string)
  : option PermissionLevel :=
  foldl (fun found perm =>
           if bool_decide (agent_id perm = agent) then Some (permission_level perm)
           else found) None perms.

(** [get_agent_permissions]: the topics on which the agent has a record,
    with the level found there. *)
Definition get_agent_permissions (st : permissions) (agent : string)
  : gmap string PermissionLevel :=
  omap (fun perms => last_level perms agent) st.

(** [suggest_topic_name]. *)
Definition with_type_prefix (p s : string) : string :=
  if Str.startswith s p then s else p ++ s.

Definition suggest_topic_name (base_name : string) (topic_type : TopicType) : string :=
  let cleaned := cleaned_name base_name in
  let padded :=
    if (String.length cleaned <? min_topic_length)%nat then cleaned ++ "-topic"
    else cleaned in
  let prefixed :=
    match topic_type with
    | TEAM => with_type_prefix "team-" padded
    | PROJECT => with_type_prefix "project-" padded
    | PRIVATE => with_type_prefix "private-" padded
    | _ => padded
    end in
  if (max_topic_length <? String.length prefixed)%nat
  then rstrip_hyphens (String.substring 0 max_topic_length prefixed)
  else prefixed.

(** The entries of the error list of [validate_topic_creation]. *)
Inductive CreationError :=
| NameError (e : TopicNameError)
| AlreadyExists             (* "Topic '...' already exists" *)
| PrivateNeedsPrivateType.  (* "Private topics must be of type PRIVATE" *)

Definition is_private_type (t : TopicType) : bool :=
  match t with PRIVATE => true | _ => false end.

(** [validate_topic_creation]. *)
Definition validate_topic_creation (st : permissions) (topic_name : string)
    (topic_type : TopicType) (created_by : string) (is_private : bool)
  : bool * list CreationError :=
  let validation_result := validate_topic_name topic_name (Some topic_type) (Some created_by) in
  let errs :=
    ((if is_valid validation_result then [] else NameError <$> errors validation_result)
     ++ when (bool_decide (is_Some (st !! topic_name))) AlreadyExists
     ++ when (is_private && negb (is_private_type topic_type)) PrivateNeedsPrivateType)%list in
  (bool_decide (length errs = 0%nat), errs).

End TopicValidator.

(** Python list helpers. *)
Module Py.

(** [l[i:]] for an integer [i] of either sign. *)
Definition slice_from {A} (i : Z) (l : list A) : list A :=
  if (0 <=? i)%Z then drop (Z.to_nat i) l
  else drop (Z.to_nat (Z.of_nat (length l) + i)) l.

(** [l[-n:]]. *)
Definition last_n {A} (n : Z) (l : list A) : list A := slice_from (- n) l.

(** The history bound of the router and of the error handler:
    [if len(h) > size: h = h[-size:]]. *)
Definition trim {A} (size : Z) (h : list A) : list A :=
  if (size <? Z.of_nat (length h))%Z then last_n size h else h.

(** An update of the object that was appended last. *)
Fixpoint amend_last {A} (f : A -> A) (l : list A) : list A :=
  match l with
  | [] => []
  | [x] => [f x]
  | x :: l' => x :: amend_last f l'
  end.

End Py.

(** ** core/message_router.py *)

Module MessageRouter.
Import Message.

Inductive RoutingRuleType :=
| CONTENT_KEYWORD | CONTENT_REGEX | SENDER_ROLE | MESSAGE_TYPE
| PRIORITY | METADATA | CUSTOM.

(** The values a rule's [condition] takes: a string, a list of strings,
    a dictionary, or a callable. *)
Inductive Condition :=
| CondStr (s : string)
| CondList (l : list string)
| CondDict (d : gmap string string)
| CondCallable (f : AgentMessage -> outcome bool).

Record RoutingRule := {
  rule_id : string;
  rule_type : RoutingRuleType;
  condition : Condition;
  target_topics : list string;
  priority : Z;
  active : bool;
  description : option string
}.

Record MessageRoute := {
  route_message_of : AgentMessage;
  route_target_topics : list string;
  route_routing_rules : list RoutingRule;
  route_timestamp : datetime
}.

Record MessageRouter := {
  routing_rules : list RoutingRule;
  route_history : list MessageRoute
}.

Definition max_history_size : Z := 1000.

Definition type_error : exn := Exn "TypeError" "unsupported operand".
Definition attribute_error : exn := Exn "AttributeError" "object has no attribute 'lower'".

(** The value of [priority_order.get(c, 0)] for a string [c]. *)
Definition priority_order_get (c : string) : Z :=
  if bool_decide (c = "low") then 0
  else if bool_decide (c = "normal") then 1
  else if bool_decide (c = "high") then 2
  else if bool_decide (c = "urgent") then 3
  else 0.

Section Rules.
(** [re.search(pattern, text, re.IGNORECASE)] as a truth value; a
    malformed pattern raises [re.error]. *)
Variable re_search : string -> string -> outcome bool.

(** The body of the [try] block of [_evaluate_rule]. *)
Definition evaluate_rule_body (message : AgentMessage) (rule : RoutingRule)
  : outcome bool :=
  match rule_type rule, condition rule with
  | CONTENT_KEYWORD, CondStr k =>
      Returns (Str.any_keyword_in [k] (content message))
  | CONTENT_KEYWORD, CondList ks =>
      Returns (Str.any_keyword_in ks (content message))
  | CONTENT_KEYWORD, _ => Raises attribute_error
  | CONTENT_REGEX, CondStr pattern => re_search pattern (content message)
  | CONTENT_REGEX, _ => Raises type_error
  | SENDER_ROLE, CondStr role =>
      Returns (bool_decide (sender_role message = role))
  | SENDER_ROLE, CondList roles =>
      Returns (bool_decide (sender_role message ∈ roles))
  | SENDER_ROLE, _ => Returns false
  | MESSAGE_TYPE, CondStr t =>
      Returns (bool_decide (MessageType_value (message_type message) = t))
  | MESSAGE_TYPE, CondList ts =>
      Returns (bool_decide (MessageType_value (message_type message) ∈ ts))
  | MESSAGE_TYPE, _ => Returns false
  | PRIORITY, CondStr min_priority =>
      Returns (bool_decide (priority_order_get min_priority
                            <= priority_order (Message.priority message))%Z)
  | PRIORITY, CondCallable _ =>
      Returns (bool_decide (0 <= priority_order (Message.priority message))%Z)
  | PRIORITY, _ => Raises type_error
  | METADATA, CondDict d =>
      Returns (bool_decide
                 (map_Forall (fun key value => metadata message !! key = Some value) d))
  | METADATA, _ => Returns false
  | CUSTOM, CondCallable f => f message
  | CUSTOM, _ => Returns false
  end.

(** [_evaluate_rule]: any exception of the body is logged and the
    rule counts as not matched. *)
Definition evaluate_rule (message : AgentMessage) (rule : RoutingRule) : bool :=
  try_except (evaluate_rule_body message rule) false.

(** The loop of [route_message]: the set of targets and the matched
    rules, in evaluation order. *)
Fixpoint route_loop (message : AgentMessage) (rules : list RoutingRule)
    (targets : gset string) (matched : list RoutingRule)
  : gset string * list RoutingRule :=
  match rules with
  | [] => (targets, matched)
  | rule :: rest =>
      if negb (active rule) then route_loop message rest targets matched
      else if evaluate_rule message rule
      then route_loop message rest
             (targets ∪ list_to_set (target_topics rule)) (matched ++ [rule])
      else route_loop message rest targets matched
  end.

(** [route_message]: the returned list enumerates the set of targets.
    The order in which [list(target_topics)] names them is that of the
    Python set, which depends on the insertion order and on the hashing of
    the process; [elements] fixes one order per set, and a statement about
    the returned list is meant up to that order. *)
Definition route_message (router : MessageRouter) (message : AgentMessage)
  : MessageRouter * list string :=
  let '(targets, matched) := route_loop message (routing_rules router) ∅ [] in
  let route := {| route_message_of := message;
                  route_target_topics := elements targets;
                  route_routing_rules := matched;
                  route_timestamp := timestamp message |} in
  ({| routing_rules := routing_rules router;
      route_history := Py.trim max_history_size (route_history router ++ [route]) |},
   elements targets).

End Rules.

(** [list.sort(key=priority, reverse=True)]: stable, highest first. *)
Fixpoint insert_by_priority (rule : RoutingRule) (sorted : list RoutingRule)
  : list RoutingRule :=
  match sorted with
  | [] => [rule]
  | r :: rest =>
      if (priority rule <? priority r)%Z
      then r :: insert_by_priority rule rest
      else rule :: sorted
  end.

Definition sort_by_priority (rules : list RoutingRule) : list RoutingRule :=
  foldr insert_by_priority [] rules.

Definition add_routing_rule (router : MessageRouter) (rid : string)
    (rtype : RoutingRuleType) (cond : Condition) (targets : list string)
    (prio : Z) (descr : option string) : MessageRouter * RoutingRule :=
  let rule := {| rule_id := rid; rule_type := rtype; condition := cond;
                 target_topics := targets; priority := prio; active := true;
                 description := descr |} in
  ({| routing_rules := sort_by_priority (routing_rules router ++ [rule]);
      route_history := route_history router |}, rule).

(** [get_rule_by_id]: the first rule with the identifier. *)
Fixpoint get_rule_by_id_in (rules : list RoutingRule) (rid : string) : option RoutingRule :=
  match rules with
  | [] => None
  | rule :: rest =>
      if bool_decide (rule_id rule = rid) then Some rule else get_rule_by_id_in rest rid
  end.

Definition get_rule_by_id (router : MessageRouter) (rid : string) : option RoutingRule :=
  get_rule_by_id_in (routing_rules router) rid.

(** The loop of [remove_routing_rule]: the first rule with the identifier
    is deleted. *)
Fixpoint remove_first (rules : list RoutingRule) (rid : string)
  : option (list RoutingRule) :=
  match rules with
  | [] => None
  | rule :: rest =>
      if bool_decide (rule_id rule = rid) then Some rest
      else cons rule <$> remove_first rest rid
  end.

Definition remove_routing_rule (router : MessageRouter) (rid : string)
  : MessageRouter * bool :=
  match remove_first (routing_rules router) rid with
  | Some rules' =>
      ({| routing_rules := rules'; route_history := route_history router |}, true)
  | None => (router, false)
  end.

(** The keyword arguments of [update_rule] that name an attribute of a
    rule; other keywords are ignored by the source. *)
Record RuleUpdates := {
  new_rule_id : option string;
  new_rule_type : option RoutingRuleType;
  new_condition : option Condition;
  new_target_topics : option (list string);
  new_priority : option Z;
  new_active : option bool;
  new_description : option (option string)
}.

Definition apply_updates (u : RuleUpdates) (rule : RoutingRule) : RoutingRule :=
  {| rule_id := default (rule_id rule) (new_rule_id u);
     rule_type := default (rule_type rule) (new_rule_type u);
     condition := default (condition rule) (new_condition u);
     target_topics := default (target_topics rule) (new_target_topics u);
     priority := default (priority rule) (new_priority u);
     active := default (active rule) (new_active u);
     description := default (description rule) (new_description u) |}.

Fixpoint update_first (rules : list RoutingRule) (rid : string) (u : RuleUpdates)
  : option (list RoutingRule) :=
  match rules with
  | [] => None
  | rule :: rest =>
      if bool_decide (rule_id rule = rid) then Some (apply_updates u rule :: rest)
      else cons rule <$> update_first rest rid u
  end.

(** [update_rule] on the rule list [self.routing_rules]: the first rule
    with the identifier is updated in place, and the list is sorted again
    when a priority was given. *)
Definition update_rule_in (rules : list RoutingRule) (rid : string) (u : RuleUpdates)
  : list RoutingRule * bool :=
  match update_first rules rid u with
  | Some rules' =>
      (match new_priority u with
       | Some _ => sort_by_priority rules'
       | None => rules'
       end, true)
  | None => (rules, false)
  end.

Definition only_active (b : bool) : RuleUpdates :=
  {| new_rule_id := None; new_rule_type := None; new_condition := None;
     new_target_topics := None; new_priority := None; new_active := Some b;
     new_description := None |}.

(** [enable_rule] and [disable_rule] on the rule list. *)
Definition enable_rule_in (rules : list RoutingRule) (rid : string)
  : list RoutingRule * bool :=
  update_rule_in rules rid (only_active true).

Definition disable_rule_in (rules : list RoutingRule) (rid : string)
  : list RoutingRule * bool :=
  update_rule_in rules rid (only_active false).

Definition RoutingRuleType_value (t : RoutingRuleType) : string :=
  match t with
  | CONTENT_KEYWORD => "content_keyword" | CONTENT_REGEX => "content_regex"
  | SENDER_ROLE => "sender_role" | MESSAGE_TYPE => "message_type"
  | PRIORITY => "priority" | METADATA => "metadata" | CUSTOM => "custom"
  end.

(** [RoutingRuleType(value)]: [None] stands for the [ValueError] of an
    unknown value. *)
Definition RoutingRuleType_of_value (v : string) : option RoutingRuleType :=
  if bool_decide (v = "content_keyword") then Some CONTENT_KEYWORD
  else if bool_decide (v = "content_regex") then Some CONTENT_REGEX
  else if bool_decide (v = "sender_role") then Some SENDER_ROLE
  else if bool_decide (v = "message_type") then Some MESSAGE_TYPE
  else if bool_decide (v = "priority") then Some PRIORITY
  else if bool_decide (v = "metadata") then Some METADATA
  else if bool_decide (v = "custom") then Some CUSTOM
  else None.

(** A rule dictionary as [export_rules] writes it and [import_rules]
    reads it; an absent key is [None]. *)
Record RuleDict := {
  dict_rule_id : option string;
  dict_rule_type : option string;
  dict_condition : option Condition;
  dict_target_topics : option (list string);
  dict_priority : option Z;
  dict_active : option bool;
  dict_description : option string
}.

Definition export_rule (rule : RoutingRule) : RuleDict :=
  {| dict_rule_id := Some (rule_id rule);
     dict_rule_type := Some (RoutingRuleType_value (rule_type rule));
     dict_condition := Some (condition rule);
     dict_target_topics := Some (target_topics rule);
     dict_priority := Some (priority rule);
     dict_active := Some (active rule);
     dict_description := description rule |}.

Definition export_rules (router : MessageRouter) : list RuleDict :=
  export_rule <$> routing_rules router.

(** The body of the [try] block of [import_rules] for one dictionary:
    [None] when a required key is missing or the rule type is unknown. *)
Definition import_rule (d : RuleDict) : option RoutingRule :=
  rid ← dict_rule_id d;
  type_value ← dict_rule_type d;
  rtype ← RoutingRuleType_of_value type_value;
  cond ← dict_condition d;
  targets ← dict_target_topics d;
  Some {| rule_id := rid; rule_type := rtype; condition := cond;
          target_topics := targets;
          priority := default 0%Z (dict_priority d);
          active := default true (dict_active d);
          description := dict_description d |}.

(** [import_rules]: the readable dictionaries are appended, the list is
    sorted, and their number is returned. *)
Definition import_rules (router : MessageRouter) (dicts : list RuleDict)
  : MessageRouter * nat :=
  let imported := omap import_rule dicts in
  ({| routing_rules := sort_by_priority (routing_rules router ++ imported);
      route_history := route_history router |}, length imported).

End MessageRouter.

(** ** core/enhanced_agent.py: the fan-out of [send_message] *)

Module EnhancedAgent.

(** The topics [send_message] passes to [_send_to_topic] for the routed
    targets: [for t in target_topics: if t != topic: send]. *)
Definition fan_out_targets (topic : string) (target_topics : list string)
  : list string :=
  filter (fun t => t ≠ topic) target_topics.

End EnhancedAgent.

(** ** core/subscription_manager.py *)

Module SubscriptionManager.
Import Message.

Inductive SubscriptionType :=
| ALL_MESSAGES | ROLE_BASED | CONTENT_FILTERED | PRIORITY_FILTERED | CUSTOM.

Record SubscriptionFilter := {
  message_types : option (gset MessageType);
  min_priority : option MessagePriority;
  content_keywords : option (list string);
  content_regex : option string;
  allowed_senders : option (gset string);
  blocked_senders : option (gset string);
  allowed_roles : option (gset string);
  blocked_roles : option (gset string);
  metadata_filters : option (gmap string string);
  custom_filter : option (AgentMessage -> outcome bool)
}.

(** A handler is stored and removed, never called, by the manager: it is
    represented by a number that identifies it. *)
Record TopicSubscription := {
  topic : string;
  agent_id : string;
  subscription_type : SubscriptionType;
  filter_criteria : option SubscriptionFilter;
  handler : option N;
  active : bool;
  created_at : option string;
  message_count : Z;
  last_message_at : option datetime
}.

(** References to subscription objects. One object is listed both under
    its topic and under its agent. *)
Definition ref := nat.

Record SubscriptionManager := {
  objects : gmap ref TopicSubscription;
  next_ref : ref;
  subscriptions : gmap string (list ref);
  agent_subscriptions : gmap string (list ref);
  message_handlers : gmap string N
}.

Definition empty_manager : SubscriptionManager :=
  {| objects := ∅; next_ref := 0; subscriptions := ∅;
     agent_subscriptions := ∅; message_handlers := ∅ |}.

Definition handler_key (agent topic_name : string) : string :=
  agent ++ ":" ++ topic_name.

Definition subscribe_agent_to_topic (mgr : SubscriptionManager)
    (agent topic_name : string) (stype : SubscriptionType)
    (fc : option SubscriptionFilter) (h : option N)
  : SubscriptionManager * ref :=
  let subscription :=
    {| topic := topic_name; agent_id := agent; subscription_type := stype;
       filter_criteria := fc; handler := h; active := true;
       created_at := None; message_count := 0; last_message_at := None |} in
  let r := next_ref mgr in
  ({| objects := <[r := subscription]> (objects mgr);
      next_ref := S r;
      subscriptions :=
        <[topic_name := (default [] (subscriptions mgr !! topic_name) ++ [r])%list]>
          (subscriptions mgr);
      agent_subscriptions :=
        <[agent := (default [] (agent_subscriptions mgr !! agent) ++ [r])%list]>
          (agent_subscriptions mgr);
      message_handlers :=
        match h with
        | Some f => <[handler_key agent topic_name := f]> (message_handlers mgr)
        | None => message_handlers mgr
        end |}, r).

(** A test on the object behind a reference (every reference held by a
    manager has its object; a loop skips a reference without one). *)
Definition holds (objs : gmap ref TopicSubscription)
    (p : TopicSubscription -> bool) (r : ref) : bool :=
  match objs !! r with
  | Some sub => p sub
  | None => false
  end.

(** [d[k] = l] followed by [if not d[k]: del d[k]]. *)
Definition store_or_delete {A} (k : string) (l : list A)
    (d : gmap string (list A)) : gmap string (list A) :=
  match l with
  | [] => delete k d
  | _ :: _ => <[k := l]> d
  end.

Definition unsubscribe_agent_from_topic (mgr : SubscriptionManager)
    (agent topic_name : string) : SubscriptionManager * bool :=
  let objs := objects mgr in
  let '(subs', removed) :=
    match subscriptions mgr !! topic_name with
    | Some refs =>
        let kept :=
          List.filter
            (fun r => negb (holds objs (fun sub =>
                 bool_decide (agent_id sub = agent)
                 && bool_decide (topic sub = topic_name)) r)) refs in
        (store_or_delete topic_name kept (subscriptions mgr), true)
    | None => (subscriptions mgr, false)
    end in
  let agent_subs' :=
    match agent_subscriptions mgr !! agent with
    | Some refs =>
        let kept :=
          List.filter
            (fun r => negb (holds objs (fun sub =>
                 bool_decide (topic sub = topic_name)) r)) refs in
        store_or_delete agent kept (agent_subscriptions mgr)
    | None => agent_subscriptions mgr
    end in
  ({| objects := objs; next_ref := next_ref mgr;
      subscriptions := subs'; agent_subscriptions := agent_subs';
      message_handlers := delete (handler_key agent topic_name) (message_handlers mgr) |},
   removed).

(** [get_topic_subscribers]: [self.subscriptions.get(topic, [])]. *)
Definition get_topic_subscribers (mgr : SubscriptionManager) (topic_name : string)
  : list ref :=
  default [] (subscriptions mgr !! topic_name).

(** Truth value of an optional set: [None] and the empty set are false. *)
Definition given_set {A} `{Countable A} (s : option (gset A)) : option (gset A) :=
  match s with
  | Some x => if bool_decide (x = ∅) then None else Some x
  | None => None
  end.

Section Filters.
(** [re.search(pattern, text, re.IGNORECASE)] as a truth value; a
    malformed pattern raises [re.error]. *)
Variable re_search : string -> string -> outcome bool.

Definition type_rejected (m : AgentMessage) (f : SubscriptionFilter) : bool :=
  match given_set (message_types f) with
  | Some allowed => bool_decide (message_type m ∉ allowed)
  | None => false
  end.

Definition priority_rejected (m : AgentMessage) (f : SubscriptionFilter) : bool :=
  match min_priority f with
  | Some p => bool_decide (priority_order (priority m) < priority_order p)%Z
  | None => false
  end.

Definition keywords_rejected (m : AgentMessage) (f : SubscriptionFilter) : bool :=
  match content_keywords f with
  | Some (k :: ks) => negb (Str.any_keyword_in (k :: ks) (content m))
  | _ => false
  end.

(** The regular expression is searched outside any [try] block. *)
Definition regex_accepts (m : AgentMessage) (f : SubscriptionFilter) : outcome bool :=
  match content_regex f with
  | Some pattern =>
      if Str.is_empty pattern then Returns true
      else re_search pattern (content m)
  | None => Returns true
  end.

Definition senders_rejected (m : AgentMessage) (f : SubscriptionFilter) : bool :=
  match given_set (allowed_senders f) with
  | Some allowed => bool_decide (sender_id m ∉ allowed)
  | None => false
  end
  || match given_set (blocked_senders f) with
     | Some blocked => bool_decide (sender_id m ∈ blocked)
     | None => false
     end.

Definition roles_rejected (m : AgentMessage) (f : SubscriptionFilter) : bool :=
  match given_set (allowed_roles f) with
  | Some allowed => bool_decide (sender_role m ∉ allowed)
  | None => false
  end
  || match given_set (blocked_roles f) with
     | Some blocked => bool_decide (sender_role m ∈ blocked)
     | None => false
     end.

Definition metadata_rejected (m : AgentMessage) (f : SubscriptionFilter) : bool :=
  match metadata_filters f with
  | Some d =>
      negb (bool_decide
              (map_Forall (fun key value => metadata m !! key = Some value) d))
  | None => false
  end.

(** The last stage: [try: return custom_filter(message)] with
    [except Exception: return False]. *)
Definition custom_accepts (m : AgentMessage) (f : SubscriptionFilter) : bool :=
  match custom_filter f with
  | Some p => try_except (p m) false
  | None => true
  end.

Definition message_matches_filter (m : AgentMessage)
    (fc : option SubscriptionFilter) : outcome bool :=
  match fc with
  | None => Returns true
  | Some f =>
      if type_rejected m f then Returns false
      else if priority_rejected m f then Returns false
      else if keywords_rejected m f then Returns false
      else
        bind_outcome (regex_accepts m f) (fun found =>
          if negb found then Returns false
          else if senders_rejected m f then Returns false
          else if roles_rejected m f then Returns false
          else if metadata_rejected m f then Returns false
          else Returns (custom_accepts m f))
  end.

(** The delivery bookkeeping on a matched subscription object. *)
Definition delivered (m : AgentMessage) (sub : TopicSubscription) : TopicSubscription :=
  {| topic := topic sub; agent_id := agent_id sub;
     subscription_type := subscription_type sub;
     filter_criteria := filter_criteria sub; handler := handler sub;
     active := active sub; created_at := created_at sub;
     message_count := message_count sub + 1;
     last_message_at := Some (timestamp m) |}.

(** The loop of [route_message]. An exception leaves the loop with the
    objects updated so far. *)
Fixpoint route_loop (m : AgentMessage) (refs : list ref)
    (objs : gmap ref TopicSubscription) (matching : list ref)
  : gmap ref TopicSubscription * outcome (list ref) :=
  match refs with
  | [] => (objs, Returns matching)
  | r :: rest =>
      match objs !! r with
      | None => route_loop m rest objs matching
      | Some sub =>
          if negb (active sub) then route_loop m rest objs matching
          else if bool_decide (agent_id sub = sender_id m)
          then route_loop m rest objs matching
          else
            match message_matches_filter m (filter_criteria sub) with
            | Raises e => (objs, Raises e)
            | Returns false => route_loop m rest objs matching
            | Returns true =>
                route_loop m rest (<[r := delivered m sub]> objs)
                  (matching ++ [r])%list
            end
      end
  end.

Definition with_objects (mgr : SubscriptionManager)
    (objs : gmap ref TopicSubscription) : SubscriptionManager :=
  {| objects := objs; next_ref := next_ref mgr;
     subscriptions := subscriptions mgr;
     agent_subscriptions := agent_subscriptions mgr;
     message_handlers := message_handlers mgr |}.

Definition route_message (mgr : SubscriptionManager) (m : AgentMessage)
  : SubscriptionManager * outcome (list ref) :=
  match subscriptions mgr !! Message.topic m with
  | None => (mgr, Returns [])
  | Some refs =>
      let '(objs, result) := route_loop m refs (objects mgr) [] in
      (with_objects mgr objs, result)
  end.

End Filters.

(** [get_agent_subscriptions]: [self.agent_subscriptions.get(agent_id, [])]. *)
Definition get_agent_subscriptions (mgr : SubscriptionManager) (agent : string)
  : list ref :=
  default [] (agent_subscriptions mgr !! agent).

(** The search loop shared by [update_subscription_filter],
    [pause_subscription] and [resume_subscription]: the first subscription
    of the agent whose topic is the given one. *)
Fixpoint find_subscription (objs : gmap ref TopicSubscription) (refs : list ref)
    (topic_name : string) : option ref :=
  match refs with
  | [] => None
  | r :: rest =>
      if holds objs (fun sub => bool_decide (topic sub = topic_name)) r then Some r
      else find_subscription objs rest topic_name
  end.

(** An attribute assignment on the subscription found by the search. *)
Definition assign (mgr : SubscriptionManager) (agent topic_name : string)
    (f : TopicSubscription -> TopicSubscription) : SubscriptionManager * bool :=
  match find_subscription (objects mgr) (get_agent_subscriptions mgr agent) topic_name with
  | Some r =>
      ({| objects := alter f r (objects mgr); next_ref := next_ref mgr;
          subscriptions := subscriptions mgr;
          agent_subscriptions := agent_subscriptions mgr;
          message_handlers := message_handlers mgr |}, true)
  | None => (mgr, false)
  end.

Definition set_active (b : bool) (sub : TopicSubscription) : TopicSubscription :=
  {| topic := topic sub; agent_id := agent_id sub;
     subscription_type := subscription_type sub;
     filter_criteria := filter_criteria sub; handler := handler sub;
     active := b; created_at := created_at sub;
     message_count := message_count sub; last_message_at := last_message_at sub |}.

Definition set_filter (fc : SubscriptionFilter) (sub : TopicSubscription)
  : TopicSubscription :=
  {| topic := topic sub; agent_id := agent_id sub;
     subscription_type := subscription_type sub;
     filter_criteria := Some fc; handler := handler sub;
     active := active sub; created_at := created_at sub;
     message_count := message_count sub; last_message_at := last_message_at sub |}.

Definition pause_subscription (mgr : SubscriptionManager) (agent topic_name : string)
  : SubscriptionManager * bool :=
  assign mgr agent topic_name (set_active false).

Definition resume_subscription (mgr : SubscriptionManager) (agent topic_name : string)
  : SubscriptionManager * bool :=
  assign mgr agent topic_name (set_active true).

Definition update_subscription_filter (mgr : SubscriptionManager)
    (agent topic_name : string) (new_filter : SubscriptionFilter)
  : SubscriptionManager * bool :=
  assign mgr agent topic_name (set_filter new_filter).

End SubscriptionManager.

(** ** core/error_handler.py *)

Module ErrorHandler.
Import Message.

Inductive ErrorType :=
| NETWORK_ERROR | LLM_PROVIDER_ERROR | MESSAGE_BROKER_ERROR
| VALIDATION_ERROR | PERMISSION_ERROR | TIMEOUT_ERROR | UNKNOWN_ERROR.

Global Instance ErrorType_eq_dec : EqDecision ErrorType.
Proof. solve_decision. Defined.

Inductive RetryStrategy :=
| IMMEDIATE | EXPONENTIAL_BACKOFF | LINEAR_BACKOFF | FIXED_DELAY.

(** Python floats are IEEE 754 binary64 numbers, as the primitive
    floats are: [*], [+], [-] and [<] on them round and compare as the
    Python operators do, and none of them raises. *)
Record RetryConfig := {
  max_retries : Z;
  base_delay : float;
  max_delay : float;
  backoff_multiplier : float;
  strategy : RetryStrategy;
  retryable_errors : list ErrorType
}.

Definition default_config : RetryConfig :=
  {| max_retries := 3; base_delay := 1%float; max_delay := 60%float;
     backoff_multiplier := 2%float; strategy := EXPONENTIAL_BACKOFF;
     retryable_errors := [NETWORK_ERROR; TIMEOUT_ERROR; MESSAGE_BROKER_ERROR] |}.

Record ErrorContext := {
  error_type : ErrorType;
  error_message : string;
  error_timestamp : datetime;
  agent_id : option string;
  error_topic : option string;
  message_id : option N;
  error_retry_count : Z;
  error_metadata : gmap string string
}.

Record RetryAttempt := {
  attempt_number : Z;
  attempt_timestamp : datetime;
  delay : float;
  error : option exn;
  success : bool
}.

(** References to [ErrorContext] objects: [_retry_operation] appends the
    same object to the history several times and mutates it. *)
Definition ref := nat.

Record ErrorHandler := {
  retry_config : RetryConfig;
  error_objects : gmap ref ErrorContext;
  next_ref : ref;
  error_history : list ref;
  retry_history : list RetryAttempt
}.

Definition new_handler (cfg : RetryConfig) : ErrorHandler :=
  {| retry_config := cfg; error_objects := ∅; next_ref := 0;
     error_history := []; retry_history := [] |}.

Definition max_history_size : Z := 1000.

Definition classify_error (e : exn) : ErrorType :=
  let error_name := Str.lower (exn_class e) in
  let error_text := Str.lower (exn_text e) in
  if Str.contains "timeout" error_name || Str.contains "timeout" error_text
  then TIMEOUT_ERROR
  else if Str.contains "network" error_name || Str.contains "connection" error_text
  then NETWORK_ERROR
  else if Str.contains "kafka" error_name || Str.contains "redpanda" error_text
  then MESSAGE_BROKER_ERROR
  else if Str.contains "openai" error_name || Str.contains "anthropic" error_name
          || Str.contains "llm" error_text
  then LLM_PROVIDER_ERROR
  else if Str.contains "validation" error_name || Str.contains "invalid" error_text
  then VALIDATION_ERROR
  else if Str.contains "permission" error_name || Str.contains "unauthorized" error_text
  then PERMISSION_ERROR
  else UNKNOWN_ERROR.

(** [float(n)], the conversion that multiplying a float by the integer
    [n] applies: the nearest float, ties to even, and [OverflowError] when
    that is beyond the largest float. *)
Definition int_too_large : exn :=
  Exn "OverflowError" "int too large to convert to float".

Definition float_of_int (n : Z) : outcome float :=
  let f := SF2Prim (binary_normalize prec emax n 0 false) in
  if is_infinity f then Raises int_too_large else Returns f.

(** [x ** n] for a float [x] and an integer [n]. Python computes it with
    the power function of the C library, which is not part of the program
    and is taken as a parameter; it raises (an [OverflowError] when the
    result is out of range) or returns, and [x ** 0] is [1.0] for every
    [x]. *)
Record Power := {
  float_pow : float -> Z -> outcome float;
  float_pow_zero : forall x, float_pow x 0 = Returns 1%float
}.

(** The C function [fmod(t, 1.0)]: exact, with the sign of [t]. *)
Definition fmod_one (t : float) : float :=
  match Prim2SF t with
  | S754_zero _ => t
  | S754_infinity _ | S754_nan => nan
  | S754_finite s mant e =>
      if (0 <=? e)%Z then (if s then neg_zero else zero)
      else
        let frac := (Z.pos mant mod 2 ^ (- e))%Z in
        SF2Prim (binary_normalize prec emax (if s then - frac else frac) e s)
  end.

(** [t % 1] for a float [t]: the remainder of [fmod], moved to the sign
    of the divisor. *)
Definition mod_one (t : float) : float :=
  let r := fmod_one t in
  if is_nan r then r
  else if (r =? 0)%float then zero
  else if (r <? 0)%float then (r + 1)%float
  else r.

(** [min(a, b)]: the first argument unless the second is less. *)
Definition py_min (a b : float) : float := if (b <? a)%float then b else a.

(** The literals [0.1] and [0.5]: the floats nearest to them. *)
Definition tenth : float := 0x1.999999999999ap-4%float.
Definition half : float := 0x1p-1%float.

(** The tail of [_calculate_delay]: the jitter is added and the sum is
    capped. *)
Definition jittered (cfg : RetryConfig) (d loop_time : float) : float :=
  let jitter := (d * tenth * (half - mod_one loop_time))%float in
  py_min (d + jitter)%float (max_delay cfg).

(** [_calculate_delay]; [attempt] is 0-based and [loop_time] is the value
    of [asyncio.get_event_loop().time()]. The four strategies are all the
    members of the enumeration, so the final [else] of the source is never
    taken. The conversion of [attempt + 1] and the power may raise. *)
Definition calculate_delay (pw : Power) (cfg : RetryConfig) (attempt : nat)
    (loop_time : float) : outcome float :=
  match strategy cfg with
  | IMMEDIATE => Returns 0%float
  | FIXED_DELAY => Returns (base_delay cfg)
  | LINEAR_BACKOFF =>
      bind_outcome (float_of_int (Z.of_nat attempt + 1)) (fun n =>
        Returns (jittered cfg (base_delay cfg * n)%float loop_time))
  | EXPONENTIAL_BACKOFF =>
      bind_outcome (float_pow pw (backoff_multiplier cfg) (Z.of_nat attempt)) (fun p =>
        Returns (jittered cfg (base_delay cfg * p)%float loop_time))
  end.

Definition with_history (h : ErrorHandler) (objs : gmap ref ErrorContext)
    (nxt : ref) (errs : list ref) (retries : list RetryAttempt) : ErrorHandler :=
  {| retry_config := retry_config h; error_objects := objs; next_ref := nxt;
     error_history := errs; retry_history := retries |}.

(** [_record_error] on an object already in the store. *)
Definition record_error (h : ErrorHandler) (r : ref) : ErrorHandler :=
  with_history h (error_objects h) (next_ref h)
    (Py.trim max_history_size (error_history h ++ [r])) (retry_history h).

(** Construction of an [ErrorContext] object. *)
Definition allocate (h : ErrorHandler) (ctx : ErrorContext) : ErrorHandler * ref :=
  (with_history h (<[next_ref h := ctx]> (error_objects h)) (S (next_ref h))
     (error_history h) (retry_history h), next_ref h).

Definition mutate (h : ErrorHandler) (r : ref) (f : ErrorContext -> ErrorContext)
  : ErrorHandler :=
  with_history h (alter f r (error_objects h)) (next_ref h)
    (error_history h) (retry_history h).

Definition set_retry_count (n : Z) (ctx : ErrorContext) : ErrorContext :=
  {| error_type := error_type ctx; error_message := error_message ctx;
     error_timestamp := error_timestamp ctx; agent_id := agent_id ctx;
     error_topic := error_topic ctx; message_id := message_id ctx;
     error_retry_count := n; error_metadata := error_metadata ctx |}.

Definition set_error_message (s : string) (ctx : ErrorContext) : ErrorContext :=
  {| error_type := error_type ctx; error_message := s;
     error_timestamp := error_timestamp ctx; agent_id := agent_id ctx;
     error_topic := error_topic ctx; message_id := message_id ctx;
     error_retry_count := error_retry_count ctx;
     error_metadata := error_metadata ctx |}.

Definition push_attempt (h : ErrorHandler) (a : RetryAttempt) : ErrorHandler :=
  with_history h (error_objects h) (next_ref h) (error_history h)
    (retry_history h ++ [a]).

Definition amend_attempt (h : ErrorHandler) (f : RetryAttempt -> RetryAttempt)
  : ErrorHandler :=
  with_history h (error_objects h) (next_ref h) (error_history h)
    (Py.amend_last f (retry_history h)).

Definition mark_success (a : RetryAttempt) : RetryAttempt :=
  {| attempt_number := attempt_number a; attempt_timestamp := attempt_timestamp a;
     delay := delay a; error := error a; success := true |}.

Definition mark_error (e : exn) (a : RetryAttempt) : RetryAttempt :=
  {| attempt_number := attempt_number a; attempt_timestamp := attempt_timestamp a;
     delay := delay a; error := Some e; success := success a |}.

(** The clock as the retry loop reads it at each attempt. *)
Record Clock := {
  utcnow_at : nat -> datetime;
  loop_time_at : nat -> float
}.

(** What a run of the retry loop leaves behind: the handler, the returned
    value ([None] is Python's [None]), the exception that left the loop
    uncaught, if one did, how often the operation was called and the
    delays slept. *)
Record Run (A : Type) := {
  handler_after : ErrorHandler;
  result : option A;
  raised : option exn;
  calls : nat;
  slept : list float
}.
Arguments handler_after {A} _.
Arguments result {A} _.
Arguments raised {A} _.
Arguments calls {A} _.
Arguments slept {A} _.

(** The local variable [retry_attempt] is read before any assignment. *)
Definition unbound_retry_attempt : exn :=
  Exn "UnboundLocalError"
    "cannot access local variable 'retry_attempt' where it is not associated with a value".

Section Retry.
Context {A : Type}.
Variable pw : Power.
(** The operation: the outcome of its call at each attempt. *)
Variable retry_func : nat -> outcome A.
Variable clock : Clock.

(** The [except] block of the loop at [attempt], entered with the
    exception [e]: the attempt object that [retry_attempt] names (the one
    appended last) gets the error, the context gets the count, and the loop
    ends at the last attempt or goes on after recording the error again. *)
Definition on_exception (attempt : nat) (e : exn) (h : ErrorHandler) (ctx : ref)
    (made : nat) (sleeps : list float) (continue : ErrorHandler -> Run A) : Run A :=
  let h2 := amend_attempt h (mark_error e) in
  let h3 := mutate h2 ctx (set_retry_count (Z.of_nat attempt + 1)) in
  if bool_decide (Z.of_nat attempt = max_retries (retry_config h) - 1)%Z
  then {| handler_after := h3; result := None; raised := None;
          calls := made; slept := sleeps |}
  else continue (record_error (mutate h3 ctx (set_error_message (exn_text e))) ctx).

(** The iterations [attempt, attempt + 1, ...] of the loop of
    [_retry_operation], [remaining] of them; [bound] tells whether an
    earlier iteration has assigned [retry_attempt]. The delay is computed
    inside the [try] block, before the attempt is recorded: when it raises,
    no attempt is appended and the operation is not called. *)
Fixpoint retry_loop (remaining attempt : nat) (bound : bool) (h : ErrorHandler)
    (ctx : ref) (made : nat) (sleeps : list float) : Run A :=
  match remaining with
  | O => {| handler_after := h; result := None; raised := None;
            calls := made; slept := sleeps |}
  | S remaining' =>
      match calculate_delay pw (retry_config h) attempt (loop_time_at clock attempt) with
      | Raises e =>
          if bound
          then on_exception attempt e h ctx made sleeps
                 (fun h' => retry_loop remaining' (S attempt) true h' ctx made sleeps)
          else {| handler_after := h; result := None;
                  raised := Some unbound_retry_attempt;
                  calls := made; slept := sleeps |}
      | Returns d =>
          let h1 := push_attempt h
                      {| attempt_number := Z.of_nat attempt + 1;
                         attempt_timestamp := utcnow_at clock attempt;
                         delay := d; error := None; success := false |} in
          let sleeps1 := if (0 <? attempt)%nat then (sleeps ++ [d])%list else sleeps in
          match retry_func attempt with
          | Returns v =>
              {| handler_after := amend_attempt h1 mark_success;
                 result := Some v; raised := None;
                 calls := S made; slept := sleeps1 |}
          | Raises e =>
              on_exception attempt e h1 ctx (S made) sleeps1
                (fun h' => retry_loop remaining' (S attempt) true h' ctx (S made) sleeps1)
          end
      end
  end.

(** [_retry_operation]: [for attempt in range(max_retries)]. *)
Definition retry_operation (h : ErrorHandler) (ctx : ref) : Run A :=
  retry_loop (Z.to_nat (max_retries (retry_config h))) 0 false h ctx 0 [].

End Retry.

(** [handle_error]; [now] is the clock read for the error context. *)
Definition handle_error {A} (pw : Power) (h : ErrorHandler) (now : datetime)
    (clock : Clock) (e : exn) (context : option (gmap string string))
    (retry_func : option (nat -> outcome A)) : Run A :=
  let etype := classify_error e in
  let '(h1, ctx) :=
    allocate h {| error_type := etype; error_message := exn_text e;
                  error_timestamp := now; agent_id := None; error_topic := None;
                  message_id := None; error_retry_count := 0;
                  error_metadata := default ∅ context |} in
  let h2 := record_error h1 ctx in
  match retry_func with
  | Some f =>
      if bool_decide (etype ∈ retryable_errors (retry_config h))
      then retry_operation pw f clock h2 ctx
      else {| handler_after := h2; result := None; raised := None;
              calls := 0; slept := [] |}
  | None => {| handler_after := h2; result := None; raised := None;
               calls := 0; slept := [] |}
  end.

(** [is_error_retryable] is declared [async]: a call builds a coroutine
    object, and only awaiting it runs the body. *)
Inductive coroutine (A : Type) := Coroutine (body : A).
Arguments Coroutine {A} body.

Definition await {A} (c : coroutine A) : A := match c with Coroutine a => a end.

Definition is_error_retryable (h : ErrorHandler) (e : exn) : coroutine bool :=
  Coroutine (bool_decide (classify_error e ∈ retryable_errors (retry_config h))).

(** The values the condition of [handle_message_error] computes with. *)
Inductive value :=
| VBool (b : bool)
| VCoroutine (c : coroutine bool).

(** Truth value testing: an object without [__bool__] or [__len__] is
    true. *)
Definition truthy (v : value) : bool :=
  match v with
  | VBool b => b
  | VCoroutine _ => true
  end.

(** [a and b]. *)
Definition py_and (a b : value) : value := if truthy a then b else a.

(** [MessageErrorHandler.handle_message_error]. *)
Definition handle_message_error (h : ErrorHandler) (now : datetime) (e : exn)
    (message : AgentMessage) (operation : string) : ErrorHandler * bool :=
  let context : gmap string string :=
    {[ "message_id" := pretty (id message); "topic" := topic message;
       "sender_id" := sender_id message; "operation" := operation ]} in
  let '(h1, ctx) :=
    allocate h {| error_type := classify_error e; error_message := exn_text e;
                  error_timestamp := now; agent_id := Some (sender_id message);
                  error_topic := Some (topic message);
                  message_id := Some (id message); error_retry_count := 0;
                  error_metadata := context |} in
  let h2 := record_error h1 ctx in
  if truthy (py_and (VBool (should_retry now message))
                    (VCoroutine (is_error_retryable h e)))
  then (h2, true)
  else (h2, false).

End ErrorHandler.

(** ** core/conversation_manager.py *)

Module ConversationManager.
Import Message.

(** UUIDs as numbers. *)
Definition UUID := N.

Record ConversationThread := {
  thread_id : UUID;
  topic : string;
  title : option string;
  created_at : datetime;
  last_activity : datetime;
  participants : gset string;
  message_count : Z;
  is_active : bool;
  thread_metadata : gmap string string
}.

Record ConversationContext := {
  context_thread_id : UUID;
  context_topic : string;
  recent_messages : list AgentMessage;
  context_participants : gset string;
  thread_title : option string;
  context_created_at : datetime;
  context_last_activity : datetime
}.

Record ConversationManager := {
  max_context_messages : Z;
  thread_timeout : timedelta;
  threads : gmap UUID ConversationThread;
  topic_threads : gmap string (list UUID);
  agent_threads : gmap string (gset UUID);
  message_threads : gmap N UUID;
  thread_messages : gmap UUID (list AgentMessage);
  conversation_contexts : gmap UUID ConversationContext
}.

Definition new_manager (max_context : Z) (timeout : timedelta) : ConversationManager :=
  {| max_context_messages := max_context; thread_timeout := timeout;
     threads := ∅; topic_threads := ∅; agent_threads := ∅;
     message_threads := ∅; thread_messages := ∅; conversation_contexts := ∅ |}.

(** The default manager: ten context messages, twenty-four hours. *)
Definition default_manager : ConversationManager :=
  new_manager 10 (seconds (24 * 3600)).

(** [str.strip()] on ASCII text. *)
Definition is_space (c : ascii) : bool :=
  let n := nat_of_ascii c in
  ((9 <=? n)%nat && (n <=? 13)%nat) || ((28 <=? n)%nat && (n <=? 32)%nat).

Fixpoint lstrip (s : string) : string :=
  match s with
  | String c s' => if is_space c then lstrip s' else s
  | EmptyString => EmptyString
  end.

Fixpoint rstrip (s : string) : string :=
  match s with
  | EmptyString => EmptyString
  | String c s' =>
      let r := rstrip s' in
      if is_space c && Str.is_empty r then EmptyString else String c r
  end.

Definition generate_thread_title (message : AgentMessage) : string :=
  let text := rstrip (lstrip (content message)) in
  if (String.length text <=? 50)%nat then text
  else String.substring 0 47 text ++ "...".

Definition add_agent_thread (agent : string) (tid : UUID)
    (d : gmap string (gset UUID)) : gmap string (gset UUID) :=
  <[agent := default ∅ (d !! agent) ∪ {[tid]}]> d.

(** [create_thread]; [fresh] is the value of [uuid4()] and [now] the
    clock read of the constructors. *)
Definition create_thread (mgr : ConversationManager) (fresh : UUID) (now : datetime)
    (topic_name : string) (initial_message : AgentMessage) (given_title : option string)
  : ConversationManager * ConversationThread :=
  let the_title :=
    match given_title with
    | Some t => if Str.is_empty t then generate_thread_title initial_message else t
    | None => generate_thread_title initial_message
    end in
  let thread :=
    {| thread_id := fresh; topic := topic_name; title := Some the_title;
       created_at := now; last_activity := now;
       participants := {[sender_id initial_message]};
       message_count := 0; is_active := true; thread_metadata := ∅ |} in
  let context :=
    {| context_thread_id := fresh; context_topic := topic_name;
       recent_messages := [initial_message];
       context_participants := {[sender_id initial_message]};
       thread_title := Some the_title;
       context_created_at := now; context_last_activity := now |} in
  ({| max_context_messages := max_context_messages mgr;
      thread_timeout := thread_timeout mgr;
      threads := <[fresh := thread]> (threads mgr);
      topic_threads :=
        <[topic_name := (default [] (topic_threads mgr !! topic_name) ++ [fresh])%list]>
          (topic_threads mgr);
      agent_threads :=
        add_agent_thread (sender_id initial_message) fresh (agent_threads mgr);
      message_threads := <[id initial_message := fresh]> (message_threads mgr);
      thread_messages := <[fresh := [initial_message]]> (thread_messages mgr);
      conversation_contexts := <[fresh := context]> (conversation_contexts mgr) |},
   thread).

(** The test of [_find_or_create_thread] on one thread id of the topic:
    the thread is known, flagged active, and its last activity is less
    than the timeout ago. *)
Definition eligible (mgr : ConversationManager) (now : datetime) (tid : UUID) : bool :=
  match threads mgr !! tid with
  | Some thread =>
      is_active thread && bool_decide (now - last_activity thread < thread_timeout mgr)%Z
  | None => false
  end.

(** The search loop: the first thread id of the list that passes. *)
Fixpoint find_thread (mgr : ConversationManager) (now : datetime) (tids : list UUID)
  : option UUID :=
  match tids with
  | [] => None
  | tid :: rest => if eligible mgr now tid then Some tid else find_thread mgr now rest
  end.

Definition find_or_create_thread (mgr : ConversationManager) (fresh : UUID)
    (now : datetime) (message : AgentMessage) : ConversationManager * UUID :=
  match find_thread mgr now (default [] (topic_threads mgr !! Message.topic message)) with
  | Some tid => (mgr, tid)
  | None =>
      let '(mgr', thread) :=
        create_thread mgr fresh now (Message.topic message) message None in
      (mgr', thread_id thread)
  end.

Definition touch_thread (message : AgentMessage) (thread : ConversationThread)
  : ConversationThread :=
  {| thread_id := thread_id thread; topic := topic thread; title := title thread;
     created_at := created_at thread; last_activity := timestamp message;
     participants := participants thread ∪ {[sender_id message]};
     message_count := message_count thread + 1; is_active := is_active thread;
     thread_metadata := thread_metadata thread |}.

(** [_update_conversation_context] on the context of one thread. *)
Definition update_conversation_context (limit : Z) (message : AgentMessage)
    (context : ConversationContext) : ConversationContext :=
  let recent := (recent_messages context ++ [message])%list in
  {| context_thread_id := context_thread_id context;
     context_topic := context_topic context;
     recent_messages :=
       if (limit <? Z.of_nat (length recent))%Z then Py.last_n limit recent else recent;
     context_participants := context_participants context ∪ {[sender_id message]};
     thread_title := thread_title context;
     context_created_at := context_created_at context;
     context_last_activity := timestamp message |}.

(** [add_message_to_thread]; [fresh] and [now] are used when a thread
    has to be searched for or created. *)
Definition add_message_to_thread (mgr : ConversationManager) (fresh : UUID)
    (now : datetime) (message : AgentMessage) (explicit : option UUID)
  : ConversationManager * UUID :=
  let '(mgr1, tid) :=
    match explicit with
    | Some tid => (mgr, tid)
    | None => find_or_create_thread mgr fresh now message
    end in
  let known := bool_decide (is_Some (threads mgr1 !! tid)) in
  ({| max_context_messages := max_context_messages mgr1;
      thread_timeout := thread_timeout mgr1;
      threads := alter (touch_thread message) tid (threads mgr1);
      topic_threads := topic_threads mgr1;
      agent_threads :=
        if known then add_agent_thread (sender_id message) tid (agent_threads mgr1)
        else agent_threads mgr1;
      message_threads := <[id message := tid]> (message_threads mgr1);
      thread_messages :=
        <[tid := (default [] (thread_messages mgr1 !! tid) ++ [message])%list]>
          (thread_messages mgr1);
      conversation_contexts :=
        alter (update_conversation_context (max_context_messages mgr1) message) tid
          (conversation_contexts mgr1) |},
   tid).

(** [get_conversation_context]. *)
Definition get_conversation_context (mgr : ConversationManager) (tid : UUID)
  : option ConversationContext :=
  conversation_contexts mgr !! tid.

(** [get_thread_messages]; a limit of [None] or of 0 is false. *)
Definition get_thread_messages (mgr : ConversationManager) (tid : UUID)
    (limit : option Z) : list AgentMessage :=
  let messages := default [] (thread_messages mgr !! tid) in
  match limit with
  | Some n => if bool_decide (n = 0)%Z then messages else Py.last_n n messages
  | None => messages
  end.

(** [get_topic_threads]. *)
Definition get_topic_threads (mgr : ConversationManager) (topic_name : string)
  : list ConversationThread :=
  omap (fun tid => threads mgr !! tid) (default [] (topic_threads mgr !! topic_name)).

Definition deactivate (thread : ConversationThread) : ConversationThread :=
  {| thread_id := thread_id thread; topic := topic thread; title := title thread;
     created_at := created_at thread; last_activity := last_activity thread;
     participants := participants thread; message_count := message_count thread;
     is_active := false; thread_metadata := thread_metadata thread |}.

Definition with_threads (mgr : ConversationManager)
    (ths : gmap UUID ConversationThread) : ConversationManager :=
  {| max_context_messages := max_context_messages mgr;
     thread_timeout := thread_timeout mgr;
     threads := ths; topic_threads := topic_threads mgr;
     agent_threads := agent_threads mgr; message_threads := message_threads mgr;
     thread_messages := thread_messages mgr;
     conversation_contexts := conversation_contexts mgr |}.

(** [close_thread]. *)
Definition close_thread (mgr : ConversationManager) (tid : UUID) (closed_by : string)
  : ConversationManager * bool :=
  match threads mgr !! tid with
  | None => (mgr, false)
  | Some _ => (with_threads mgr (alter deactivate tid (threads mgr)), true)
  end.

(** The test of [archive_old_threads] on one thread: flagged active and
    last active before the cutoff [now - thread_timeout]. *)
Definition is_old (mgr : ConversationManager) (now : datetime)
    (thread : ConversationThread) : bool :=
  is_active thread && bool_decide (last_activity thread < now - thread_timeout mgr)%Z.

(** [archive_old_threads]: the loop over [threads.items()] deactivates
    each old thread and counts it; neither depends on the order of the
    dictionary. *)
Definition archive_old_threads (mgr : ConversationManager) (now : datetime)
  : ConversationManager * Z :=
  (with_threads mgr
     ((fun thread => if is_old mgr now thread then deactivate thread else thread)
        <$> threads mgr),
   map_fold (fun _ thread count => if is_old mgr now thread then (count + 1)%Z else count)
     0%Z (threads mgr)).

Record CleanupStats := {
  archived_threads : Z;
  removed_contexts : Z;
  removed_messages : Z
}.

(** A thread id whose thread is known and not flagged active. *)
Definition is_closed (ths : gmap UUID ConversationThread) (tid : UUID) : bool :=
  match ths !! tid with
  | Some thread => negb (is_active thread)
  | None => false
  end.

(** The trimming of one thread's messages in [cleanup_old_data]. *)
Definition shorten (limit : Z) (messages : list AgentMessage) : list AgentMessage :=
  if (limit * 2 <? Z.of_nat (length messages))%Z then Py.last_n limit messages
  else messages.

(** [cleanup_old_data]. *)
Definition cleanup_old_data (mgr : ConversationManager) (now : datetime)
  : ConversationManager * CleanupStats :=
  let '(mgr1, archived) := archive_old_threads mgr now in
  let closed (entry : UUID * ConversationContext) : Prop :=
    is_closed (threads mgr1) entry.1 = true in
  let limit := max_context_messages mgr1 in
  ({| max_context_messages := max_context_messages mgr1;
      thread_timeout := thread_timeout mgr1;
      threads := threads mgr1; topic_threads := topic_threads mgr1;
      agent_threads := agent_threads mgr1; message_threads := message_threads mgr1;
      thread_messages := shorten limit <$> thread_messages mgr1;
      conversation_contexts :=
        filter (fun entry => ~ closed entry) (conversation_contexts mgr1) |},
   {| archived_threads := archived;
      removed_contexts :=
        Z.of_nat (size (filter closed (conversation_contexts mgr1)));
      removed_messages :=
        map_fold (fun _ messages count =>
                    (count + (Z.of_nat (length messages)
                              - Z.of_nat (length (shorten limit messages))))%Z)
          0%Z (thread_messages mgr1) |}).

End ConversationManager.

(** * Properties *)

(** ** Strings *)

Module StrFacts.
Import Str.

Lemma startswith_app (s p : string) :
  startswith s p = true <-> exists r, s = p ++ r.
Proof.
  revert s. induction p as [|a p IH]; intros s; simpl.
  - split; [intros _; exists s; reflexivity | reflexivity].
  - destruct s as [|b s]; simpl.
    + split; [discriminate | intros [r Hr]; discriminate].
    + rewrite andb_true_iff, bool_decide_eq_true, IH. split.
      * intros [-> [r ->]]. exists r. reflexivity.
      * intros [r Hr]. injection Hr as -> ->. eauto.
Qed.

(** [contains] decides the occurrence of a substring. *)
Lemma contains_app (needle hay : string) :
  contains needle hay = true <-> exists a b, hay = a ++ needle ++ b.
Proof.
  induction hay as [|c hay IH]; simpl.
  - rewrite orb_false_r, startswith_app. split.
    + intros [r Hr]. exists EmptyString, r. exact Hr.
    + intros [a [b Hab]]. destruct a; simpl in Hab; [eauto | discriminate].
  - rewrite orb_true_iff, IH, startswith_app. split.
    + intros [[r Hr] | [a [b Hab]]].
      * exists EmptyString, r. exact Hr.
      * exists (String c a), b. simpl. rewrite Hab. reflexivity.
    + intros [a [b Hab]]. destruct a as [|d a]; simpl in Hab.
      * left. eauto.
      * right. exists a, b. injection Hab as _ Hab. exact Hab.
Qed.

Lemma endswith_char_app (s : string) (c : ascii) :
  endswith_char s c = true <-> exists r, s = r ++ String c EmptyString.
Proof.
  induction s as [|d s IH].
  - simpl. split; [discriminate | intros [[|? ?] Hr]; discriminate].
  - destruct s as [|d' s'].
    + simpl. rewrite bool_decide_eq_true. split.
      * intros ->. exists EmptyString. reflexivity.
      * intros [[|x r] Hr]; simpl in Hr.
        -- injection Hr as ->. reflexivity.
        -- injection Hr as _ Hr. destruct r; discriminate.
    + change (endswith_char (String d (String d' s')) c)
        with (endswith_char (String d' s') c).
      rewrite IH. split.
      * intros [r Hr]. exists (String d r). simpl. rewrite Hr. reflexivity.
      * intros [[|x r] Hr]; simpl in Hr; [discriminate|].
        exists r. injection Hr as _ Hr. exact Hr.
Qed.

Lemma all_chars_lower_id (p : ascii -> bool) (s : string) :
  (forall c, p c = true -> lower_char c = c) ->
  all_chars p s = true -> lower s = s.
Proof.
  intros Hp. induction s as [|c s IH]; simpl; [reflexivity|].
  rewrite andb_true_iff. intros [Hc Hs]. rewrite (Hp c Hc), (IH Hs). reflexivity.
Qed.

End StrFacts.

(** ** Python list helpers *)

Module PyFacts.

(** A history trimmed to a positive size has at most that many entries
    and is the tail of the untrimmed one. *)
Lemma trim_bounded {A} (size : Z) (h : list A) :
  (0 < size)%Z ->
  (Z.of_nat (length (Py.trim size h)) <= size)%Z
  /\ exists dropped, h = (dropped ++ Py.trim size h)%list.
Proof.
  intros Hsize. unfold Py.trim, Py.last_n, Py.slice_from.
  destruct (Z.ltb_spec size (Z.of_nat (length h))).
  - destruct (Z.leb_spec 0 (- size)); [lia|].
    rewrite length_drop. split; [lia|].
    exists (take (Z.to_nat (Z.of_nat (length h) + - size)) h).
    rewrite take_drop. reflexivity.
  - split; [lia|]. exists []. reflexivity.
Qed.

Lemma trim_keeps_last {A} (size : Z) (h : list A) (x : A) :
  (0 < size)%Z -> last (Py.trim size (h ++ [x])) = Some x.
Proof.
  intros Hsize. unfold Py.trim, Py.last_n, Py.slice_from.
  destruct (Z.ltb_spec size (Z.of_nat (length (h ++ [x])))); [|apply last_snoc].
  destruct (Z.leb_spec 0 (- size)); [lia|].
  rewrite length_app in *. simpl in *.
  rewrite drop_app_le by lia. apply last_snoc.
Qed.

End PyFacts.

(** ** Topic names and permissions *)

Module TopicValidatorFacts.
Import TopicValidator.

(** The shapes of a name the naming policy talks about. *)
Definition only_name_chars (s : string) : Prop := Str.all_chars name_char s = true.
Definition leading_hyphen (s : string) : Prop := exists r, s = "-" ++ r.
Definition trailing_hyphen (s : string) : Prop := exists r, s = r ++ "-".
Definition consecutive_hyphens (s : string) : Prop := exists a b, s = a ++ "--" ++ b.

(** At most one permission record per agent on every topic. *)
Definition unique_agents (st : permissions) : Prop :=
  forall t perms, st !! t = Some perms -> NoDup (agent_id <$> perms).

Lemma name_char_lower (c : ascii) : name_char c = true -> Str.lower_char c = c.
Proof.
  unfold name_char, Str.lower_char. set (n := nat_of_ascii c). intros H.
  destruct ((65 <=? n)%nat && (n <=? 90)%nat) eqn:E; [|reflexivity].
  exfalso. apply andb_true_iff in E as [E1 E2].
  apply Nat.leb_le in E1, E2.
  repeat (apply orb_true_iff in H as [H|H]).
  - apply andb_true_iff in H as [H _]. apply Nat.leb_le in H. lia.
  - apply andb_true_iff in H as [_ H]. apply Nat.leb_le in H. lia.
  - apply Nat.eqb_eq in H. lia.
Qed.

Lemma before_dollar_name (s : string) : only_name_chars s -> before_dollar s = s.
Proof.
  unfold only_name_chars. induction s as [|c s IH]; [reflexivity|].
  intros H. simpl in H. apply andb_true_iff in H as [Hc Hs].
  destruct s as [|d s'].
  - simpl. case_bool_decide as Hn; [|reflexivity].
    subst c. vm_compute in Hc. discriminate.
  - change (before_dollar (String c (String d s')))
      with (String c (before_dollar (String d s'))).
    rewrite (IH Hs). reflexivity.
Qed.

Lemma match_name_chars_name (s : string) :
  only_name_chars s -> s <> EmptyString -> match_name_chars s = true.
Proof.
  intros Hs Hne. unfold match_name_chars. rewrite (before_dollar_name s Hs).
  rewrite Hs. destruct s; [congruence | reflexivity].
Qed.

Lemma length_errors_nil (s : string) :
  length_errors s = [] <-> (3 <= String.length s <= 50)%nat.
Proof.
  unfold length_errors, min_topic_length, max_topic_length.
  destruct (Nat.ltb_spec (String.length s) 3);
    [split; [discriminate | lia]|].
  destruct (Nat.ltb_spec 50 (String.length s)); split; (discriminate || lia || auto).
Qed.

(** For a name that breaks none of the shape rules the only possible
    errors are those of the length check. *)
Lemma errors_of_shaped_name (name : string) (who : option string) :
  only_name_chars name -> ~ leading_hyphen name -> ~ trailing_hyphen name ->
  ~ consecutive_hyphens name -> name ∉ reserved_topics ->
  errors (validate_topic_name name None who) = [] <-> length_errors name = [].
Proof.
  intros Hcs Hlead Htrail Hcons Hres.
  assert (Hlow : Str.lower name = name)
    by (apply (StrFacts.all_chars_lower_id name_char); [apply name_char_lower | exact Hcs]).
  assert (Hc : Str.contains "--" name = false).
  { apply not_true_is_false. rewrite StrFacts.contains_app. exact Hcons. }
  assert (Hl : Str.startswith name "-" = false).
  { apply not_true_is_false. rewrite StrFacts.startswith_app. exact Hlead. }
  assert (Ht : Str.endswith_char name hyphen = false).
  { apply not_true_is_false. rewrite StrFacts.endswith_char_app. exact Htrail. }
  unfold validate_topic_name; cbn [errors].
  rewrite Hlow, Hc, Hl, Ht, (bool_decide_eq_false_2 _ Hres). cbn [when orb pattern_errors].
  destruct name as [|c name'].
  - split; discriminate.
  - rewrite (match_name_chars_name _ Hcs) by discriminate.
    cbn [negb when]. rewrite !app_nil_r. reflexivity.
Qed.

Lemma is_valid_errors (name : string) (t : option TopicType) (who : option string) :
  is_valid (validate_topic_name name t who) = true <->
  errors (validate_topic_name name t who) = [].
Proof.
  unfold validate_topic_name; cbn [is_valid errors].
  rewrite bool_decide_eq_true. apply length_zero_iff_nil.
Qed.

Lemma first_permission_absent (perms : list TopicPermission) (agent : string) :
  (forall perm, perm ∈ perms -> agent_id perm <> agent) ->
  first_permission perms agent = None.
Proof.
  induction perms as [|p perms IH]; intros H; simpl; [reflexivity|].
  rewrite bool_decide_eq_false_2 by (apply H; left).
  apply IH. intros perm Hin. apply H. right. exact Hin.
Qed.

Lemma first_permission_unique (perms : list TopicPermission) (perm : TopicPermission) :
  NoDup (agent_id <$> perms) -> perm ∈ perms ->
  first_permission perms (agent_id perm) = Some perm.
Proof.
  induction perms as [|p perms IH]; intros Hnd Hin.
  - inversion Hin.
  - rewrite fmap_cons in Hnd. apply NoDup_cons in Hnd as [Hp Hnd]. simpl.
    apply elem_of_cons in Hin as [->|Hin].
    + rewrite bool_decide_eq_true_2 by reflexivity. reflexivity.
    + rewrite bool_decide_eq_false_2; [apply IH; assumption|].
      intros Heq. apply Hp. rewrite Heq. apply list_elem_of_fmap. eauto.
Qed.

Lemma update_existing_first (perms perms' : list TopicPermission)
    (agent : string) (level : PermissionLevel) (g : string) :
  update_existing perms agent level g = Some perms' ->
  exists perm, first_permission perms' agent = Some perm
               /\ permission_level perm = level.
Proof.
  revert perms'. induction perms as [|p perms IH]; intros perms' H; simpl in H.
  - discriminate.
  - case_bool_decide as Hp.
    + injection H as <-. simpl. rewrite bool_decide_eq_true_2 by exact Hp. eauto.
    + destruct (update_existing perms agent level g) as [l|] eqn:E; [|discriminate].
      injection H as <-. simpl. rewrite bool_decide_eq_false_2 by exact Hp.
      apply IH. reflexivity.
Qed.

Lemma update_existing_absent (perms : list TopicPermission)
    (agent : string) (level : PermissionLevel) (g : string) :
  update_existing perms agent level g = None ->
  forall x, first_permission (perms ++ [x]) agent
            = if bool_decide (agent_id x = agent) then Some x else None.
Proof.
  induction perms as [|p perms IH]; intros H x; simpl in *; [reflexivity|].
  case_bool_decide as Hp; [discriminate|].
  apply IH. destruct (update_existing perms agent level g); [discriminate | reflexivity].
Qed.

(** A check right after a grant compares the granted level with the
    required one. *)
Lemma check_after_grant (st : permissions) (t agent g : string)
    (level required : PermissionLevel) :
  check_permission (grant_permission st t agent level g).1 t agent required
  = permission_level_sufficient level required.
Proof.
  unfold grant_permission, check_permission.
  destruct (update_existing (default [] (st !! t)) agent level g) as [perms'|] eqn:E;
    cbn [fst]; rewrite lookup_insert_eq.
  - destruct (update_existing_first _ _ _ _ _ E) as [perm [-> <-]]. reflexivity.
  - rewrite (update_existing_absent _ _ _ _ E). cbn [agent_id].
    rewrite bool_decide_eq_true_2 by reflexivity. reflexivity.
Qed.

Lemma update_existing_agents (perms perms' : list TopicPermission)
    (agent : string) (level : PermissionLevel) (g : string) :
  update_existing perms agent level g = Some perms' ->
  agent_id <$> perms' = agent_id <$> perms.
Proof.
  revert perms'. induction perms as [|p perms IH]; intros perms' H; simpl in H.
  - discriminate.
  - case_bool_decide as Hp.
    + injection H as <-. reflexivity.
    + destruct (update_existing perms agent level g) as [l|] eqn:E; [|discriminate].
      injection H as <-. rewrite !fmap_cons, (IH l); reflexivity.
Qed.

Lemma update_existing_none_fresh (perms : list TopicPermission)
    (agent : string) (level : PermissionLevel) (g : string) :
  update_existing perms agent level g = None -> agent ∉ agent_id <$> perms.
Proof.
  induction perms as [|p perms IH]; simpl; intros H.
  - apply not_elem_of_nil.
  - case_bool_decide as Hp; [discriminate|].
    rewrite not_elem_of_cons. split; [congruence|].
    apply IH. destruct (update_existing perms agent level g); [discriminate | reflexivity].
Qed.

(** Granting keeps one record per agent. *)
Lemma grant_permission_unique (st : permissions) (t agent g : string)
    (level : PermissionLevel) :
  unique_agents st -> unique_agents (grant_permission st t agent level g).1.
Proof.
  intros Hu t' perms'. unfold grant_permission.
  assert (Hd : NoDup (agent_id <$> default [] (st !! t))).
  { destruct (st !! t) as [l|] eqn:E; [exact (Hu t l E) | constructor]. }
  destruct (update_existing (default [] (st !! t)) agent level g) as [l|] eqn:E;
    cbn [fst]; rewrite lookup_insert; case_decide as Ht; try (apply Hu).
  - intros [= <-]. rewrite (update_existing_agents _ _ _ _ _ E). exact Hd.
  - intros [= <-]. rewrite fmap_app. apply NoDup_app. split; [exact Hd|].
    split; [|apply NoDup_singleton].
    intros x Hx Hx'. apply list_elem_of_singleton in Hx'. subst x.
    exact (update_existing_none_fresh _ _ _ _ E Hx).
Qed.

(** Revoking keeps one record per agent. *)
Lemma revoke_permission_unique (st : permissions) (t agent by_agent : string) :
  unique_agents st -> unique_agents (revoke_permission st t agent by_agent).1.
Proof.
  intros Hu t' perms'. unfold revoke_permission.
  destruct (st !! t) as [l|] eqn:E; cbn [fst]; [|apply Hu].
  rewrite lookup_insert; case_decide as Ht; [|apply Hu].
  intros [= <-]. specialize (Hu t l E). clear E.
  induction l as [|p l IH]; [constructor|].
  rewrite fmap_cons in Hu. apply NoDup_cons in Hu as [Hp Hl].
  rewrite filter_cons. case_decide.
  - rewrite fmap_cons. apply NoDup_cons. split; [|apply IH; exact Hl].
    intros Hin. apply Hp. apply list_elem_of_fmap in Hin as [y [-> Hy]].
    apply list_elem_of_filter in Hy as [_ Hy]. apply list_elem_of_fmap. eauto.
  - apply IH. exact Hl.
Qed.

Lemma empty_unique : unique_agents ∅.
Proof. intros t perms H. rewrite lookup_empty in H. discriminate. Qed.

Definition fifty_chars : string :=
  "a2345678901234567890123456789012345678901234567890".

(** Claim C8. A name made of [[a-z0-9-]] only, without leading, trailing
    or consecutive hyphens and not reserved, is accepted exactly when its
    length lies between 3 and 50: lengths 3 and 50 are accepted, lengths 2
    and 51 are rejected. ["ab--cd"] is rejected for its consecutive
    hyphens, ["-abc"] and ["abc-"] for the hyphen at an end, and each of
    the reserved names system, admin, config, logs, metrics and health is
    rejected. *)
Theorem topic_name_boundaries :
  (forall (name : string) (who : option string),
      only_name_chars name -> ~ leading_hyphen name -> ~ trailing_hyphen name ->
      ~ consecutive_hyphens name -> name ∉ reserved_topics ->
      let accepted := is_valid (validate_topic_name name None who) in
      (accepted = true <-> (3 <= String.length name <= 50)%nat)
      /\ (String.length name = 3%nat \/ String.length name = 50%nat -> accepted = true)
      /\ (String.length name = 2%nat \/ String.length name = 51%nat -> accepted = false))
  /\ (forall who, errors (validate_topic_name "ab--cd" None who) = [ConsecutiveHyphens]
                  /\ is_valid (validate_topic_name "ab--cd" None who) = false)
  /\ (forall who, errors (validate_topic_name "-abc" None who) = [EdgeHyphen]
                  /\ is_valid (validate_topic_name "-abc" None who) = false)
  /\ (forall who, errors (validate_topic_name "abc-" None who) = [EdgeHyphen]
                  /\ is_valid (validate_topic_name "abc-" None who) = false)
  /\ (forall (name : string) (who : option string),
        name ∈ ["system"; "admin"; "config"; "logs"; "metrics"; "health"] ->
        name ∈ reserved_topics
        /\ Reserved ∈ errors (validate_topic_name name None who)
        /\ is_valid (validate_topic_name name None who) = false).
Proof.
  split; [|split; [|split; [|split]]].
  - intros name who Hcs Hlead Htrail Hcons Hres accepted.
    assert (Hiff : accepted = true <-> (3 <= String.length name <= 50)%nat).
    { unfold accepted. rewrite is_valid_errors, errors_of_shaped_name by assumption.
      apply length_errors_nil. }
    split; [exact Hiff|]. split.
    + intros Hlen. apply Hiff. lia.
    + intros Hlen. apply not_true_is_false. rewrite Hiff. lia.
  - intros who. split; vm_compute; reflexivity.
  - intros who. split; vm_compute; reflexivity.
  - intros who. split; vm_compute; reflexivity.
  - intros name who Hin.
    assert (Hname : name = "system" \/ name = "admin" \/ name = "config"
                    \/ name = "logs" \/ name = "metrics" \/ name = "health").
    { set_unfold. tauto. }
    split; [unfold reserved_topics; set_unfold; tauto|].
    destruct Hname as [->|[->|[->|[->|[->| ->]]]]];
      (split; [|vm_compute; reflexivity]);
      unfold validate_topic_name; cbn [errors]; set_unfold; vm_compute; tauto.
Qed.

(** The shape rules of a concrete name are settled by running the
    checks. *)
Lemma shaped_by_checks (name : string) :
  Str.all_chars name_char name = true ->
  Str.startswith name "-" = false -> Str.endswith_char name hyphen = false ->
  Str.contains "--" name = false ->
  bool_decide (name ∈ reserved_topics) = false ->
  only_name_chars name /\ ~ leading_hyphen name /\ ~ trailing_hyphen name
  /\ ~ consecutive_hyphens name /\ name ∉ reserved_topics.
Proof.
  intros Hcs Hl Ht Hc Hr. split; [exact Hcs|]. split; [|split; [|split]].
  - unfold leading_hyphen. rewrite <- StrFacts.startswith_app, Hl. discriminate.
  - unfold trailing_hyphen.
    rewrite <- (StrFacts.endswith_char_app name hyphen), Ht. discriminate.
  - unfold consecutive_hyphens. rewrite <- StrFacts.contains_app, Hc. discriminate.
  - exact (proj1 (bool_decide_eq_false _) Hr).
Qed.

Lemma topic_name_boundaries_witness :
  is_valid (validate_topic_name "abc" None None) = true
  /\ is_valid (validate_topic_name fifty_chars None None) = true
  /\ is_valid (validate_topic_name "ab" None None) = false
  /\ is_valid (validate_topic_name (fifty_chars ++ "b") None None) = false.
Proof.
  pose proof (proj1 topic_name_boundaries) as H.
  assert (Hs : forall name,
             Str.all_chars name_char name = true ->
             Str.startswith name "-" = false ->
             Str.endswith_char name hyphen = false ->
             Str.contains "--" name = false ->
             bool_decide (name ∈ reserved_topics) = false ->
             let accepted := is_valid (validate_topic_name name None None) in
             (String.length name = 3%nat \/ String.length name = 50%nat
              -> accepted = true)
             /\ (String.length name = 2%nat \/ String.length name = 51%nat
                 -> accepted = false)).
  { intros name H1 H2 H3 H4 H5.
    destruct (shaped_by_checks name H1 H2 H3 H4 H5) as (S1 & S2 & S3 & S4 & S5).
    exact (proj2 (H name None S1 S2 S3 S4 S5)). }
  split; [|split; [|split]].
  - apply (Hs "abc"); try (vm_compute; reflexivity). left. reflexivity.
  - apply (Hs fifty_chars); try (vm_compute; reflexivity). right. reflexivity.
  - apply (Hs "ab"); try (vm_compute; reflexivity). left. reflexivity.
  - apply (Hs (fifty_chars ++ "b")); try (vm_compute; reflexivity). right. reflexivity.
Defined.

(** The order of the permission levels as the specification gives it,
    read < write < admin < owner: [at_most l l'] when [l'] is reached from
    [l] by zero or more steps to the next higher level. *)
Inductive next_level : PermissionLevel -> PermissionLevel -> Prop :=
| read_then_write : next_level READ WRITE
| write_then_admin : next_level WRITE ADMIN
| admin_then_owner : next_level ADMIN OWNER.

Inductive at_most : PermissionLevel -> PermissionLevel -> Prop :=
| at_most_same (l : PermissionLevel) : at_most l l
| at_most_higher (l l' l'' : PermissionLevel) :
    next_level l l' -> at_most l' l'' -> at_most l l''.

(** The ranks the code compares by realise that order. *)
Lemma at_most_rank (required held : PermissionLevel) :
  at_most required held <-> (level_hierarchy required <= level_hierarchy held)%Z.
Proof.
  split.
  - induction 1 as [l | l l' l'' Hstep _ IH]; [lia|].
    destruct Hstep; cbn [level_hierarchy] in *; lia.
  - pose proof (at_most_higher ADMIN OWNER OWNER admin_then_owner (at_most_same OWNER))
      as Hadmin.
    pose proof (at_most_higher WRITE ADMIN OWNER write_then_admin Hadmin) as Hwrite.
    pose proof (at_most_higher WRITE ADMIN ADMIN write_then_admin (at_most_same ADMIN))
      as Hwrite'.
    destruct required, held; cbn [level_hierarchy]; intros Hle; try lia;
      try apply at_most_same; try assumption;
      try (eapply at_most_higher; [apply read_then_write|]; try apply at_most_same;
           assumption).
Qed.

Lemma sufficient_at_most (held required : PermissionLevel) :
  permission_level_sufficient held required = true <-> at_most required held.
Proof.
  unfold permission_level_sufficient. rewrite bool_decide_eq_true. symmetry.
  apply at_most_rank.
Qed.

(** Claim C7. Permission checks are monotonic in the required level.
    With one record per agent on a topic (the shape every sequence of
    grants and revocations produces), an agent whose record carries level
    [L] passes the check of a level [L'] exactly when [L'] is at or below
    [L] in the order read < write < admin < owner ([at_most]); the same
    holds of a check right after a grant of [L]; an agent without a record
    on the topic fails every check; and an agent granted write on ["t1"]
    passes the read and the write check and fails the admin check. *)
Theorem permission_check_monotonic :
  (forall (st : permissions) (t : string) (perms : list TopicPermission)
          (perm : TopicPermission) (required : PermissionLevel),
      unique_agents st -> st !! t = Some perms -> perm ∈ perms ->
      (check_permission st t (agent_id perm) required = true
       <-> at_most required (permission_level perm)))
  /\ (forall (st : permissions) (t agent g : string) (level required : PermissionLevel),
        check_permission (grant_permission st t agent level g).1 t agent required = true
        <-> at_most required level)
  /\ (forall (st : permissions) (t agent : string) (required : PermissionLevel),
        (forall perms perm, st !! t = Some perms -> perm ∈ perms ->
                            agent_id perm <> agent) ->
        check_permission st t agent required = false)
  /\ (let st := (grant_permission ∅ "t1" "A" WRITE "owner").1 in
      check_permission st "t1" "A" READ = true
      /\ check_permission st "t1" "A" WRITE = true
      /\ check_permission st "t1" "A" ADMIN = false).
Proof.
  split; [|split; [|split]].
  - intros st t perms perm required Hu Ht Hin.
    unfold check_permission. rewrite Ht.
    rewrite (first_permission_unique perms perm (Hu t perms Ht) Hin).
    apply sufficient_at_most.
  - intros st t agent g level required. rewrite check_after_grant.
    apply sufficient_at_most.
  - intros st t agent required Hnone. unfold check_permission.
    destruct (st !! t) as [perms|] eqn:Ht; [|reflexivity].
    rewrite first_permission_absent; [reflexivity|].
    intros perm Hin. exact (Hnone perms perm eq_refl Hin).
  - cbv zeta. rewrite !check_after_grant. repeat split.
Qed.

Lemma permission_check_monotonic_witness :
  let st := (grant_permission ∅ "t1" "A" ADMIN "owner").1 in
  check_permission st "t1" "A" WRITE = true
  /\ check_permission st "t1" "B" READ = false.
Proof.
  pose (perm := {| agent_id := "A"; permission_level := ADMIN;
                   granted_by := "owner"; granted_at := "now" |}).
  assert (Hst : (grant_permission ∅ "t1" "A" ADMIN "owner").1 !! "t1" = Some [perm])
    by (vm_compute; reflexivity).
  split.
  - apply (proj1 permission_check_monotonic _ "t1" [perm] perm WRITE).
    + apply grant_permission_unique, empty_unique.
    + exact Hst.
    + apply list_elem_of_here.
    + apply (at_most_higher WRITE ADMIN ADMIN write_then_admin), at_most_same.
  - apply (proj1 (proj2 (proj2 permission_check_monotonic))).
    intros perms p Hp Hin. rewrite Hst in Hp. injection Hp as <-.
    apply list_elem_of_singleton in Hin. subst p. discriminate.
Defined.

(** *** Further properties of the validator *)

Lemma when_nil {A} (b : bool) (x : A) : when b x = [] <-> b = false.
Proof. destruct b; simpl; split; congruence. Qed.

Lemma before_dollar_snoc (body : string) :
  before_dollar (body ++ String newline EmptyString) = body.
Proof.
  induction body as [|c body IH]; [reflexivity|].
  destruct body as [|d body'].
  - reflexivity.
  - change (String c (before_dollar (String d body' ++ String newline EmptyString))
            = String c (String d body')).
    rewrite IH. reflexivity.
Qed.

Lemma before_dollar_cases (s : string) :
  s = before_dollar s \/ s = before_dollar s ++ String newline EmptyString.
Proof.
  induction s as [|c s IH]; [left; reflexivity|].
  destruct s as [|d s'].
  - simpl. case_bool_decide as Hc; [right; subst c; reflexivity | left; reflexivity].
  - change (before_dollar (String c (String d s')))
      with (String c (before_dollar (String d s'))).
    destruct IH as [IH|IH].
    + left. f_equal. exact IH.
    + right.
      change (String c (String d s')
              = String c (before_dollar (String d s') ++ String newline EmptyString)).
      f_equal. exact IH.
Qed.

(** The regular expression of the character check: one or more name
    characters, then possibly one final newline. *)
Definition name_chars_then_newline (s : string) : Prop :=
exists body, body <> EmptyString /\ only_name_chars body
             /\ (s = body \/ s = body ++ String newline EmptyString).

Lemma match_name_chars_iff (s : string) :
  match_name_chars s = true <-> name_chars_then_newline s.
Proof.
  unfold match_name_chars, name_chars_then_newline. rewrite andb_true_iff. split.
  - intros [Hne Hall]. exists (before_dollar s). split.
    + destruct (before_dollar s); [discriminate | discriminate].
    + split; [exact Hall | apply before_dollar_cases].
  - intros (body & Hne & Hall & [-> | ->]).
    + rewrite (before_dollar_name body Hall). split; [|exact Hall].
      destruct body; [congruence | reflexivity].
    + rewrite before_dollar_snoc. split; [|exact Hall].
      destruct body; [congruence | reflexivity].
Qed.

(** Extra X1. A name validated without topic type is accepted exactly
    when it has 3 to 50 characters, its lower-case form is not reserved, it
    consists of lower-case letters, digits and hyphens, optionally followed
    by one final newline, and it has neither consecutive hyphens nor a
    hyphen at its start or end. *)
Theorem validate_topic_name_accepts_exactly :
  forall (name : string) (who : option string),
    is_valid (validate_topic_name name None who) = true <->
    (3 <= String.length name <= 50)%nat
    /\ (Str.lower name ∉ reserved_topics)
    /\ name_chars_then_newline name
    /\ ~ consecutive_hyphens name
    /\ ~ leading_hyphen name
    /\ ~ trailing_hyphen name.
Proof.
  intros name who. rewrite is_valid_errors.
  unfold validate_topic_name; cbn [errors pattern_errors].
  rewrite !app_nil, !when_nil, length_errors_nil, bool_decide_eq_false,
    negb_false_iff, match_name_chars_iff, orb_false_iff.
  unfold consecutive_hyphens, leading_hyphen, trailing_hyphen.
  rewrite <- StrFacts.contains_app, <- StrFacts.startswith_app,
    <- (StrFacts.endswith_char_app name hyphen), !not_true_iff_false.
  tauto.
Qed.

Lemma validate_topic_name_accepts_exactly_witness :
  is_valid (validate_topic_name ("ops-1" ++ String newline EmptyString) None None) = true
  /\ is_valid (validate_topic_name "Ops-1" None None) = false.
Proof.
  split.
  - apply validate_topic_name_accepts_exactly. split; [simpl; lia|].
    split; [apply (proj1 (bool_decide_eq_false _)); vm_compute; reflexivity|].
    split; [exists "ops-1"; split; [discriminate | split; [reflexivity | right; reflexivity]]|].
    split; [unfold consecutive_hyphens; rewrite <- StrFacts.contains_app; discriminate|].
    split; [unfold leading_hyphen; rewrite <- StrFacts.startswith_app; discriminate|].
    unfold trailing_hyphen.
    rewrite <- (StrFacts.endswith_char_app _ hyphen). discriminate.
  - apply not_true_is_false. rewrite validate_topic_name_accepts_exactly.
    intros (_ & _ & Hchars & _). apply match_name_chars_iff in Hchars. discriminate.
Defined.

Lemma update_existing_again (perms perms' : list TopicPermission)
  (agent : string) (level : PermissionLevel) (g : string) :
  update_existing perms agent level g = Some perms' ->
  update_existing perms' agent level g = Some perms'.
Proof.
  revert perms'. induction perms as [|p perms IH]; intros perms' H; simpl in H.
  - discriminate.
  - case_bool_decide as Hp.
    + injection H as <-. simpl. rewrite bool_decide_eq_true_2 by exact Hp. reflexivity.
    + destruct (update_existing perms agent level g) as [l|] eqn:E; [|discriminate].
      injection H as <-. simpl. rewrite bool_decide_eq_false_2 by exact Hp.
      rewrite (IH l eq_refl). reflexivity.
Qed.

Lemma update_existing_appended (perms : list TopicPermission)
  (agent : string) (level : PermissionLevel) (g : string) :
  update_existing perms agent level g = None ->
  let added := {| agent_id := agent; permission_level := level;
                  granted_by := g; granted_at := "now" |} in
  update_existing (perms ++ [added]) agent level g = Some (perms ++ [added])%list.
Proof.
  induction perms as [|p perms IH]; intros H added; simpl in *.
  - rewrite bool_decide_eq_true_2 by reflexivity. reflexivity.
  - case_bool_decide as Hp; [discriminate|].
    destruct (update_existing perms agent level g) eqn:E; [discriminate|].
    unfold added in *. rewrite (IH eq_refl). reflexivity.
Qed.

Lemma update_existing_count (perms perms' : list TopicPermission)
  (agent : string) (level : PermissionLevel) (g : string) :
  update_existing perms agent level g = Some perms' ->
  length (filter (fun perm => agent_id perm = agent) perms')
  = length (filter (fun perm => agent_id perm = agent) perms)
  /\ 1 <= length (filter (fun perm => agent_id perm = agent) perms).
Proof.
  revert perms'. induction perms as [|p perms IH]; intros perms' E; simpl in E.
  - discriminate.
  - case_bool_decide as Hp.
    + injection E as <-. rewrite !filter_cons, !decide_True by exact Hp. simpl. lia.
    + destruct (update_existing perms agent level g) as [l|] eqn:E'; [|discriminate].
      injection E as <-. rewrite !filter_cons, !decide_False by exact Hp.
      apply IH. reflexivity.
Qed.

Lemma fresh_agent_count (perms : list TopicPermission) (agent : string) :
  agent ∉ agent_id <$> perms ->
  filter (fun perm => agent_id perm = agent) perms = [].
Proof.
  induction perms as [|p perms IH]; intros Hfresh; [reflexivity|].
  rewrite fmap_cons, not_elem_of_cons in Hfresh. destruct Hfresh as [Hp Hrest].
  rewrite filter_cons, decide_False by congruence. apply IH, Hrest.
Qed.

(** Extra X2. Granting the same level a second time returns true and
    changes nothing; after a grant the topic holds one record of the agent
    when it held none before, and as many as before otherwise. *)
Theorem grant_permission_idempotent :
  forall (st : permissions) (t agent g : string) (level : PermissionLevel),
    let once := (grant_permission st t agent level g).1 in
    grant_permission once t agent level g = (once, true)
    /\ length (filter (fun perm => agent_id perm = agent) (get_topic_permissions once t))
       = length (filter (fun perm => agent_id perm = agent)
                   (get_topic_permissions st t))
         `max` 1.
Proof.
  intros st t agent g level once. unfold once, grant_permission, get_topic_permissions.
  destruct (update_existing (default [] (st !! t)) agent level g) as [perms'|] eqn:E;
    cbn [fst]; cbv zeta; rewrite !lookup_insert_eq;
    change (default [] (Some ?l)) with l.
  - rewrite (update_existing_again _ _ _ _ _ E), insert_insert_eq.
    split; [reflexivity|].
    destruct (update_existing_count _ _ _ _ _ E) as [-> Hone]. lia.
  - rewrite (update_existing_appended _ _ _ _ E), insert_insert_eq.
    split; [reflexivity|].
    rewrite filter_app, length_app, filter_cons, decide_True by reflexivity.
    rewrite (fresh_agent_count _ _ (update_existing_none_fresh _ _ _ _ E)).
    reflexivity.
Qed.

(** The states of a validator: those built from the empty one by grants
    and revocations. *)
Inductive reachable : permissions -> Prop :=
| reachable_empty : reachable ∅
| reachable_grant st t agent level g :
    reachable st -> reachable (grant_permission st t agent level g).1
| reachable_revoke st t agent by_agent :
    reachable st -> reachable (revoke_permission st t agent by_agent).1.

(** Extra X3. Whatever grants and revocations were made, every topic holds
    at most one permission record per agent. *)
Theorem reachable_one_record_per_agent :
  forall (st : permissions), reachable st ->
    forall t agent,
      length (filter (fun perm => agent_id perm = agent) (get_topic_permissions st t)) <= 1.
Proof.
  intros st Hreach.
  assert (Hu : unique_agents st).
  { induction Hreach.
    - apply empty_unique.
    - apply grant_permission_unique. assumption.
    - apply revoke_permission_unique. assumption. }
  intros t agent. unfold get_topic_permissions.
  destruct (st !! t) as [perms|] eqn:Ht; [|simpl; lia].
  cbn [default from_option]. unfold id.
  specialize (Hu t perms Ht). clear Ht.
  induction perms as [|p perms IH]; [simpl; lia|].
  rewrite fmap_cons in Hu. apply NoDup_cons in Hu as [Hp Hrest].
  rewrite filter_cons. case_decide as Hd; [|apply IH, Hrest].
  subst agent. rewrite (fresh_agent_count perms (agent_id p) Hp). simpl. lia.
Qed.

Lemma reachable_one_record_per_agent_witness :
  let st := (grant_permission (grant_permission ∅ "t1" "A" READ "root").1
               "t1" "A" ADMIN "root").1 in
  length (filter (fun perm => agent_id perm = "A") (get_topic_permissions st "t1")) <= 1.
Proof.
  cbv zeta. apply reachable_one_record_per_agent.
  apply reachable_grant, reachable_grant, reachable_empty.
Defined.

Lemma first_permission_filter_other (perms : list TopicPermission) (agent other : string) :
  other <> agent ->
  first_permission (filter (fun perm => agent_id perm <> agent) perms) other
  = first_permission perms other.
Proof.
  intros Hne. induction perms as [|p perms IH]; [reflexivity|].
  rewrite filter_cons. case_decide as Hd; simpl.
  - rewrite IH. reflexivity.
  - rewrite bool_decide_eq_false_2 by congruence. exact IH.
Qed.

Lemma filter_shorter_iff (perms : list TopicPermission) (agent : string) :
  length (filter (fun perm => agent_id perm <> agent) perms) < length perms
  <-> exists perm, perm ∈ perms /\ agent_id perm = agent.
Proof.
  induction perms as [|p perms IH].
  - simpl. split; [lia | intros (perm & Hin & _); inversion Hin].
  - pose proof (length_filter (fun perm => agent_id perm <> agent) perms) as Hle.
    rewrite filter_cons. case_decide as Hd; simpl.
    + rewrite <- Nat.succ_lt_mono, IH. split.
      * intros (perm & Hin & Ha). exists perm. split; [right; exact Hin | exact Ha].
      * intros (perm & Hin & Ha). apply elem_of_cons in Hin as [-> | Hin];
          [contradiction | eauto].
    + split; [|lia].
      intros _. exists p. split; [left | exact Hd].
Qed.

(** Extra X4. After a revocation the agent fails every check on the topic;
    the result tells whether a record of the agent was there, and when it
    was not, nothing changes. *)
Theorem revoke_permission_effect :
  forall (st : permissions) (t agent by_agent : string),
    let revoked := revoke_permission st t agent by_agent in
    (forall required, check_permission revoked.1 t agent required = false)
    /\ (revoked.2 = true <->
        exists perm, perm ∈ get_topic_permissions st t /\ agent_id perm = agent)
    /\ (revoked.2 = false -> revoked.1 = st).
Proof.
  intros st t agent by_agent revoked. unfold revoked, revoke_permission, get_topic_permissions.
  destruct (st !! t) as [perms|] eqn:Ht; cbn [fst snd default from_option]; unfold id.
  - split; [|split].
    + intros required. unfold check_permission. rewrite lookup_insert_eq.
      rewrite first_permission_absent; [reflexivity|].
      intros perm Hin. apply list_elem_of_filter in Hin as [Hne _]. exact Hne.
    + rewrite bool_decide_eq_true. apply filter_shorter_iff.
    + rewrite bool_decide_eq_false. intros Hsame.
      pose proof (length_filter (fun perm => agent_id perm <> agent) perms) as Hle.
      assert (Hlen : length (filter (fun perm => agent_id perm <> agent) perms)
                     = length perms) by lia.
      assert (Hkeep : filter (fun perm => agent_id perm <> agent) perms = perms).
      { clear -Hlen. induction perms as [|p perms IH]; [reflexivity|].
        pose proof (length_filter (fun perm => agent_id perm <> agent) perms) as Hle.
        rewrite filter_cons in *. case_decide; simpl in Hlen; [|lia].
        f_equal. apply IH. lia. }
      rewrite Hkeep. apply insert_id, Ht.
  - split; [|split].
    + intros required. unfold check_permission. rewrite Ht. reflexivity.
    + split; [discriminate | intros (perm & Hin & _); inversion Hin].
    + reflexivity.
Qed.

Lemma update_existing_other (perms perms' : list TopicPermission)
  (agent other : string) (level : PermissionLevel) (g : string) :
  other <> agent ->
  update_existing perms agent level g = Some perms' ->
  first_permission perms' other = first_permission perms other.
Proof.
  intros Hne. revert perms'. induction perms as [|p perms IH]; intros perms' H; simpl in H.
  - discriminate.
  - case_bool_decide as Hp.
    + injection H as <-. simpl. rewrite !bool_decide_eq_false_2 by congruence. reflexivity.
    + destruct (update_existing perms agent level g) as [l|] eqn:E; [|discriminate].
      injection H as <-. simpl. rewrite (IH l eq_refl). reflexivity.
Qed.

Lemma first_permission_app_other (perms : list TopicPermission) (x : TopicPermission)
  (other : string) :
  agent_id x <> other ->
  first_permission (perms ++ [x]) other = first_permission perms other.
Proof.
  intros Hne. induction perms as [|p perms IH]; simpl.
  - rewrite bool_decide_eq_false_2 by exact Hne. reflexivity.
  - rewrite IH. reflexivity.
Qed.

(** Extra X5. A grant or a revocation for one agent on one topic changes
    no check of another agent or on another topic. *)
Theorem other_checks_unchanged :
  forall (st : permissions) (t agent g : string) (level : PermissionLevel)
         (t' other : string) (required : PermissionLevel),
    t' <> t \/ other <> agent ->
    check_permission (grant_permission st t agent level g).1 t' other required
    = check_permission st t' other required
    /\ check_permission (revoke_permission st t agent g).1 t' other required
       = check_permission st t' other required.
Proof.
  intros st t agent g level t' other required Hother.
  unfold check_permission, grant_permission, revoke_permission.
  destruct (decide (t' = t)) as [->|Htopic].
  - destruct Hother as [Hne|Hne]; [congruence|]. split.
    + destruct (update_existing (default [] (st !! t)) agent level g) as [perms'|] eqn:E;
        cbn [fst]; rewrite lookup_insert_eq.
      * rewrite (update_existing_other _ _ _ _ _ _ Hne E).
        destruct (st !! t); reflexivity.
      * rewrite first_permission_app_other by (cbn [agent_id]; congruence).
        destruct (st !! t); reflexivity.
    + destruct (st !! t) as [perms|] eqn:Ht; cbn [fst]; [|rewrite Ht; reflexivity].
      rewrite lookup_insert_eq, first_permission_filter_other by exact Hne. reflexivity.
  - split.
    + destruct (update_existing (default [] (st !! t)) agent level g);
        cbn [fst]; rewrite lookup_insert_ne by congruence; reflexivity.
    + destruct (st !! t); cbn [fst]; [rewrite lookup_insert_ne by congruence|]; reflexivity.
Qed.

Lemma other_checks_unchanged_witness :
  let st := (grant_permission ∅ "t1" "A" WRITE "root").1 in
  check_permission (grant_permission st "t1" "B" OWNER "root").1 "t1" "A" ADMIN = false
  /\ check_permission (revoke_permission st "t1" "B" "root").1 "t1" "A" WRITE = true.
Proof.
  cbv zeta.
  destruct (other_checks_unchanged (grant_permission ∅ "t1" "A" WRITE "root").1
              "t1" "B" "root" OWNER "t1" "A" ADMIN) as [Hgrant _];
    [right; discriminate|].
  destruct (other_checks_unchanged (grant_permission ∅ "t1" "A" WRITE "root").1
              "t1" "B" "root" OWNER "t1" "A" WRITE) as [_ Hrevoke];
    [right; discriminate|].
  split; [rewrite Hgrant | rewrite Hrevoke]; reflexivity.
Defined.

Lemma revoke_permission_effect_witness :
  let st := (grant_permission ∅ "t1" "A" OWNER "root").1 in
  (revoke_permission st "t1" "B" "root").1 = st
  /\ check_permission (revoke_permission st "t1" "A" "root").1 "t1" "A" READ = false.
Proof.
  cbv zeta.
  pose proof (revoke_permission_effect (grant_permission ∅ "t1" "A" OWNER "root").1
                "t1" "B" "root") as (_ & _ & Hsame).
  pose proof (revoke_permission_effect (grant_permission ∅ "t1" "A" OWNER "root").1
                "t1" "A" "root") as (Hcheck & _ & _).
  split; [apply Hsame; reflexivity | apply Hcheck].
Defined.

Lemma last_level_from (perms : list TopicPermission) (agent : string)
  (found : option PermissionLevel) :
  agent ∉ agent_id <$> perms ->
  foldl (fun found perm =>
           if bool_decide (agent_id perm = agent) then Some (permission_level perm)
           else found) found perms = found.
Proof.
  revert found. induction perms as [|p perms IH]; intros found Hfresh; [reflexivity|].
  rewrite fmap_cons, not_elem_of_cons in Hfresh. destruct Hfresh as [Hp Hrest].
  simpl. rewrite bool_decide_eq_false_2 by congruence. apply IH, Hrest.
Qed.

Lemma last_level_unique (perms : list TopicPermission) (agent : string) :
  NoDup (agent_id <$> perms) ->
  last_level perms agent = permission_level <$> first_permission perms agent.
Proof.
  induction perms as [|p perms IH]; intros Hnd; [reflexivity|].
  rewrite fmap_cons in Hnd. apply NoDup_cons in Hnd as [Hp Hrest].
  unfold last_level in *. simpl. case_bool_decide as Hd.
  - subst agent. rewrite last_level_from by exact Hp. reflexivity.
  - apply IH, Hrest.
Qed.

(** Extra X6. The two views of an agent's rights agree: with one record
    per agent and topic, a check succeeds exactly when the level listed by
    [get_agent_permissions] for the topic is the required one or a higher
    one in the order read < write < admin < owner ([at_most]). *)
Theorem agent_permissions_agree_with_checks :
  forall (st : permissions) (t agent : string) (required : PermissionLevel),
    unique_agents st ->
    (check_permission st t agent required = true <->
     exists level, get_agent_permissions st agent !! t = Some level
                   /\ at_most required level).
Proof.
  intros st t agent required Hu.
  unfold check_permission, get_agent_permissions. rewrite lookup_omap.
  destruct (st !! t) as [perms|] eqn:Ht; simpl.
  - rewrite (last_level_unique perms agent (Hu t perms Ht)).
    destruct (first_permission perms agent) as [perm|]; simpl.
    + rewrite sufficient_at_most. split.
      * intros Hle. eauto.
      * intros (level & [= <-] & Hle). exact Hle.
    + split; [discriminate | intros (level & Hnone & _); discriminate].
  - split; [discriminate | intros (level & Hnone & _); discriminate].
Qed.

Lemma agent_permissions_agree_with_checks_witness :
  let st := (grant_permission ∅ "t1" "A" WRITE "root").1 in
  get_agent_permissions st "A" !! "t1" = Some WRITE
  /\ check_permission st "t1" "A" READ = true.
Proof.
  cbv zeta. split; [reflexivity|].
  apply agent_permissions_agree_with_checks.
  - apply grant_permission_unique, empty_unique.
  - exists WRITE. split; [reflexivity|].
    apply (at_most_higher READ WRITE WRITE read_then_write), at_most_same.
Defined.

(** *** Cleaned names and suggestions *)

Lemma all_chars_app (p : ascii -> bool) (a b : string) :
  Str.all_chars p (a ++ b) = Str.all_chars p a && Str.all_chars p b.
Proof.
  induction a as [|c a IH]; [reflexivity|]. simpl. rewrite IH, andb_assoc. reflexivity.
Qed.

Lemma starts_hyphen_cons (c : ascii) (s : string) :
  Str.startswith (String c s) "-" = bool_decide (c = hyphen).
Proof.
  simpl. rewrite andb_true_r. apply bool_decide_ext. unfold hyphen. split; congruence.
Qed.

Lemma contains_hyphens_cons (c : ascii) (s : string) :
  Str.contains "--" (String c s)
  = (bool_decide (c = hyphen) && Str.startswith s "-") || Str.contains "--" s.
Proof.
  simpl. f_equal. f_equal.
  apply bool_decide_ext. unfold hyphen. split; congruence.
Qed.

Lemma normalised_chars (s : string) :
  Str.all_chars name_char
    (Str.map_chars (fun c => if name_char c then c else hyphen) s) = true.
Proof.
  induction s as [|c s IH]; [reflexivity|]. simpl. rewrite IH, andb_true_r.
  destruct (name_char c) eqn:Hc; [exact Hc | reflexivity].
Qed.

Lemma collapse_chars (p : ascii -> bool) (s : string) :
  Str.all_chars p s = true -> Str.all_chars p (collapse_hyphens s) = true.
Proof.
  induction s as [|c s IH]; [reflexivity|]. intros H.
  cbn [Str.all_chars] in H. apply andb_true_iff in H as [Hc Hs].
  cbn [collapse_hyphens].
  destruct (bool_decide (c = hyphen) && Str.startswith s "-"); [apply IH, Hs|].
  cbn [Str.all_chars]. rewrite Hc, (IH Hs). reflexivity.
Qed.

Lemma collapse_start (s : string) :
  Str.startswith (collapse_hyphens s) "-" = Str.startswith s "-".
Proof.
  induction s as [|c s IH]; [reflexivity|].
  cbn [collapse_hyphens]. rewrite starts_hyphen_cons.
  destruct (bool_decide (c = hyphen)) eqn:Hc; cbn [andb].
  - destruct (Str.startswith s "-") eqn:Hs; [exact IH|].
    rewrite starts_hyphen_cons. exact Hc.
  - rewrite starts_hyphen_cons. exact Hc.
Qed.

Lemma collapse_no_run (s : string) : Str.contains "--" (collapse_hyphens s) = false.
Proof.
  induction s as [|c s IH]; [reflexivity|].
  cbn [collapse_hyphens].
  destruct (bool_decide (c = hyphen) && Str.startswith s "-") eqn:Hrun; [exact IH|].
  rewrite contains_hyphens_cons, collapse_start, Hrun, IH. reflexivity.
Qed.

Lemma lstrip_chars (p : ascii -> bool) (s : string) :
  Str.all_chars p s = true -> Str.all_chars p (lstrip_hyphens s) = true.
Proof.
  induction s as [|c s IH]; [reflexivity|]. intros H. cbn [lstrip_hyphens].
  destruct (bool_decide (c = hyphen)); [|exact H].
  cbn [Str.all_chars] in H. apply andb_true_iff in H as [_ H]. apply IH, H.
Qed.

Lemma lstrip_no_run (s : string) :
  Str.contains "--" s = false -> Str.contains "--" (lstrip_hyphens s) = false.
Proof.
  induction s as [|c s IH]; [reflexivity|]. intros H. cbn [lstrip_hyphens].
  destruct (bool_decide (c = hyphen)); [|exact H].
  rewrite contains_hyphens_cons in H. apply orb_false_iff in H as [_ H]. apply IH, H.
Qed.

Lemma lstrip_start (s : string) : Str.startswith (lstrip_hyphens s) "-" = false.
Proof.
  induction s as [|c s IH]; [reflexivity|]. cbn [lstrip_hyphens].
  destruct (bool_decide (c = hyphen)) eqn:Hc; [exact IH|].
  rewrite starts_hyphen_cons. exact Hc.
Qed.

Lemma rstrip_chars (p : ascii -> bool) (s : string) :
  Str.all_chars p s = true -> Str.all_chars p (rstrip_hyphens s) = true.
Proof.
  induction s as [|c s IH]; [reflexivity|]. intros H.
  cbn [Str.all_chars] in H. apply andb_true_iff in H as [Hc Hs].
  cbn [rstrip_hyphens].
  destruct (bool_decide (c = hyphen) && Str.is_empty (rstrip_hyphens s)); [reflexivity|].
  cbn [Str.all_chars]. rewrite Hc, (IH Hs). reflexivity.
Qed.

Lemma rstrip_start (s : string) :
  Str.startswith s "-" = false -> Str.startswith (rstrip_hyphens s) "-" = false.
Proof.
  destruct s as [|c s]; [reflexivity|]. rewrite starts_hyphen_cons. intros Hc.
  cbn [rstrip_hyphens]. rewrite Hc. cbn [andb]. rewrite starts_hyphen_cons. exact Hc.
Qed.

Lemma rstrip_start_inv (s : string) :
  Str.startswith (rstrip_hyphens s) "-" = true -> Str.startswith s "-" = true.
Proof.
  intros H. destruct (Str.startswith s "-") eqn:Hs; [reflexivity|].
  rewrite (rstrip_start s Hs) in H. discriminate.
Qed.

Lemma rstrip_no_run (s : string) :
  Str.contains "--" s = false -> Str.contains "--" (rstrip_hyphens s) = false.
Proof.
  induction s as [|c s IH]; [reflexivity|]. rewrite contains_hyphens_cons.
  intros H. apply orb_false_iff in H as [Hrun Hs]. cbn [rstrip_hyphens].
  destruct (bool_decide (c = hyphen) && Str.is_empty (rstrip_hyphens s)); [reflexivity|].
  rewrite contains_hyphens_cons, (IH Hs), orb_false_r.
  destruct (bool_decide (c = hyphen)); [|reflexivity]. cbn [andb] in *.
  destruct (Str.startswith (rstrip_hyphens s) "-") eqn:Hstart; [|reflexivity].
  rewrite (rstrip_start_inv s Hstart) in Hrun. discriminate.
Qed.

Lemma rstrip_end (s : string) : Str.endswith_char (rstrip_hyphens s) hyphen = false.
Proof.
  induction s as [|c s IH]; [reflexivity|]. cbn [rstrip_hyphens].
  destruct (rstrip_hyphens s) as [|d r] eqn:Hr.
  - destruct (bool_decide (c = hyphen)) eqn:Hc; [reflexivity|]. simpl. exact Hc.
  - rewrite andb_false_r. exact IH.
Qed.

(** The cleaned form of any text is made of name characters and has no
    hyphen at an end and no two hyphens in a row. *)
Lemma cleaned_name_shape (s : string) :
  Str.all_chars name_char (cleaned_name s) = true
  /\ Str.startswith (cleaned_name s) "-" = false
  /\ Str.endswith_char (cleaned_name s) hyphen = false
  /\ Str.contains "--" (cleaned_name s) = false.
Proof.
  unfold cleaned_name. split; [|split; [|split]].
  - apply rstrip_chars, lstrip_chars, collapse_chars, normalised_chars.
  - apply rstrip_start, lstrip_start.
  - apply rstrip_end.
  - apply rstrip_no_run, lstrip_no_run, collapse_no_run.
Qed.

Lemma suggestion_is_cleaned (name : string) (t : option TopicType) (who : option string)
  (s : string) :
  s ∈ suggestions (validate_topic_name name t who) ->
  s = cleaned_name name /\ (3 <= String.length s)%nat.
Proof.
  unfold validate_topic_name; cbn [suggestions].
  match goal with |- context [match ?e with [] => _ | _ :: _ => _ end] => destruct e end.
  - intros H. inversion H.
  - destruct (negb (Str.is_empty (cleaned_name name))
              && (min_topic_length <=? String.length (cleaned_name name))%nat) eqn:E.
    + intros H. apply list_elem_of_singleton in H. subst s. split; [reflexivity|].
      apply andb_true_iff in E as [_ E]. apply Nat.leb_le in E. exact E.
    + intros H. inversion H.
Qed.

(** Extra X7. A name suggested by the validation consists of name
    characters only, has no hyphen at an end and no consecutive hyphens,
    and at least three characters; validated in turn it is accepted unless
    it is longer than 50 characters or reserved. *)
Theorem suggestions_are_well_shaped :
  forall (name : string) (t : option TopicType) (who who' : option string) (s : string),
    s ∈ suggestions (validate_topic_name name t who) ->
    only_name_chars s /\ ~ leading_hyphen s /\ ~ trailing_hyphen s
    /\ ~ consecutive_hyphens s /\ (3 <= String.length s)%nat
    /\ (is_valid (validate_topic_name s None who') = true <->
        (String.length s <= 50)%nat /\ s ∉ reserved_topics).
Proof.
  intros name t who who' s Hin.
  destruct (suggestion_is_cleaned name t who s Hin) as [-> Hlen].
  destruct (cleaned_name_shape name) as (Hchars & Hstart & Hend & Hrun).
  assert (Hlead : ~ leading_hyphen (cleaned_name name)).
  { unfold leading_hyphen. rewrite <- StrFacts.startswith_app, Hstart. discriminate. }
  assert (Htrail : ~ trailing_hyphen (cleaned_name name)).
  { unfold trailing_hyphen.
    rewrite <- (StrFacts.endswith_char_app _ hyphen), Hend. discriminate. }
  assert (Hcons : ~ consecutive_hyphens (cleaned_name name)).
  { unfold consecutive_hyphens. rewrite <- StrFacts.contains_app, Hrun. discriminate. }
  split; [exact Hchars|]. split; [exact Hlead|]. split; [exact Htrail|].
  split; [exact Hcons|]. split; [exact Hlen|].
  destruct (decide (cleaned_name name ∈ reserved_topics)) as [Hres|Hres].
  - split; [|tauto]. intros Hvalid. exfalso.
    apply is_valid_errors in Hvalid. revert Hvalid.
    unfold validate_topic_name; cbn [errors].
    rewrite (StrFacts.all_chars_lower_id name_char _ name_char_lower Hchars).
    rewrite (bool_decide_eq_true_2 _ Hres). cbn [when].
    intros H. apply app_nil in H as [_ H]. discriminate.
  - rewrite is_valid_errors, errors_of_shaped_name, length_errors_nil by assumption.
    split; [intros [_ H]; tauto | intros [H _]; lia].
Qed.

Lemma suggestions_are_well_shaped_witness :
  suggestions (validate_topic_name "My  Topic!" None None) = ["my-topic"]
  /\ is_valid (validate_topic_name "my-topic" None None) = true.
Proof.
  assert (Hs : suggestions (validate_topic_name "My  Topic!" None None) = ["my-topic"])
    by (vm_compute; reflexivity).
  split; [exact Hs|].
  assert (Hin : "my-topic" ∈ suggestions (validate_topic_name "My  Topic!" None None))
    by (rewrite Hs; left).
  destruct (suggestions_are_well_shaped "My  Topic!" None None None "my-topic" Hin)
    as (_ & _ & _ & _ & _ & Hvalid).
  apply Hvalid. split; [simpl; lia|].
  apply (proj1 (bool_decide_eq_false _)). vm_compute. reflexivity.
Defined.

Lemma substring_prefix_chars (p : ascii -> bool) (m : nat) (s : string) :
  Str.all_chars p s = true ->
  Str.all_chars p (String.substring 0 m s) = true
  /\ (String.length (String.substring 0 m s) <= m)%nat.
Proof.
  revert s. induction m as [|m IH]; intros s H.
  - destruct s; simpl; split; (reflexivity || lia).
  - destruct s as [|c s]; [simpl; split; [reflexivity | lia]|].
    cbn [Str.all_chars] in H. apply andb_true_iff in H as [Hc Hs].
    destruct (IH s Hs) as [Hall Hlen]. simpl. rewrite Hc, Hall. split; [reflexivity | lia].
Qed.

Lemma rstrip_length (s : string) :
  (String.length (rstrip_hyphens s) <= String.length s)%nat.
Proof.
  induction s as [|c s IH]; [simpl; lia|]. cbn [rstrip_hyphens].
  destruct (bool_decide (c = hyphen) && Str.is_empty (rstrip_hyphens s)); simpl; lia.
Qed.

Lemma with_type_prefix_chars (p s : string) :
  Str.all_chars name_char p = true -> Str.all_chars name_char s = true ->
  Str.all_chars name_char (with_type_prefix p s) = true.
Proof.
  intros Hp Hs. unfold with_type_prefix. destruct (Str.startswith s p); [exact Hs|].
  rewrite all_chars_app, Hp, Hs. reflexivity.
Qed.

Lemma truncated_shape (x : string) :
  Str.all_chars name_char x = true ->
  let r := if (max_topic_length <? String.length x)%nat
           then rstrip_hyphens (String.substring 0 max_topic_length x) else x in
  Str.all_chars name_char r = true /\ (String.length r <= 50)%nat.
Proof.
  intros Hx r. unfold r.
  destruct (substring_prefix_chars name_char max_topic_length x Hx) as [Hall Hlen].
  pose proof (rstrip_length (String.substring 0 max_topic_length x)) as Hr.
  destruct (Nat.ltb_spec max_topic_length (String.length x)).
  - split; [apply rstrip_chars, Hall|]. unfold max_topic_length in *. lia.
  - split; [exact Hx|]. unfold max_topic_length in *. lia.
Qed.

(** Extra X8. A suggested topic name always consists of name characters
    only and has at most 50 characters; for a general topic whose cleaned
    base name has 3 to 50 characters and is not reserved, the suggestion is
    that cleaned name and the validation accepts it. *)
Theorem suggest_topic_name_shape :
  forall (base_name : string) (topic_type : TopicType) (who : option string),
    let suggested := suggest_topic_name base_name topic_type in
    only_name_chars suggested
    /\ (String.length suggested <= 50)%nat
    /\ (topic_type = GENERAL ->
        (3 <= String.length (cleaned_name base_name) <= 50)%nat ->
        cleaned_name base_name ∉ reserved_topics ->
        suggested = cleaned_name base_name
        /\ is_valid (validate_topic_name suggested None who) = true).
Proof.
  intros base_name topic_type who suggested.
  destruct (cleaned_name_shape base_name) as (Hchars & Hstart & Hend & Hrun).
  assert (Hpadded : Str.all_chars name_char
                      (if (String.length (cleaned_name base_name) <? min_topic_length)%nat
                       then cleaned_name base_name ++ "-topic"
                       else cleaned_name base_name) = true).
  { destruct (String.length (cleaned_name base_name) <? min_topic_length)%nat;
      [|exact Hchars]. rewrite all_chars_app, Hchars. reflexivity. }
  assert (Hshape : only_name_chars suggested /\ (String.length suggested <= 50)%nat).
  { unfold suggested, suggest_topic_name, only_name_chars. cbv zeta.
    apply truncated_shape.
    destruct topic_type; try exact Hpadded;
      apply with_type_prefix_chars; (reflexivity || exact Hpadded). }
  split; [apply Hshape|]. split; [apply Hshape|].
  - intros -> Hlen Hres.
    assert (Hsame : suggested = cleaned_name base_name).
    { unfold suggested, suggest_topic_name, min_topic_length, max_topic_length. cbv zeta.
      destruct (Nat.ltb_spec (String.length (cleaned_name base_name)) 3); [lia|].
      destruct (Nat.ltb_spec 50 (String.length (cleaned_name base_name))); [lia|].
      reflexivity. }
    split; [exact Hsame|]. rewrite Hsame.
    apply is_valid_errors. rewrite errors_of_shaped_name, length_errors_nil.
    + exact Hlen.
    + exact Hchars.
    + unfold leading_hyphen. rewrite <- StrFacts.startswith_app, Hstart. discriminate.
    + unfold trailing_hyphen.
      rewrite <- (StrFacts.endswith_char_app _ hyphen), Hend. discriminate.
    + unfold consecutive_hyphens. rewrite <- StrFacts.contains_app, Hrun. discriminate.
    + exact Hres.
Qed.

Lemma suggest_topic_name_shape_witness :
  suggest_topic_name "Build Status" GENERAL = "build-status"
  /\ is_valid (validate_topic_name (suggest_topic_name "Build Status" GENERAL)
                 None None) = true.
Proof.
  destruct (suggest_topic_name_shape "Build Status" GENERAL None) as (_ & _ & H).
  destruct H as [Hsame Hvalid].
  - reflexivity.
  - replace (cleaned_name "Build Status") with "build-status"
      by (vm_compute; reflexivity).
    simpl. lia.
  - apply (proj1 (bool_decide_eq_false _)). vm_compute. reflexivity.
  - split; [rewrite Hsame; vm_compute; reflexivity | exact Hvalid].
Defined.

Lemma drop_prefix_app (p s rest : string) :
  drop_prefix p s = Some rest -> s = p ++ rest.
Proof.
  revert s. induction p as [|a p IH]; intros s H; simpl in H.
  - injection H as ->. reflexivity.
  - destruct s as [|b s]; [discriminate|]. case_bool_decide as Hab; [|discriminate].
    subst b. change (String a s = String a (p ++ rest)). f_equal. apply IH, H.
Qed.

Lemma match_prefixed_app (p s : string) :
  match_prefixed p s = true -> exists rest, rest <> EmptyString /\ s = p ++ rest.
Proof.
  unfold match_prefixed. destruct (drop_prefix p s) as [rest|] eqn:E; [|discriminate].
  intros Hrest. exists rest. split; [|apply drop_prefix_app, E].
  intros ->. discriminate.
Qed.

(** What the pattern of a topic type says about a name. *)
Definition fits_type (t : TopicType) (name : string) : Prop :=
match t with
| TEAM => exists rest, rest <> EmptyString /\ name = "team-" ++ rest
| PROJECT => exists rest, rest <> EmptyString /\ name = "project-" ++ rest
| PRIVATE => exists rest, rest <> EmptyString /\ name = "private-" ++ rest
| RANDOM => name = "random" \/ name = "random" ++ String newline EmptyString
| GENERAL | SYSTEM => True
end.

Lemma typed_name_fits (name : string) (t : TopicType) (who : option string) :
  is_valid (validate_topic_name name (Some t) who) = true ->
  is_valid (validate_topic_name name None who) = true /\ fits_type t name.
Proof.
  rewrite !is_valid_errors. unfold validate_topic_name; cbn [errors pattern_errors].
  rewrite !app_nil. intros (H1 & H2 & H3 & H4 & H5 & H6).
  split; [tauto|].
  destruct t; cbn [topic_patterns] in H6; try exact I;
    apply when_nil, negb_false_iff in H6.
  - apply match_prefixed_app, H6.
  - apply match_prefixed_app, H6.
  - apply match_prefixed_app, H6.
  - apply bool_decide_eq_true in H6. unfold fits_type.
    destruct (before_dollar_cases name) as [Hn|Hn]; rewrite H6 in Hn; [left | right];
      exact Hn.
Qed.

(** Extra X9. A topic accepted for creation has a name that the
    validation accepts and that fits the pattern of its type, and no
    permission record exists for it yet; a private topic is accepted only
    with the private type, hence with a name that starts with "private-".
    Once a permission was granted on a topic, its creation is rejected. *)
Theorem accepted_creation :
  forall (st : permissions) (name : string) (t : TopicType) (who : string)
         (is_private : bool),
    ((validate_topic_creation st name t who is_private).1 = true ->
     st !! name = None
     /\ is_valid (validate_topic_name name None (Some who)) = true
     /\ fits_type t name
     /\ (is_private = true ->
         t = PRIVATE /\ exists rest, rest <> EmptyString /\ name = "private-" ++ rest))
    /\ (forall agent level g,
          (validate_topic_creation (grant_permission st name agent level g).1
             name t who is_private).1 = false).
Proof.
  intros st name t who is_private. split.
  - unfold validate_topic_creation; cbn [fst]. rewrite bool_decide_eq_true.
    intros Hlen. apply length_zero_iff_nil in Hlen.
    apply app_nil in Hlen as [Hname Hlen]. apply app_nil in Hlen as [Hexists Hprivate].
    apply when_nil in Hexists, Hprivate.
    apply bool_decide_eq_false in Hexists.
    destruct (is_valid (validate_topic_name name (Some t) (Some who))) eqn:Hvalid.
    + destruct (typed_name_fits name t (Some who) Hvalid) as [Hplain Hfits].
      split; [destruct (st !! name); [exfalso; apply Hexists; eauto | reflexivity]|].
      split; [exact Hplain|]. split; [exact Hfits|].
      intros ->. cbn [andb] in Hprivate. apply negb_false_iff in Hprivate.
      destruct t; try discriminate. split; [reflexivity | exact Hfits].
    + apply fmap_nil_inv in Hname. apply is_valid_errors in Hname. congruence.
  - intros agent level g. apply bool_decide_eq_false. intros Hlen.
    apply length_zero_iff_nil in Hlen.
    apply app_nil in Hlen as [_ Hlen]. apply app_nil in Hlen as [Hexists _].
    apply when_nil, bool_decide_eq_false in Hexists. apply Hexists.
    unfold grant_permission.
    destruct (update_existing (default [] (st !! name)) agent level g); cbn [fst];
      rewrite lookup_insert_eq; eauto.
Qed.

Lemma accepted_creation_witness :
  (validate_topic_creation ∅ "private-notes" PRIVATE "agent-1" true).1 = true
  /\ exists rest, "private-notes" = "private-" ++ rest.
Proof.
  assert (H : (validate_topic_creation ∅ "private-notes" PRIVATE "agent-1" true).1 = true)
    by (vm_compute; reflexivity).
  split; [exact H|].
  destruct (proj1 (accepted_creation ∅ "private-notes" PRIVATE "agent-1" true) H)
    as (_ & _ & _ & Hprivate).
  destruct (Hprivate eq_refl) as (_ & rest & _ & Hrest). exists rest. exact Hrest.
Defined.

End TopicValidatorFacts.

(** ** Routing rules *)

(** A regular-expression engine for patterns without metacharacters: the
    pattern is searched as text, ignoring case. *)
Definition literal_search (pattern text : string) : outcome bool :=
Returns (Str.contains (Str.lower pattern) (Str.lower text)).

(** The same engine with one malformed pattern: ["("] opens a group that
    is never closed, and [re.search] raises [re.error] on it. *)
Definition unterminated_subpattern : exn :=
Exn "error" "missing ), unterminated subpattern at position 0".

Definition checked_search (pattern text : string) : outcome bool :=
if bool_decide (pattern = "(") then Raises unterminated_subpattern
else literal_search pattern text.

Module MessageRouterFacts.
Import Message MessageRouter.

Section Routing.
Variable re_search : string -> string -> outcome bool.

(** An active rule that matches the message. *)
Definition fires (message : AgentMessage) (rule : RoutingRule) : Prop :=
active rule = true /\ evaluate_rule re_search message rule = true.

Lemma route_loop_targets (message : AgentMessage) (rules : list RoutingRule)
  (targets : gset string) (matched : list RoutingRule) (t : string) :
  t ∈ (route_loop re_search message rules targets matched).1 <->
  t ∈ targets \/ exists rule, rule ∈ rules /\ fires message rule /\ t ∈ target_topics rule.
Proof.
  revert targets matched.
  induction rules as [|rule rules IH]; intros targets matched; simpl.
  - split; [auto | intros [H | (rule & Hin & _)]; [exact H | inversion Hin]].
  - destruct (active rule) eqn:Hact; simpl.
    + destruct (evaluate_rule re_search message rule) eqn:Hev; rewrite IH.
      * rewrite elem_of_union, elem_of_list_to_set. split.
        -- intros [[H | H] | (r & Hin & Hf & Ht)].
           ++ left. exact H.
           ++ right. exists rule. split; [left | split; [split; assumption | exact H]].
           ++ right. exists r. split; [right; exact Hin | auto].
        -- intros [H | (r & Hin & Hf & Ht)]; [left; left; exact H|].
           apply elem_of_cons in Hin as [-> | Hin].
           ++ left. right. exact Ht.
           ++ right. exists r. auto.
      * split.
        -- intros [H | (r & Hin & Hf & Ht)]; [left; exact H|].
           right. exists r. split; [right; exact Hin | auto].
        -- intros [H | (r & Hin & Hf & Ht)]; [left; exact H|].
           apply elem_of_cons in Hin as [-> | Hin].
           ++ destruct Hf as [_ Hf]. congruence.
           ++ right. exists r. auto.
    + rewrite IH. split.
      * intros [H | (r & Hin & Hf & Ht)]; [left; exact H|].
        right. exists r. split; [right; exact Hin | auto].
      * intros [H | (r & Hin & Hf & Ht)]; [left; exact H|].
        apply elem_of_cons in Hin as [-> | Hin].
        -- destruct Hf as [Hf _]. congruence.
        -- right. exists r. auto.
Qed.

Lemma route_message_result (router : MessageRouter) (message : AgentMessage) :
  (route_message re_search router message).2
  = elements (route_loop re_search message (routing_rules router) ∅ []).1.
Proof.
  unfold route_message.
  destruct (route_loop re_search message (routing_rules router) ∅ []) as [targets matched].
  reflexivity.
Qed.

End Routing.

(** A router with one rule that forwards urgent messages to the topics
    ["ops"] and ["alerts"], and an urgent message published on ["ops"]. *)
Definition ops_rule : RoutingRule :=
{| rule_id := "urgent-to-ops"; rule_type := CONTENT_KEYWORD;
   condition := CondStr "urgent"; target_topics := ["ops"; "alerts"];
   priority := 10; active := true; description := None |}.

Definition ops_router : MessageRouter :=
{| routing_rules := [ops_rule]; route_history := [] |}.

Definition ops_message : AgentMessage :=
{| id := 1; timestamp := 0%Z; sender_id := "agent-1"; sender_name := "Agent 1";
   sender_role := "operator"; message_type := TEXT; Message.priority := NORMAL;
   content := "This is URGENT"; topic := "ops"; reply_to := None;
   metadata := ∅; tags := []; correlation_id := None; requires_response := false;
   response_timeout := None; ttl := None; retry_count := 0; max_retries := 3 |}.

(** The claim of C1 as the specification words it: the routed targets of
    a message never include the message's own topic. *)
Definition never_routes_to_own_topic : Prop :=
forall (re_search : string -> string -> outcome bool)
       (router : MessageRouter) (message : AgentMessage),
  topic message ∉ (route_message re_search router message).2.

(** Claim C1, counterexample. The rule of [ops_router] lists ["ops"] as a
    target, so routing a matching message published on ["ops"] returns
    ["ops"] among the targets. *)
Lemma route_message_includes_own_topic :
  topic ops_message ∈ (route_message literal_search ops_router ops_message).2
  /\ ~ never_routes_to_own_topic.
Proof.
  assert (H : topic ops_message
              ∈ (route_message literal_search ops_router ops_message).2).
  { rewrite route_message_result, elem_of_elements, route_loop_targets.
    right. exists ops_rule. split; [left|]. split; [split; reflexivity|].
    left. }
  split; [exact H|]. intros Hnever. exact (Hnever _ _ _ H).
Qed.

(** Claim C1, amended. The routed targets are exactly the target topics
    of the active rules that match the message, each listed once; the
    message's own topic is among them exactly when such a rule lists it.
    The own topic is left out afterwards, by the fan-out of the sending
    agent. *)
Theorem route_message_targets :
  forall (re_search : string -> string -> outcome bool)
         (router : MessageRouter) (message : AgentMessage),
    let routed := (route_message re_search router message).2 in
    (forall t, t ∈ routed <->
               exists rule, rule ∈ routing_rules router
                            /\ fires re_search message rule
                            /\ t ∈ target_topics rule)
    /\ NoDup routed
    /\ topic message ∉ EnhancedAgent.fan_out_targets (topic message) routed.
Proof.
  intros re_search router message routed. unfold routed.
  rewrite route_message_result. split; [|split].
  - intros t. rewrite elem_of_elements, route_loop_targets. split.
    + intros [H | H]; [|exact H]. apply not_elem_of_empty in H. contradiction.
    + intros H. right. exact H.
  - apply NoDup_elements.
  - unfold EnhancedAgent.fan_out_targets. intros Hin.
    apply list_elem_of_filter in Hin as [Hne _]. apply Hne. reflexivity.
Qed.

(** *** Further properties of the router *)

(** Rules in the order of evaluation: priorities never increase. *)
Definition by_priority (rules : list RoutingRule) : Prop :=
StronglySorted (fun a b => (priority b <= priority a)%Z) rules.

Lemma insert_by_priority_perm (rule : RoutingRule) (rules : list RoutingRule) :
  insert_by_priority rule rules ≡ₚ rule :: rules.
Proof.
  induction rules as [|r rules IH]; [reflexivity|]. simpl.
  destruct (priority rule <? priority r)%Z; [|reflexivity].
  rewrite IH. apply Permutation_swap.
Qed.

Lemma sort_by_priority_perm (rules : list RoutingRule) :
  sort_by_priority rules ≡ₚ rules.
Proof.
  induction rules as [|r rules IH]; [reflexivity|].
  unfold sort_by_priority in *. simpl. rewrite insert_by_priority_perm, IH. reflexivity.
Qed.

Lemma insert_by_priority_sorted (rule : RoutingRule) (rules : list RoutingRule) :
  by_priority rules -> by_priority (insert_by_priority rule rules).
Proof.
  unfold by_priority. induction rules as [|r rules IH]; intros Hs; simpl.
  - repeat constructor.
  - apply StronglySorted_inv in Hs as [Hrest Hall].
    destruct (Z.ltb_spec (priority rule) (priority r)).
    + constructor; [apply IH, Hrest|].
      rewrite insert_by_priority_perm. constructor; [lia | exact Hall].
    + constructor; [constructor; assumption|].
      constructor; [exact H|]. eapply Forall_impl; [exact Hall|].
      intros x Hx. simpl in Hx. lia.
Qed.

Lemma sort_by_priority_sorted (rules : list RoutingRule) :
  by_priority (sort_by_priority rules).
Proof.
  induction rules as [|r rules IH]; [constructor|].
  apply insert_by_priority_sorted, IH.
Qed.

Lemma insert_by_priority_level (rule : RoutingRule) (rules : list RoutingRule) (k : Z) :
  filter (fun r => priority r = k) (insert_by_priority rule rules)
  = filter (fun r => priority r = k) (rule :: rules).
Proof.
  induction rules as [|r rules IH]; [reflexivity|]. simpl.
  destruct (Z.ltb_spec (priority rule) (priority r)); [|reflexivity].
  rewrite (filter_cons _ r), IH, !(filter_cons _ rule), !(filter_cons _ r).
  repeat case_decide; try reflexivity. lia.
Qed.

Lemma sort_by_priority_level (rules : list RoutingRule) (k : Z) :
  filter (fun r => priority r = k) (sort_by_priority rules)
  = filter (fun r => priority r = k) rules.
Proof.
  induction rules as [|r rules IH]; [reflexivity|].
  change (sort_by_priority (r :: rules))
    with (insert_by_priority r (sort_by_priority rules)).
  rewrite insert_by_priority_level, !filter_cons, IH. reflexivity.
Qed.

Lemma sort_by_priority_sorted_id (rules : list RoutingRule) :
  by_priority rules -> sort_by_priority rules = rules.
Proof.
  unfold by_priority. induction rules as [|r rules IH]; intros Hs; [reflexivity|].
  apply StronglySorted_inv in Hs as [Hrest Hall].
  change (sort_by_priority (r :: rules))
    with (insert_by_priority r (sort_by_priority rules)).
  rewrite (IH Hrest). destruct rules as [|r' rules]; [reflexivity|]. simpl.
  apply Forall_cons in Hall as [Hr' _].
  destruct (Z.ltb_spec (priority r) (priority r')); [lia | reflexivity].
Qed.

(** Extra X10. Adding a rule leaves the rules in evaluation order —
    priorities never increase along the list — whatever the order was
    before; the list holds the old rules and the new one, and rules of
    equal priority keep their order, the new rule coming after the old
    ones of its priority. *)
Theorem add_routing_rule_keeps_order :
  forall (router : MessageRouter) (rid : string) (rtype : RoutingRuleType)
         (cond : Condition) (targets : list string) (prio : Z) (descr : option string),
    let added := add_routing_rule router rid rtype cond targets prio descr in
    by_priority (routing_rules added.1)
    /\ routing_rules added.1 ≡ₚ (routing_rules router ++ [added.2])%list
    /\ (forall k, filter (fun r => priority r = k) (routing_rules added.1)
                  = filter (fun r => priority r = k)
                      (routing_rules router ++ [added.2])%list)
    /\ priority added.2 = prio /\ active added.2 = true.
Proof.
  intros router rid rtype cond targets prio descr added.
  unfold added, add_routing_rule; cbn [fst snd routing_rules].
  split; [apply sort_by_priority_sorted|]. split; [apply sort_by_priority_perm|].
  split; [intros k; apply sort_by_priority_level|]. split; reflexivity.
Qed.

(** Extra X11. Which topics a message is routed to does not depend on
    the order of the rules: two routers whose rule lists are permutations
    of each other route every message to the same set of targets, each
    target once. The order in which the returned list names them is that
    of a Python set and is not compared. *)
Theorem route_message_order_independent :
  forall (re_search : string -> string -> outcome bool)
         (router router' : MessageRouter) (message : AgentMessage),
    routing_rules router ≡ₚ routing_rules router' ->
    let routed := (route_message re_search router message).2 in
    let routed' := (route_message re_search router' message).2 in
    (forall t, t ∈ routed <-> t ∈ routed')
    /\ NoDup routed /\ NoDup routed'
    /\ routed ≡ₚ routed'.
Proof.
  intros re_search router router' message Hperm routed routed'.
  assert (Hsame : forall t, t ∈ routed <-> t ∈ routed').
  { intros t. unfold routed, routed'.
    rewrite !route_message_result, !elem_of_elements, !route_loop_targets. split;
      (intros [H | (rule & Hin & Hrest)]; [left; exact H|]; right; exists rule;
       split; [|exact Hrest]).
    - rewrite <- Hperm. exact Hin.
    - rewrite Hperm. exact Hin. }
  assert (Hnd : NoDup routed).
  { unfold routed. rewrite route_message_result. apply NoDup_elements. }
  assert (Hnd' : NoDup routed').
  { unfold routed'. rewrite route_message_result. apply NoDup_elements. }
  split; [exact Hsame|]. split; [exact Hnd|]. split; [exact Hnd'|].
  apply NoDup_Permutation; assumption.
Qed.

Lemma route_message_order_independent_witness :
  let quiet := {| rule_id := "to-archive"; rule_type := SENDER_ROLE;
                  condition := CondStr "operator"; target_topics := ["archive"];
                  MessageRouter.priority := 1; active := true; description := None |} in
  (route_message literal_search
     {| routing_rules := [ops_rule; quiet]; route_history := [] |} ops_message).2
  ≡ₚ (route_message literal_search
        {| routing_rules := [quiet; ops_rule]; route_history := [] |} ops_message).2.
Proof.
  cbv zeta. apply route_message_order_independent. apply Permutation_swap.
Defined.

(** Extra X12. After any routing the history holds at most 1000 routes:
    it is the tail of the old history followed by the route of this
    message, which carries the returned targets. *)
Theorem route_history_bounded :
  forall (re_search : string -> string -> outcome bool)
         (router : MessageRouter) (message : AgentMessage),
    let routed := route_message re_search router message in
    length (route_history routed.1) <= 1000
    /\ exists route dropped,
         last (route_history routed.1) = Some route
         /\ route_message_of route = message
         /\ route_target_topics route = routed.2
         /\ (route_history router ++ [route])%list
            = (dropped ++ route_history routed.1)%list.
Proof.
  intros re_search router message routed. unfold routed, route_message.
  destruct (route_loop re_search message (routing_rules router) ∅ []) as [targets matched].
  cbn [fst snd route_history routing_rules].
  match goal with
  | |- context [Py.trim _ (_ ++ [?r])%list] => set (route := r)
  end.
  destruct (PyFacts.trim_bounded max_history_size (route_history router ++ [route]))
    as [Hlen [dropped Hdrop]]; [reflexivity|].
  split; [unfold max_history_size in *; lia|].
  exists route, dropped.
  split; [apply PyFacts.trim_keeps_last; reflexivity|].
  split; [reflexivity|]. split; [reflexivity | exact Hdrop].
Qed.

Lemma remove_first_spec (rules rules' : list RoutingRule) (rid : string) :
  remove_first rules rid = Some rules' ->
  exists before rule after,
    rules = (before ++ rule :: after)%list /\ rules' = (before ++ after)%list
    /\ rule_id rule = rid /\ Forall (fun r => rule_id r <> rid) before.
Proof.
  revert rules'. induction rules as [|r rules IH]; intros rules' H; simpl in H.
  - discriminate.
  - case_bool_decide as Hr.
    + injection H as <-. exists [], r, rules. repeat split; [exact Hr | constructor].
    + destruct (remove_first rules rid) as [l|] eqn:E; [|discriminate].
      injection H as <-. destruct (IH l eq_refl) as (before & rule & after & -> & -> & Hid & Hb).
      exists (r :: before), rule, after. repeat split; [exact Hid|].
      constructor; assumption.
Qed.

Lemma remove_first_none (rules : list RoutingRule) (rid : string) :
  remove_first rules rid = None <-> Forall (fun r => rule_id r <> rid) rules.
Proof.
  induction rules as [|r rules IH]; simpl.
  - split; [constructor | reflexivity].
  - case_bool_decide as Hr.
    + split; [discriminate|]. intros H. apply Forall_cons in H as [H _]. contradiction.
    + rewrite Forall_cons, <- IH.
      destruct (remove_first rules rid); simpl; split; try discriminate; try tauto.
      intros [_ H]. discriminate.
Qed.

Lemma get_rule_by_id_none (rules : list RoutingRule) (rid : string) :
  Forall (fun r => rule_id r <> rid) rules -> get_rule_by_id_in rules rid = None.
Proof.
  induction 1 as [|r rules Hr _ IH]; [reflexivity|]. simpl.
  rewrite bool_decide_eq_false_2 by exact Hr. exact IH.
Qed.

Lemma get_rule_by_id_app (before after : list RoutingRule) (rid : string) :
  Forall (fun r => rule_id r <> rid) before ->
  get_rule_by_id_in (before ++ after) rid = get_rule_by_id_in after rid.
Proof.
  induction 1 as [|r rules Hr _ IH]; [reflexivity|]. simpl.
  rewrite bool_decide_eq_false_2 by exact Hr. exact IH.
Qed.

(** Extra X13. Removing a rule reports whether a rule with the identifier
    was there; if not, the router is unchanged; if so, exactly the first
    such rule is taken out, the others keep their order (so the evaluation
    order stays sorted), and when identifiers are unique no rule with the
    identifier is found afterwards. *)
Theorem remove_routing_rule_effect :
  forall (router : MessageRouter) (rid : string),
    let removed := remove_routing_rule router rid in
    (removed.2 = true <-> exists rule, rule ∈ routing_rules router /\ rule_id rule = rid)
    /\ (removed.2 = false -> removed.1 = router)
    /\ (removed.2 = true ->
        exists before rule after,
          routing_rules router = (before ++ rule :: after)%list
          /\ routing_rules removed.1 = (before ++ after)%list
          /\ get_rule_by_id router rid = Some rule
          /\ Forall (fun r => rule_id r <> rid) before)
    /\ (by_priority (routing_rules router) -> by_priority (routing_rules removed.1))
    /\ (NoDup (rule_id <$> routing_rules router) -> get_rule_by_id removed.1 rid = None).
Proof.
  intros router rid removed. unfold removed, remove_routing_rule, get_rule_by_id.
  destruct (remove_first (routing_rules router) rid) as [rules'|] eqn:E;
    cbn [fst snd routing_rules].
  - destruct (remove_first_spec _ _ _ E) as (before & rule & after & Hrules & -> & Hid & Hb).
    split; [|split; [discriminate|split; [|split]]].
    + split; [|reflexivity]. intros _. exists rule. split; [|exact Hid].
      rewrite Hrules. apply elem_of_app. right. left.
    + intros _. exists before, rule, after. split; [exact Hrules|]. split; [reflexivity|].
      split; [|exact Hb].
      rewrite Hrules, (get_rule_by_id_app before _ rid Hb). simpl.
      rewrite bool_decide_eq_true_2 by exact Hid. reflexivity.
    + unfold by_priority. rewrite Hrules, !StronglySorted_app, StronglySorted_cons.
      intros (Hcross & Hbefore & _ & Hafter). split; [|split; assumption].
      intros x y Hx Hy. apply Hcross; [exact Hx | right; exact Hy].
    + rewrite Hrules, fmap_app, fmap_cons. intros Hnd.
      apply NoDup_app in Hnd as (_ & _ & Hnd). apply NoDup_cons in Hnd as [Hfresh _].
      rewrite (get_rule_by_id_app before _ rid Hb). apply get_rule_by_id_none.
      apply Forall_forall. intros r Hr Heq. apply Hfresh. rewrite Hid, <- Heq.
      apply list_elem_of_fmap. eauto.
  - apply remove_first_none in E.
    split; [|split; [reflexivity|split; [discriminate|split; [tauto|]]]].
    + split; [discriminate|]. intros (rule & Hin & Hid).
      rewrite Forall_forall in E. exfalso. exact (E rule Hin Hid).
    + intros _. apply get_rule_by_id_none, E.
Qed.

Lemma remove_routing_rule_effect_witness :
  (remove_routing_rule ops_router "urgent-to-ops").2 = true
  /\ routing_rules (remove_routing_rule ops_router "urgent-to-ops").1 = []
  /\ (remove_routing_rule ops_router "unknown").1 = ops_router.
Proof.
  pose proof (remove_routing_rule_effect ops_router "urgent-to-ops") as (Hfound & _).
  pose proof (remove_routing_rule_effect ops_router "unknown") as (_ & Hsame & _).
  split; [apply Hfound; exists ops_rule; split; [left | reflexivity]|].
  split; [reflexivity|]. apply Hsame. reflexivity.
Defined.

Lemma update_first_found (rules : list RoutingRule) (rid : string) (u : RuleUpdates) :
  is_Some (update_first rules rid u) <-> is_Some (remove_first rules rid).
Proof.
  induction rules as [|r rules IH]; simpl.
  - reflexivity.
  - case_bool_decide; [split; eauto|].
    rewrite !fmap_is_Some. exact IH.
Qed.

Lemma disabled_routes_as_removed (re_search : string -> string -> outcome bool)
  (message : AgentMessage) (rules disabled removed : list RoutingRule) (rid : string) :
  update_first rules rid (only_active false) = Some disabled ->
  remove_first rules rid = Some removed ->
  forall targets matched,
    route_loop re_search message disabled targets matched
    = route_loop re_search message removed targets matched.
Proof.
  revert disabled removed.
  induction rules as [|r rules IH]; intros disabled removed Hd Hr; simpl in Hd, Hr.
  - discriminate.
  - case_bool_decide as Hid.
    + injection Hd as <-. injection Hr as <-. intros targets matched. reflexivity.
    + destruct (update_first rules rid (only_active false)) as [d|] eqn:Ed; [|discriminate].
      destruct (remove_first rules rid) as [l|] eqn:El; [|discriminate].
      injection Hd as <-. injection Hr as <-. intros targets matched. simpl.
      rewrite !(IH d l eq_refl eq_refl). reflexivity.
Qed.

Lemma enable_after_disable (rules disabled : list RoutingRule) (rid : string)
  (rule : RoutingRule) :
  get_rule_by_id_in rules rid = Some rule -> active rule = true ->
  update_first rules rid (only_active false) = Some disabled ->
  update_first disabled rid (only_active true) = Some rules.
Proof.
  revert disabled. induction rules as [|r rules IH]; intros disabled Hget Hact Hd;
    simpl in Hget, Hd.
  - discriminate.
  - case_bool_decide as Hid.
    + injection Hget as ->. injection Hd as <-. simpl.
      rewrite bool_decide_eq_true_2 by exact Hid. f_equal. f_equal.
      destruct rule. simpl in *. subst. reflexivity.
    + destruct (update_first rules rid (only_active false)) as [d|] eqn:Ed; [|discriminate].
      injection Hd as <-. simpl. rewrite bool_decide_eq_false_2 by exact Hid.
      rewrite (IH d Hget Hact eq_refl). reflexivity.
Qed.

(** Extra X14. Disabling a rule reports whether a rule with the identifier
    exists and, if not, changes nothing; afterwards messages are routed
    exactly as if the first rule with that identifier had been removed; and
    enabling it again gives back the original rules when that rule was
    active. *)
Theorem disable_rule_routes_as_removed :
  forall (re_search : string -> string -> outcome bool) (rules : list RoutingRule)
         (rid : string) (h h' : list MessageRoute) (message : AgentMessage),
    let disabled := disable_rule_in rules rid in
    let removed := remove_routing_rule {| routing_rules := rules; route_history := h' |} rid in
    disabled.2 = removed.2
    /\ (disabled.2 = false -> disabled.1 = rules)
    /\ (route_message re_search
          {| routing_rules := disabled.1; route_history := h |} message).2
       = (route_message re_search
            {| routing_rules := routing_rules removed.1; route_history := h |} message).2
    /\ (forall rule, get_rule_by_id_in rules rid = Some rule -> active rule = true ->
                     enable_rule_in disabled.1 rid = (rules, true)).
Proof.
  intros re_search rules rid h h' message disabled removed.
  unfold disabled, removed, disable_rule_in, enable_rule_in, update_rule_in,
    remove_routing_rule; cbn [routing_rules new_priority only_active].
  pose proof (update_first_found rules rid (only_active false)) as Hfound.
  destruct (update_first rules rid (only_active false)) as [d|] eqn:Ed;
    destruct (remove_first rules rid) as [l|] eqn:El; cbn [fst snd routing_rules].
  - split; [reflexivity|]. split; [discriminate|]. split.
    + rewrite !route_message_result. cbn [routing_rules].
      rewrite (disabled_routes_as_removed re_search message rules d l rid Ed El).
      reflexivity.
    + intros rule Hget Hact.
      rewrite (enable_after_disable rules d rid rule Hget Hact Ed). reflexivity.
  - exfalso. destruct (proj1 Hfound (ex_intro _ d eq_refl)) as [x Hx]. discriminate.
  - exfalso. destruct (proj2 Hfound (ex_intro _ l eq_refl)) as [x Hx]. discriminate.
  - split; [reflexivity|]. split; [reflexivity|]. split; [reflexivity|].
    intros rule Hget _. exfalso. apply remove_first_none in El.
    rewrite (get_rule_by_id_none rules rid El) in Hget. discriminate.
Qed.

Lemma disable_rule_routes_as_removed_witness :
  (route_message literal_search
     {| routing_rules := (disable_rule_in [ops_rule] "urgent-to-ops").1;
        route_history := [] |} ops_message).2 = []
  /\ enable_rule_in (disable_rule_in [ops_rule] "urgent-to-ops").1 "urgent-to-ops"
     = ([ops_rule], true).
Proof.
  pose proof (disable_rule_routes_as_removed literal_search [ops_rule] "urgent-to-ops"
                [] [] ops_message) as (_ & _ & Hroute & Henable).
  split; [rewrite Hroute; reflexivity|].
  apply (Henable ops_rule); reflexivity.
Defined.

Lemma import_export_rule (rule : RoutingRule) : import_rule (export_rule rule) = Some rule.
Proof. destruct rule as [rid [] cond targets prio act descr]; reflexivity. Qed.

Lemma import_exported (rules : list RoutingRule) :
  omap import_rule (export_rule <$> rules) = rules.
Proof.
  induction rules as [|r rules IH]; [reflexivity|].
  rewrite fmap_cons. cbn [omap list_omap]. rewrite import_export_rule.
  change (r :: omap import_rule (export_rule <$> rules) = r :: rules).
  rewrite IH. reflexivity.
Qed.

(** Extra X15. Exported rules come back on import: importing the export
    of a router into a router without rules counts every rule and yields
    the same rules in evaluation order — the very same list when the
    exported list was in evaluation order. Any import leaves the rules in
    evaluation order. *)
Theorem export_import_round_trip :
  forall (router : MessageRouter) (h : list MessageRoute),
    let imported :=
      import_rules {| routing_rules := []; route_history := h |} (export_rules router) in
    imported.2 = length (routing_rules router)
    /\ routing_rules imported.1 = sort_by_priority (routing_rules router)
    /\ (by_priority (routing_rules router) ->
        routing_rules imported.1 = routing_rules router)
    /\ (forall other dicts, by_priority (routing_rules (import_rules other dicts).1)).
Proof.
  intros router h imported. unfold imported, import_rules, export_rules.
  cbn [fst snd routing_rules]. rewrite import_exported. cbn [app].
  split; [reflexivity|]. split; [reflexivity|].
  split; [apply sort_by_priority_sorted_id|].
  intros other dicts. apply sort_by_priority_sorted.
Qed.

Lemma export_import_round_trip_witness :
  routing_rules (import_rules {| routing_rules := []; route_history := [] |}
                   (export_rules ops_router)).1 = routing_rules ops_router.
Proof.
  apply (export_import_round_trip ops_router []).
  unfold by_priority. repeat constructor.
Defined.

End MessageRouterFacts.

(** ** Subscriptions *)

Module SubscriptionManagerFacts.
Import Message SubscriptionManager.

(** How often a reference occurs in a list of deliveries. *)
Definition deliveries (r : ref) (l : list ref) : nat :=
length (List.filter (Nat.eqb r) l).

Lemma deliveries_cons (r r' : ref) (l : list ref) :
  deliveries r (r' :: l) = if decide (r' = r) then S (deliveries r l) else deliveries r l.
Proof.
  unfold deliveries. simpl. case_decide as H.
  - subst. rewrite Nat.eqb_refl. reflexivity.
  - destruct (Nat.eqb_spec r r'); [congruence | reflexivity].
Qed.

Lemma deliveries_absent (r : ref) (l : list ref) : r ∉ l -> deliveries r l = 0.
Proof.
  induction l as [|x l IH]; intros H; [reflexivity|].
  rewrite deliveries_cons. apply not_elem_of_cons in H as [Hne Hl].
  rewrite decide_False by congruence. apply IH, Hl.
Qed.

Lemma deliveries_present (r : ref) (l : list ref) : r ∈ l -> (0 < deliveries r l).
Proof.
  induction l as [|x l IH]; intros H; [inversion H|].
  rewrite deliveries_cons. case_decide; [lia|].
  apply elem_of_cons in H as [->|H]; [congruence | apply IH, H].
Qed.

Lemma deliveries_NoDup (r : ref) (l : list ref) :
  NoDup l -> r ∈ l -> deliveries r l = 1.
Proof.
  induction l as [|x l IH]; intros Hnd H; [inversion H|].
  apply NoDup_cons in Hnd as [Hx Hnd]. rewrite deliveries_cons. case_decide as Hd.
  - subst x. rewrite deliveries_absent; [reflexivity | exact Hx].
  - apply elem_of_cons in H as [->|H]; [congruence | exact (IH Hnd H)].
Qed.

Lemma filter_elem_of {A} (p : A -> bool) (l : list A) (x : A) :
  x ∈ List.filter p l <-> x ∈ l /\ p x = true.
Proof. rewrite !list_elem_of_In. apply filter_In. Qed.

Lemma filter_NoDup {A} (p : A -> bool) (l : list A) : NoDup l -> NoDup (List.filter p l).
Proof.
  induction l as [|x l IH]; intros H; [constructor|].
  apply NoDup_cons in H as [Hx Hl]. simpl. destruct (p x); [|apply IH, Hl].
  apply NoDup_cons. split; [|apply IH, Hl].
  rewrite filter_elem_of. tauto.
Qed.

Lemma delivered_iter_count (m : AgentMessage) (n : nat) (sub : TopicSubscription) :
  message_count (Nat.iter n (delivered m) sub) = (message_count sub + Z.of_nat n)%Z.
Proof.
  induction n as [|n IH]; [simpl; lia|].
  simpl Nat.iter. cbn [delivered message_count]. rewrite IH. lia.
Qed.

Lemma delivered_iter_stamp (m : AgentMessage) (n : nat) (sub : TopicSubscription) :
  0 < n -> last_message_at (Nat.iter n (delivered m) sub) = Some (timestamp m).
Proof. destruct n; [lia | reflexivity]. Qed.

Lemma delivered_iter_fixed (m : AgentMessage) (n : nat) (sub : TopicSubscription) :
  let sub' := Nat.iter n (delivered m) sub in
  SubscriptionManager.topic sub' = SubscriptionManager.topic sub
  /\ agent_id sub' = agent_id sub /\ active sub' = active sub
  /\ filter_criteria sub' = filter_criteria sub.
Proof. induction n as [|n IH]; [repeat split | exact IH]. Qed.

Lemma iter_after_first {A} (f : A -> A) (n : nat) (x : A) :
  Nat.iter n f <$> Some (f x) = Nat.iter (S n) f <$> Some x.
Proof.
  unfold fmap, option_fmap, option_map. rewrite Nat.iter_succ_r. reflexivity.
Qed.

Section Routing.
Variable re_search : string -> string -> outcome bool.

(** The three conditions of delivery on a subscription object: active,
    not the sender's own, and accepted by its filter. *)
Definition accepts (m : AgentMessage) (sub : TopicSubscription) : bool :=
active sub && negb (bool_decide (agent_id sub = sender_id m))
&& match message_matches_filter re_search m (filter_criteria sub) with
   | Returns b => b
   | Raises _ => false
   end.

Definition deliverable (m : AgentMessage) (objs : gmap ref TopicSubscription)
  (r : ref) : bool :=
holds objs (accepts m) r.

(** No filter of the listed subscriptions raises on the message. *)
Definition filters_return (m : AgentMessage) (objs : gmap ref TopicSubscription)
  (refs : list ref) : Prop :=
forall r sub, r ∈ refs -> objs !! r = Some sub ->
  exists b, message_matches_filter re_search m (filter_criteria sub) = Returns b.

Lemma deliverable_insert (m : AgentMessage) (objs : gmap ref TopicSubscription)
  (r : ref) (sub : TopicSubscription) (r' : ref) :
  objs !! r = Some sub ->
  deliverable m (<[r := delivered m sub]> objs) r' = deliverable m objs r'.
Proof.
  intros Hr. unfold deliverable, holds. rewrite lookup_insert. case_decide as Hd.
  - subst r'. rewrite Hr. reflexivity.
  - reflexivity.
Qed.

Lemma filter_deliverable_insert (m : AgentMessage) (objs : gmap ref TopicSubscription)
  (r : ref) (sub : TopicSubscription) (refs : list ref) :
  objs !! r = Some sub ->
  List.filter (deliverable m (<[r := delivered m sub]> objs)) refs
  = List.filter (deliverable m objs) refs.
Proof.
  intros Hr. apply filter_ext. intros r'. apply deliverable_insert, Hr.
Qed.

(** A subscription whose filter the loop evaluates: active and not the
    sender's own. *)
Definition evaluated (m : AgentMessage) (sub : TopicSubscription) : Prop :=
active sub = true /\ agent_id sub <> sender_id m.

(** No filter that the loop evaluates raises on the message. *)
Definition evaluated_filters_return (m : AgentMessage)
  (objs : gmap ref TopicSubscription) (refs : list ref) : Prop :=
forall r sub, r ∈ refs -> objs !! r = Some sub -> evaluated m sub ->
  exists b, message_matches_filter re_search m (filter_criteria sub) = Returns b.

Lemma filters_return_evaluated (m : AgentMessage) (objs : gmap ref TopicSubscription)
  (refs : list ref) :
  filters_return m objs refs -> evaluated_filters_return m objs refs.
Proof. intros Hret r sub Hin Hsub _. exact (Hret r sub Hin Hsub). Qed.

(** The loop returns the deliverable references in order and applies the
    delivery bookkeeping once per occurrence. *)
Lemma route_loop_returns_evaluated (m : AgentMessage) (refs : list ref) :
  forall (objs : gmap ref TopicSubscription) (matching : list ref),
    evaluated_filters_return m objs refs ->
    exists objs',
      route_loop re_search m refs objs matching
      = (objs', Returns (matching ++ List.filter (deliverable m objs) refs)%list)
      /\ forall r, objs' !! r
                   = Nat.iter (deliveries r (List.filter (deliverable m objs) refs))
                       (delivered m) <$> objs !! r.
Proof.
  induction refs as [|r refs IH]; intros objs matching Hret.
  - exists objs. simpl. rewrite app_nil_r. split; [reflexivity|].
    intros r. destruct (objs !! r); reflexivity.
  - assert (Hret' : evaluated_filters_return m objs refs).
    { intros r' sub Hin. apply Hret. right. exact Hin. }
    assert (Hd : deliverable m objs r
                 = match objs !! r with Some sub => accepts m sub | None => false end)
      by reflexivity.
    cbn [route_loop List.filter]. rewrite Hd. clear Hd.
    destruct (objs !! r) as [sub|] eqn:Hr; [|apply IH, Hret'].
    unfold accepts.
    destruct (active sub) eqn:Hactive; cbn [negb andb]; [|apply IH, Hret'].
    case_bool_decide as Hself; cbn [negb andb]; [apply IH, Hret'|].
    destruct (Hret r sub (list_elem_of_here _ _) Hr (conj Hactive Hself)) as [b Hb].
    rewrite Hb.
    destruct b; [|apply IH, Hret'].
    destruct (IH (<[r := delivered m sub]> objs) (matching ++ [r])%list)
      as (objs' & Hloop & Hobjs).
    { intros r' sub' Hin. rewrite lookup_insert. case_decide.
      - intros [= <-] _. exact (Hret r sub (list_elem_of_here _ _) Hr (conj Hactive Hself)).
      - apply Hret'. exact Hin. }
    rewrite (filter_deliverable_insert m objs r sub refs Hr) in Hloop, Hobjs.
    exists objs'. split.
    + rewrite Hloop, <- app_assoc. reflexivity.
    + intros r'. rewrite Hobjs, lookup_insert, deliveries_cons.
      case_decide as Hd.
      * subst r'. rewrite Hr. apply iter_after_first.
      * reflexivity.
Qed.

Lemma route_loop_returns (m : AgentMessage) (refs : list ref) :
  forall (objs : gmap ref TopicSubscription) (matching : list ref),
    filters_return m objs refs ->
    exists objs',
      route_loop re_search m refs objs matching
      = (objs', Returns (matching ++ List.filter (deliverable m objs) refs)%list)
      /\ forall r, objs' !! r
                   = Nat.iter (deliveries r (List.filter (deliverable m objs) refs))
                       (delivered m) <$> objs !! r.
Proof.
  intros objs matching Hret.
  apply route_loop_returns_evaluated, filters_return_evaluated, Hret.
Qed.

(** The loop stops at the first evaluated subscription whose filter
    raises, and passes the exception on. *)
Lemma route_loop_raises (m : AgentMessage) (before : list ref) :
  forall (objs : gmap ref TopicSubscription) (matching : list ref)
         (r : ref) (after : list ref) (sub : TopicSubscription) (e : exn),
    evaluated_filters_return m objs before ->
    objs !! r = Some sub -> evaluated m sub ->
    message_matches_filter re_search m (filter_criteria sub) = Raises e ->
    (route_loop re_search m (before ++ r :: after) objs matching).2 = Raises e.
Proof.
  induction before as [|x before IH]; intros objs matching r after sub e Hret Hr Hev Hraise.
  - destruct Hev as [Hactive Hother]. cbn [app route_loop].
    rewrite Hr, Hactive, (bool_decide_eq_false_2 _ Hother), Hraise. reflexivity.
  - assert (Hret' : evaluated_filters_return m objs before).
    { intros r' sub' Hin. apply Hret. right. exact Hin. }
    cbn [app route_loop].
    destruct (objs !! x) as [sub'|] eqn:Hx; [|exact (IH _ _ _ _ _ _ Hret' Hr Hev Hraise)].
    destruct (active sub') eqn:Hactive; cbn [negb];
      [|exact (IH _ _ _ _ _ _ Hret' Hr Hev Hraise)].
    case_bool_decide as Hself; [exact (IH _ _ _ _ _ _ Hret' Hr Hev Hraise)|].
    destruct (Hret x sub' (list_elem_of_here _ _) Hx (conj Hactive Hself)) as [b Hb].
    rewrite Hb. destruct b; [|exact (IH _ _ _ _ _ _ Hret' Hr Hev Hraise)].
    destruct (decide (r = x)) as [->|Hne].
    + rewrite Hx in Hr. injection Hr as <-. rewrite Hraise in Hb. discriminate.
    + apply (IH _ _ r after sub e); [|rewrite lookup_insert_ne by congruence; exact Hr
                                     |exact Hev|exact Hraise].
      intros r' sub'' Hin. rewrite lookup_insert. case_decide.
      * intros [= <-] _. exists true. exact Hb.
      * apply Hret'. exact Hin.
Qed.

(** Either no evaluated filter of the list raises, or there is a first
    one that does. *)
Lemma first_raising (m : AgentMessage) (objs : gmap ref TopicSubscription)
  (refs : list ref) :
  evaluated_filters_return m objs refs
  \/ exists before r after sub e,
       refs = (before ++ r :: after)%list
       /\ evaluated_filters_return m objs before
       /\ objs !! r = Some sub /\ evaluated m sub
       /\ message_matches_filter re_search m (filter_criteria sub) = Raises e.
Proof.
  induction refs as [|x refs IH].
  - left. intros r sub Hin. inversion Hin.
  - assert (Hhead : (forall sub, objs !! x = Some sub -> evaluated m sub ->
                       exists b, message_matches_filter re_search m (filter_criteria sub)
                                 = Returns b)
                    \/ exists sub e, objs !! x = Some sub /\ evaluated m sub
                         /\ message_matches_filter re_search m (filter_criteria sub)
                            = Raises e).
    { destruct (objs !! x) as [sub|]; [|left; intros sub; discriminate].
      destruct (message_matches_filter re_search m (filter_criteria sub)) as [b|e] eqn:Hm.
      - left. intros sub' [= <-] _. exists b. exact Hm.
      - destruct (active sub) eqn:Hactive;
          [|left; intros sub' [= <-] [Hact _]; congruence].
        destruct (decide (agent_id sub = sender_id m)) as [Hself|Hother];
          [left; intros sub' [= <-] [_ Hne]; contradiction|].
        right. exists sub, e. split; [reflexivity|]. split; [split; assumption | exact Hm]. }
    destruct Hhead as [Hhead | (sub & e & Hsub & Hev & Hm)].
    + destruct IH as [IH | (before & r & after & sub & e & -> & Hbefore & Hrest)].
      * left. intros r sub Hin Hsub Hev. apply elem_of_cons in Hin as [-> | Hin].
        -- exact (Hhead sub Hsub Hev).
        -- exact (IH r sub Hin Hsub Hev).
      * right. exists (x :: before), r, after, sub, e. split; [reflexivity|].
        split; [|exact Hrest].
        intros r' sub' Hin Hsub' Hev'. apply elem_of_cons in Hin as [-> | Hin].
        -- exact (Hhead sub' Hsub' Hev').
        -- exact (Hbefore r' sub' Hin Hsub' Hev').
    + right. exists [], x, refs, sub, e. split; [reflexivity|].
      split; [intros r sub' Hin; inversion Hin|]. split; [exact Hsub|].
      split; [exact Hev | exact Hm].
Qed.

Lemma deliverable_iff (m : AgentMessage) (objs : gmap ref TopicSubscription) (r : ref) :
  deliverable m objs r = true <->
  exists sub, objs !! r = Some sub
              /\ active sub = true
              /\ agent_id sub <> sender_id m
              /\ message_matches_filter re_search m (filter_criteria sub) = Returns true.
Proof.
  unfold deliverable, holds, accepts. split.
  - intros Hacc. destruct (objs !! r) as [sub|]; [|discriminate].
    exists sub. split; [reflexivity|].
    apply andb_true_iff in Hacc as [Hacc Hmatch].
    apply andb_true_iff in Hacc as [Hact Hother].
    apply negb_true_iff, bool_decide_eq_false in Hother.
    destruct (message_matches_filter re_search m (filter_criteria sub))
      as [[|]|]; try discriminate. auto.
  - intros (sub & Hsub & Hact & Hother & Hmatch).
    rewrite Hsub, Hact, Hmatch, (bool_decide_eq_false_2 _ Hother). reflexivity.
Qed.

(** Routing returns when no filter of the topic raises, and then lists the
    deliverable subscriptions of the topic. *)
Lemma route_message_returns (mgr : SubscriptionManager) (m : AgentMessage)
  (refs : list ref) :
  subscriptions mgr !! Message.topic m = Some refs ->
  filters_return m (objects mgr) refs ->
  exists objs',
    route_message re_search mgr m
    = (with_objects mgr objs',
       Returns (List.filter (deliverable m (objects mgr)) refs))
    /\ forall r, objs' !! r
                 = Nat.iter (deliveries r (List.filter (deliverable m (objects mgr)) refs))
                     (delivered m) <$> objects mgr !! r.
Proof.
  intros Hrefs Hret.
  destruct (route_loop_returns m refs (objects mgr) [] Hret) as (objs' & Hloop & Hobjs).
  simpl in Hloop. exists objs'. split; [|exact Hobjs].
  unfold route_message. rewrite Hrefs, Hloop. reflexivity.
Qed.

End Routing.

(** *** What it means that a filter matches *)

(** The priorities in the order of the specification,
    low < normal < high < urgent: [not_below least p] when [p] is reached
    from [least] by zero or more steps to the next higher priority. *)
Inductive next_priority : MessagePriority -> MessagePriority -> Prop :=
| low_then_normal : next_priority LOW NORMAL
| normal_then_high : next_priority NORMAL HIGH
| high_then_urgent : next_priority HIGH URGENT.

Inductive not_below (least : MessagePriority) : MessagePriority -> Prop :=
| not_below_same : not_below least least
| not_below_higher (p p' : MessagePriority) :
    not_below least p -> next_priority p p' -> not_below least p'.

(** A keyword occurs in a text when, case ignored, it is a substring. *)
Definition keyword_occurs (keyword text : string) : Prop :=
exists before after, Str.lower text = before ++ Str.lower keyword ++ after.

Lemma not_below_order (least p : MessagePriority) :
  not_below least p <-> (priority_order least <= priority_order p)%Z.
Proof.
  split.
  - induction 1 as [|p p' _ IH Hstep]; [lia|].
    destruct Hstep; cbn [priority_order] in *; lia.
  - intros Hle.
    assert (Hchain : forall q, (priority_order least <= priority_order q)%Z ->
                               not_below least q -> forall q', next_priority q q' ->
                               not_below least q').
    { intros q _ Hq q' Hstep. exact (not_below_higher least q q' Hq Hstep). }
    pose proof (not_below_same least) as Hsame.
    destruct least, p; cbn [priority_order] in Hle; try lia; try exact Hsame;
      repeat (first [ exact Hsame
                    | eapply not_below_higher; [|apply high_then_urgent]
                    | eapply not_below_higher; [|apply normal_then_high]
                    | eapply not_below_higher; [|apply low_then_normal] ]).
Qed.

Lemma any_keyword_occurs (keywords : list string) (text : string) :
  Str.any_keyword_in keywords text = true <->
  exists k, k ∈ keywords /\ keyword_occurs k text.
Proof.
  unfold Str.any_keyword_in, keyword_occurs. rewrite existsb_exists. split.
  - intros (k & Hin & Hk). exists k. split; [apply list_elem_of_In, Hin|].
    apply StrFacts.contains_app, Hk.
  - intros (k & Hin & Hk). exists k. split; [apply list_elem_of_In, Hin|].
    apply StrFacts.contains_app, Hk.
Qed.

Lemma given_set_spec {A} `{Countable A} (s : option (gset A)) (x : gset A) :
  given_set s = Some x <-> s = Some x /\ x <> ∅.
Proof.
  unfold given_set. destruct s as [y|]; [|split; [discriminate | intros [? _]; discriminate]].
  case_bool_decide as Hy.
  - split; [discriminate | intros [[= ->] Hne]; contradiction].
  - split; [intros [= ->]; auto | intros [[= ->] _]; reflexivity].
Qed.

Lemma allowed_spec {A} `{Countable A} (s : option (gset A)) (x : A) :
  match given_set s with Some allowed => bool_decide (x ∉ allowed) | None => false end
  = false
  <-> forall allowed, s = Some allowed -> allowed <> ∅ -> x ∈ allowed.
Proof.
  destruct (given_set s) as [a|] eqn:Ha.
  - apply given_set_spec in Ha as [-> Hne]. rewrite bool_decide_eq_false. split.
    + intros Hin allowed [= <-] _. apply dec_stable. exact Hin.
    + intros Hall Hout. apply Hout, (Hall a eq_refl Hne).
  - split; [|reflexivity]. intros _ allowed Hs Hne.
    assert (Hsome : given_set s = Some allowed) by (apply given_set_spec; auto).
    congruence.
Qed.

Lemma blocked_spec {A} `{Countable A} (s : option (gset A)) (x : A) :
  match given_set s with Some blocked => bool_decide (x ∈ blocked) | None => false end
  = false
  <-> forall blocked, s = Some blocked -> x ∉ blocked.
Proof.
  destruct (given_set s) as [b|] eqn:Hb.
  - apply given_set_spec in Hb as [-> Hne]. rewrite bool_decide_eq_false. split.
    + intros Hout blocked [= <-]. exact Hout.
    + intros Hall. exact (Hall b eq_refl).
  - split; [|reflexivity]. intros _ blocked -> Hin.
    unfold given_set in Hb. case_bool_decide as He; [|discriminate].
    subst blocked. apply not_elem_of_empty in Hin. exact Hin.
Qed.

Section Matching.
Variable re_search : string -> string -> outcome bool.

(** The filter of the specification: every criterion that is given is
    met. A criterion that is absent, an empty set of types, senders or
    roles, an empty list of keywords and an empty pattern leave the
    message through. *)
Definition filter_passes (m : AgentMessage) (f : SubscriptionFilter) : Prop :=
(forall types, message_types f = Some types -> types <> ∅ -> message_type m ∈ types)
/\ (forall least, min_priority f = Some least -> not_below least (priority m))
/\ (forall keywords, content_keywords f = Some keywords -> keywords <> [] ->
      exists k, k ∈ keywords /\ keyword_occurs k (content m))
/\ (forall pattern, content_regex f = Some pattern -> pattern <> EmptyString ->
      re_search pattern (content m) = Returns true)
/\ (forall senders, allowed_senders f = Some senders -> senders <> ∅ ->
      sender_id m ∈ senders)
/\ (forall senders, blocked_senders f = Some senders -> sender_id m ∉ senders)
/\ (forall roles, allowed_roles f = Some roles -> roles <> ∅ -> sender_role m ∈ roles)
/\ (forall roles, blocked_roles f = Some roles -> sender_role m ∉ roles)
/\ (forall wanted key value,
      metadata_filters f = Some wanted -> wanted !! key = Some value ->
      metadata m !! key = Some value)
/\ (forall predicate, custom_filter f = Some predicate -> predicate m = Returns true).

(** A subscription without filter receives every message. *)
Definition passes (m : AgentMessage) (fc : option SubscriptionFilter) : Prop :=
match fc with
| Some f => filter_passes m f
| None => True
end.

Lemma type_spec (m : AgentMessage) (f : SubscriptionFilter) :
  type_rejected m f = false <->
  forall types, message_types f = Some types -> types <> ∅ -> message_type m ∈ types.
Proof. apply allowed_spec. Qed.

Lemma priority_spec (m : AgentMessage) (f : SubscriptionFilter) :
  priority_rejected m f = false <->
  forall least, min_priority f = Some least -> not_below least (priority m).
Proof.
  unfold priority_rejected. destruct (min_priority f) as [p|].
  - rewrite bool_decide_eq_false. split.
    + intros Hge least [= <-]. apply not_below_order. lia.
    + intros Hall. specialize (Hall p eq_refl). apply not_below_order in Hall. lia.
  - split; [intros _ least; discriminate | reflexivity].
Qed.

Lemma keywords_spec (m : AgentMessage) (f : SubscriptionFilter) :
  keywords_rejected m f = false <->
  forall keywords, content_keywords f = Some keywords -> keywords <> [] ->
    exists k, k ∈ keywords /\ keyword_occurs k (content m).
Proof.
  unfold keywords_rejected. destruct (content_keywords f) as [[|k ks]|].
  - split; [intros _ keywords [= <-] Hne; congruence | reflexivity].
  - rewrite negb_false_iff, any_keyword_occurs. split.
    + intros Hany keywords [= <-] _. exact Hany.
    + intros Hall. apply (Hall (k :: ks) eq_refl). discriminate.
  - split; [intros _ keywords; discriminate | reflexivity].
Qed.

Lemma regex_spec (m : AgentMessage) (f : SubscriptionFilter) :
  regex_accepts re_search m f = Returns true <->
  forall pattern, content_regex f = Some pattern -> pattern <> EmptyString ->
    re_search pattern (content m) = Returns true.
Proof.
  unfold regex_accepts. destruct (content_regex f) as [pattern|].
  - destruct pattern as [|c pattern]; cbn [Str.is_empty].
    + split; [intros _ p [= <-] Hne; congruence | reflexivity].
    + split; [intros Hfound p [= <-] _; exact Hfound|].
      intros Hall. apply (Hall _ eq_refl). discriminate.
  - split; [intros _ p; discriminate | reflexivity].
Qed.

Lemma senders_spec (m : AgentMessage) (f : SubscriptionFilter) :
  senders_rejected m f = false <->
  (forall senders, allowed_senders f = Some senders -> senders <> ∅ ->
     sender_id m ∈ senders)
  /\ (forall senders, blocked_senders f = Some senders -> sender_id m ∉ senders).
Proof.
  unfold senders_rejected. rewrite orb_false_iff, allowed_spec, blocked_spec. reflexivity.
Qed.

Lemma roles_spec (m : AgentMessage) (f : SubscriptionFilter) :
  roles_rejected m f = false <->
  (forall roles, allowed_roles f = Some roles -> roles <> ∅ -> sender_role m ∈ roles)
  /\ (forall roles, blocked_roles f = Some roles -> sender_role m ∉ roles).
Proof.
  unfold roles_rejected. rewrite orb_false_iff, allowed_spec, blocked_spec. reflexivity.
Qed.

Lemma metadata_spec (m : AgentMessage) (f : SubscriptionFilter) :
  metadata_rejected m f = false <->
  forall wanted key value,
    metadata_filters f = Some wanted -> wanted !! key = Some value ->
    metadata m !! key = Some value.
Proof.
  unfold metadata_rejected. destruct (metadata_filters f) as [d|].
  - rewrite negb_false_iff, bool_decide_eq_true. unfold map_Forall. split.
    + intros Hall wanted key value [= <-]. apply Hall.
    + intros Hall key value. apply (Hall d key value eq_refl).
  - split; [intros _ wanted key value; discriminate | reflexivity].
Qed.

Lemma custom_spec (m : AgentMessage) (f : SubscriptionFilter) :
  custom_accepts m f = true <->
  forall predicate, custom_filter f = Some predicate -> predicate m = Returns true.
Proof.
  unfold custom_accepts, try_except. destruct (custom_filter f) as [p|].
  - split.
    + intros Hp predicate [= <-]. destruct (p m) as [[|]|e]; [reflexivity | |]; discriminate.
    + intros Hall. rewrite (Hall p eq_refl). reflexivity.
  - split; [intros _ predicate; discriminate | reflexivity].
Qed.

(** The filter evaluation of the code decides the filter of the
    specification. *)
Lemma matches_iff_passes (m : AgentMessage) (fc : option SubscriptionFilter) :
  message_matches_filter re_search m fc = Returns true <-> passes m fc.
Proof.
  destruct fc as [f|]; [|split; [intros _; exact I | reflexivity]].
  unfold message_matches_filter, passes, filter_passes. split.
  - intros H.
    destruct (type_rejected m f) eqn:E1; [discriminate|].
    destruct (priority_rejected m f) eqn:E2; [discriminate|].
    destruct (keywords_rejected m f) eqn:E3; [discriminate|].
    destruct (regex_accepts re_search m f) as [[|]|e] eqn:E4;
      cbn [bind_outcome negb] in H; try discriminate.
    destruct (senders_rejected m f) eqn:E5; [discriminate|].
    destruct (roles_rejected m f) eqn:E6; [discriminate|].
    destruct (metadata_rejected m f) eqn:E7; [discriminate|].
    destruct (custom_accepts m f) eqn:E8; [|discriminate].
    apply senders_spec in E5 as [E5 E5']. apply roles_spec in E6 as [E6 E6'].
    split; [apply type_spec, E1|]. split; [apply priority_spec, E2|].
    split; [apply keywords_spec, E3|]. split; [apply regex_spec, E4|].
    split; [exact E5|]. split; [exact E5'|]. split; [exact E6|]. split; [exact E6'|].
    split; [apply metadata_spec, E7 | apply custom_spec, E8].
  - intros (H1 & H2 & H3 & H4 & H5 & H5' & H6 & H6' & H7 & H8).
    rewrite (proj2 (type_spec m f) H1), (proj2 (priority_spec m f) H2),
      (proj2 (keywords_spec m f) H3), (proj2 (regex_spec m f) H4).
    cbn [bind_outcome negb].
    rewrite (proj2 (senders_spec m f) (conj H5 H5')),
      (proj2 (roles_spec m f) (conj H6 H6')), (proj2 (metadata_spec m f) H7),
      (proj2 (custom_spec m f) H8).
    reflexivity.
Qed.

(** A filter evaluation raises exactly when the criteria before the
    regular expression are met and the search of the expression raises. *)
Lemma matches_raises_iff (m : AgentMessage) (f : SubscriptionFilter) (e : exn) :
  message_matches_filter re_search m (Some f) = Raises e <->
  type_rejected m f = false /\ priority_rejected m f = false
  /\ keywords_rejected m f = false
  /\ exists pattern, content_regex f = Some pattern /\ pattern <> EmptyString
                     /\ re_search pattern (content m) = Raises e.
Proof.
  unfold message_matches_filter.
  destruct (type_rejected m f); [split; [discriminate | intros [? _]; discriminate]|].
  destruct (priority_rejected m f);
    [split; [discriminate | intros (_ & ? & _); discriminate]|].
  destruct (keywords_rejected m f);
    [split; [discriminate | intros (_ & _ & ? & _); discriminate]|].
  unfold regex_accepts. destruct (content_regex f) as [pattern|]; cbn [bind_outcome negb].
  - destruct pattern as [|c pattern]; cbn [Str.is_empty bind_outcome negb].
    + split.
      * destruct (senders_rejected m f); [discriminate|].
        destruct (roles_rejected m f); [discriminate|].
        destruct (metadata_rejected m f); discriminate.
      * intros (_ & _ & _ & p & [= <-] & Hne & _). congruence.
    + destruct (re_search (String c pattern) (content m)) as [found|e'] eqn:Hsearch;
        cbn [bind_outcome].
      * split; [|intros (_ & _ & _ & p & [= <-] & _ & Hp); congruence].
        destruct found; cbn [negb]; [|discriminate].
        destruct (senders_rejected m f); [discriminate|].
        destruct (roles_rejected m f); [discriminate|].
        destruct (metadata_rejected m f); discriminate.
      * split.
        -- intros [= ->]. repeat split. exists (String c pattern).
           split; [reflexivity|]. split; [discriminate | exact Hsearch].
        -- intros (_ & _ & _ & p & [= <-] & _ & Hp). congruence.
  - split; [|intros (_ & _ & _ & p & Hp & _); discriminate].
    destruct (senders_rejected m f); [discriminate|].
    destruct (roles_rejected m f); [discriminate|].
    destruct (metadata_rejected m f); discriminate.
Qed.

End Matching.

(** A filter on the keywords urgent and important, and nothing else. *)
Definition keyword_filter : SubscriptionFilter :=
{| message_types := None; min_priority := None;
   content_keywords := Some ["urgent"; "important"]; content_regex := None;
   allowed_senders := None; blocked_senders := None;
   allowed_roles := None; blocked_roles := None;
   metadata_filters := None; custom_filter := None |}.

Definition ops_message (text : string) : AgentMessage :=
{| id := 1; timestamp := 1700000000%Z; sender_id := "agent-1";
   sender_name := "Agent 1"; sender_role := "operator"; message_type := TEXT;
   priority := NORMAL; content := text; Message.topic := "ops";
   reply_to := None; metadata := ∅; tags := []; correlation_id := None;
   requires_response := false; response_timeout := None; ttl := None;
   retry_count := 0; max_retries := 3 |}.

(** A manager in which agent-2 follows ["ops"] through [keyword_filter]. *)
Definition ops_manager : SubscriptionManager :=
(subscribe_agent_to_topic empty_manager "agent-2" "ops" CONTENT_FILTERED
   (Some keyword_filter) None).1.

(** A filter on keywords and nothing else. *)
Definition only_keywords (keywords : list string) : SubscriptionFilter :=
{| message_types := None; min_priority := None;
   content_keywords := Some keywords; content_regex := None;
   allowed_senders := None; blocked_senders := None;
   allowed_roles := None; blocked_roles := None;
   metadata_filters := None; custom_filter := None |}.

(** A manager in which agent-2 follows ["ops"] through a filter whose
    regular expression is malformed. *)
Definition malformed_filter : SubscriptionFilter :=
{| message_types := None; min_priority := None;
   content_keywords := None; content_regex := Some "(";
   allowed_senders := None; blocked_senders := None;
   allowed_roles := None; blocked_roles := None;
   metadata_filters := None; custom_filter := None |}.

Definition malformed_manager : SubscriptionManager :=
(subscribe_agent_to_topic empty_manager "agent-2" "ops" CONTENT_FILTERED
   (Some malformed_filter) None).1.

(** The claim of C6 as the specification words it: for every message,
    routing returns the subscriptions of the topic that are active, not
    the sender's own, and whose filter matches. *)
Definition route_returns_the_matching : Prop :=
forall (re_search : string -> string -> outcome bool)
       (mgr : SubscriptionManager) (m : AgentMessage),
  exists mgr' routed,
    route_message re_search mgr m = (mgr', Returns routed)
    /\ forall r, r ∈ routed <->
         r ∈ get_topic_subscribers mgr (Message.topic m)
         /\ exists sub, objects mgr !! r = Some sub
              /\ active sub = true
              /\ agent_id sub <> sender_id m
              /\ passes re_search m (filter_criteria sub).

(** Claim C6, counterexample. The regular expression of a filter is
    searched outside any [try] block: with a subscription whose pattern is
    malformed, routing a message of the topic raises [re.error] and returns
    no list. *)
Lemma route_message_raises_on_malformed_pattern :
  (route_message checked_search malformed_manager (ops_message "This is URGENT")).2
  = Raises unterminated_subpattern
  /\ ~ route_returns_the_matching.
Proof.
  assert (Hraise : (route_message checked_search malformed_manager
                      (ops_message "This is URGENT")).2
                   = Raises unterminated_subpattern) by (vm_compute; reflexivity).
  split; [exact Hraise|]. intros Hclaim.
  destruct (Hclaim checked_search malformed_manager (ops_message "This is URGENT"))
    as (mgr' & routed & Hrun & _).
  rewrite Hrun in Hraise. discriminate.
Qed.

(** Claim C6, amended. A filter matches a message exactly when every
    criterion it gives is met ([passes]): the message type is among the
    given types, the priority is not below the minimum in the order
    low < normal < high < urgent, some listed keyword occurs in the content
    as a substring, case ignored, the regular expression is found, the
    sender and its role are among the allowed and not among the blocked
    ones, every metadata entry is present, and the custom predicate returns
    true. When no filter that is evaluated raises, routing a message
    returns, in registration order, exactly the subscriptions listed under
    the message's topic that are active, belong to another agent than the
    sender, and whose filter matches; a topic without subscriptions yields
    the empty list. Every returned subscription has its message counter
    raised by one per listing (by exactly one when the topic lists it once)
    and its last-delivered timestamp set to the message's; all other
    subscriptions are untouched. When the filter of an evaluated
    subscription raises, which only the search of its regular expression
    does, routing raises the exception of the first such filter; one of the
    two cases applies to every list. The filter on urgent and important
    matches the content "This is URGENT" and does not match
    "routine update". *)
Theorem route_message_deliveries :
  forall (re_search : string -> string -> outcome bool)
         (mgr : SubscriptionManager) (m : AgentMessage),
    (forall fc, message_matches_filter re_search m fc = Returns true
                <-> passes re_search m fc)
    /\ (forall keywords, keywords <> [] ->
          (message_matches_filter re_search m (Some (only_keywords keywords))
           = Returns true
           <-> exists k, k ∈ keywords /\ keyword_occurs k (content m))
          /\ exists b, message_matches_filter re_search m (Some (only_keywords keywords))
                       = Returns b)
    /\ (subscriptions mgr !! Message.topic m = None ->
        route_message re_search mgr m = (mgr, Returns []))
    /\ (forall refs,
          subscriptions mgr !! Message.topic m = Some refs ->
          evaluated_filters_return re_search m (objects mgr) refs ->
          exists mgr' routed,
            route_message re_search mgr m = (mgr', Returns routed)
            /\ routed = List.filter (deliverable re_search m (objects mgr)) refs
            /\ (forall r, r ∈ routed <->
                   r ∈ refs
                   /\ exists sub, objects mgr !! r = Some sub
                        /\ active sub = true
                        /\ agent_id sub <> sender_id m
                        /\ passes re_search m (filter_criteria sub))
            /\ (forall r sub,
                   r ∈ routed -> objects mgr !! r = Some sub ->
                   exists sub', objects mgr' !! r = Some sub'
                     /\ message_count sub'
                        = (message_count sub + Z.of_nat (deliveries r routed))%Z
                     /\ 0 < deliveries r routed
                     /\ (NoDup refs -> deliveries r routed = 1)
                     /\ last_message_at sub' = Some (timestamp m))
            /\ (forall r, r ∉ routed -> objects mgr' !! r = objects mgr !! r)
            /\ subscriptions mgr' = subscriptions mgr)
    /\ (forall before r after sub e,
          subscriptions mgr !! Message.topic m = Some (before ++ r :: after)%list ->
          evaluated_filters_return re_search m (objects mgr) before ->
          objects mgr !! r = Some sub -> evaluated m sub ->
          message_matches_filter re_search m (filter_criteria sub) = Raises e ->
          (route_message re_search mgr m).2 = Raises e
          /\ exists pattern, content_regex <$> filter_criteria sub = Some (Some pattern)
                             /\ re_search pattern (content m) = Raises e)
    /\ (forall refs,
          evaluated_filters_return re_search m (objects mgr) refs
          \/ exists before r after sub e,
               refs = (before ++ r :: after)%list
               /\ evaluated_filters_return re_search m (objects mgr) before
               /\ objects mgr !! r = Some sub /\ evaluated m sub
               /\ message_matches_filter re_search m (filter_criteria sub) = Raises e)
    /\ (content m = "This is URGENT" ->
        message_matches_filter re_search m (Some keyword_filter) = Returns true)
    /\ (content m = "routine update" ->
        message_matches_filter re_search m (Some keyword_filter) = Returns false).
Proof.
  intros re_search mgr m. split; [|split; [|split; [|split; [|split; [|split; [|split]]]]]].
  - intros fc. apply matches_iff_passes.
  - intros keywords Hne. split.
    + rewrite matches_iff_passes. unfold passes, filter_passes, only_keywords.
      cbn [message_types min_priority content_keywords content_regex allowed_senders
           blocked_senders allowed_roles blocked_roles metadata_filters custom_filter].
      split.
      * intros (_ & _ & Hk & _). exact (Hk keywords eq_refl Hne).
      * intros Hk. repeat split; try discriminate. intros ks [= <-] _. exact Hk.
    + destruct (message_matches_filter re_search m (Some (only_keywords keywords)))
        as [b|e] eqn:Hm; [exists b; reflexivity|].
      apply matches_raises_iff in Hm as (_ & _ & _ & pattern & Hp & _). discriminate.
  - intros Hnone. unfold route_message. rewrite Hnone. reflexivity.
  - intros refs Hrefs Hret.
    destruct (route_loop_returns_evaluated re_search m refs (objects mgr) [] Hret)
      as (objs' & Hloop & Hobjs).
    cbn [app] in Hloop.
    exists (with_objects mgr objs'),
           (List.filter (deliverable re_search m (objects mgr)) refs).
    split; [unfold route_message; rewrite Hrefs, Hloop; reflexivity|].
    split; [reflexivity|]. split; [|split; [|split]].
    + intros r. rewrite filter_elem_of, deliverable_iff.
      split; intros (Hin & sub & Hsub & Hact & Hother & Hmatch);
        (split; [exact Hin|]; exists sub; repeat split; try assumption;
         apply matches_iff_passes; exact Hmatch).
    + intros r sub Hin Hsub. cbn [with_objects objects]. rewrite Hobjs, Hsub.
      exists (Nat.iter
                (deliveries r (List.filter (deliverable re_search m (objects mgr)) refs))
                (delivered m) sub).
      split; [reflexivity|]. split; [apply delivered_iter_count|].
      pose proof (deliveries_present r _ Hin) as Hpos.
      split; [exact Hpos|]. split.
      * intros Hnd. apply deliveries_NoDup; [apply filter_NoDup, Hnd | exact Hin].
      * apply delivered_iter_stamp, Hpos.
    + intros r Hout. cbn [with_objects objects].
      rewrite Hobjs, (deliveries_absent r _ Hout).
      destruct (objects mgr !! r); reflexivity.
    + reflexivity.
  - intros before r after sub e Hrefs Hret Hsub Hev Hraise. split.
    + pose proof (route_loop_raises re_search m before (objects mgr) [] r after sub e
                    Hret Hsub Hev Hraise) as Hloop.
      unfold route_message. rewrite Hrefs.
      destruct (route_loop re_search m (before ++ r :: after) (objects mgr) [])
        as [objs' result]. exact Hloop.
    + destruct (filter_criteria sub) as [f|]; [|discriminate].
      apply matches_raises_iff in Hraise as (_ & _ & _ & pattern & Hp & _ & Hsearch).
      exists pattern. split; [cbn; rewrite Hp; reflexivity | exact Hsearch].
  - intros refs. apply first_raising.
  - intros Hc. unfold message_matches_filter, keywords_rejected. rewrite Hc. reflexivity.
  - intros Hc. unfold message_matches_filter, keywords_rejected. rewrite Hc. reflexivity.
Qed.

Lemma route_message_deliveries_witness :
  exists mgr',
    route_message literal_search ops_manager (ops_message "This is URGENT")
    = (mgr', Returns [0])
    /\ (message_count <$> objects mgr' !! 0) = Some 1%Z
    /\ message_matches_filter literal_search (ops_message "routine update")
         (Some keyword_filter) = Returns false.
Proof.
  pose proof (route_message_deliveries literal_search ops_manager
                (ops_message "This is URGENT")) as (_ & _ & _ & Hroute & _).
  pose proof (route_message_deliveries literal_search ops_manager
                (ops_message "routine update")) as (_ & _ & _ & _ & _ & _ & _ & Hroutine).
  destruct (Hroute [0]) as (mgr' & routed & Hrun & Hrouted & _ & Hcount & _).
  - reflexivity.
  - intros r sub Hin Hsub _. apply list_elem_of_singleton in Hin. subst r.
    vm_compute in Hsub. injection Hsub as <-. exists true. reflexivity.
  - assert (Hr : routed = [0]) by (rewrite Hrouted; reflexivity). subst routed.
    exists mgr'. split; [exact Hrun|]. split; [|apply Hroutine; reflexivity].
    destruct (Hcount 0 _ (list_elem_of_here _ _) eq_refl) as (sub' & Hsub' & Hc & _).
    transitivity (message_count <$> Some sub'); [f_equal; exact Hsub'|].
    simpl. rewrite Hc. reflexivity.
Defined.

Lemma filter_all {A} (p : A -> bool) (l : list A) :
  (forall x, x ∈ l -> p x = true) -> List.filter p l = l.
Proof.
  induction l as [|x l IH]; intros H; [reflexivity|]. simpl.
  rewrite (H x) by left. f_equal. apply IH. intros y Hy. apply H. right. exact Hy.
Qed.

Lemma unsubscribe_result (mgr : SubscriptionManager) (agent t : string) :
  (unsubscribe_agent_from_topic mgr agent t).2
  = bool_decide (is_Some (subscriptions mgr !! t)).
Proof.
  unfold unsubscribe_agent_from_topic.
  destruct (subscriptions mgr !! t) as [refs|]; reflexivity.
Qed.

(** Unsubscribing an agent that has no subscription among those listed
    under the topic leaves the listing as it is. *)
Lemma unsubscribe_stranger (mgr : SubscriptionManager) (agent t : string)
  (refs : list ref) :
  subscriptions mgr !! t = Some refs -> refs <> [] ->
  (forall r sub, r ∈ refs -> objects mgr !! r = Some sub -> agent_id sub <> agent) ->
  subscriptions (unsubscribe_agent_from_topic mgr agent t).1 = subscriptions mgr.
Proof.
  intros Hrefs Hne Hother. unfold unsubscribe_agent_from_topic. rewrite Hrefs.
  cbn [fst subscriptions]. rewrite filter_all.
  - destruct refs; [congruence|]. unfold store_or_delete. apply insert_id, Hrefs.
  - intros r Hin. unfold holds. destruct (objects mgr !! r) as [sub|] eqn:Hr; [|reflexivity].
    rewrite (bool_decide_eq_false_2 _ (Hother r sub Hin Hr)). reflexivity.
Qed.

(** An agent without any subscription in [ops_manager]. *)
Definition stranger : string := "agent-9".

(** Claim C10. Unsubscribing reports whether the topic was present in the
    registry, not whether a subscription of the agent was removed: the
    result is true whenever at least one subscription, of any agent, is
    listed under the topic, also when none of them belongs to the given
    agent (the listing is then unchanged); the result is false only when
    the topic lists no subscription at all. *)
Theorem unsubscribe_reports_topic_presence :
  forall (mgr : SubscriptionManager) (agent t : string),
    let removed := (unsubscribe_agent_from_topic mgr agent t).2 in
    (removed = true <-> is_Some (subscriptions mgr !! t))
    /\ ((exists r, r ∈ get_topic_subscribers mgr t) -> removed = true)
    /\ (removed = false -> get_topic_subscribers mgr t = [])
    /\ ((exists r, r ∈ get_topic_subscribers mgr t) ->
        (forall r sub, r ∈ get_topic_subscribers mgr t ->
                       objects mgr !! r = Some sub -> agent_id sub <> agent) ->
        removed = true
        /\ subscriptions (unsubscribe_agent_from_topic mgr agent t).1
           = subscriptions mgr).
Proof.
  intros mgr agent t removed. unfold removed, get_topic_subscribers.
  rewrite unsubscribe_result, bool_decide_eq_true.
  destruct (subscriptions mgr !! t) as [refs|] eqn:Hrefs; cbn [default].
  - assert (Hsome : is_Some (Some refs)) by eauto.
    split; [tauto|]. split; [auto|]. split.
    + rewrite bool_decide_eq_false. tauto.
    + intros [r Hr] Hother. split; [exact Hsome|].
      apply (unsubscribe_stranger mgr agent t refs Hrefs); [|exact Hother].
      intros ->. inversion Hr.
  - split; [tauto|]. split; [intros [r Hr]; inversion Hr|]. split; [reflexivity|].
    intros [r Hr]. inversion Hr.
Qed.

Lemma unsubscribe_reports_topic_presence_witness :
  (unsubscribe_agent_from_topic ops_manager stranger "ops").2 = true
  /\ subscriptions (unsubscribe_agent_from_topic ops_manager stranger "ops").1
     = subscriptions ops_manager
  /\ get_topic_subscribers ops_manager "news" = [].
Proof.
  pose proof (unsubscribe_reports_topic_presence ops_manager stranger "ops")
    as (_ & _ & _ & Hstranger).
  pose proof (unsubscribe_reports_topic_presence ops_manager stranger "news")
    as (_ & _ & Hnews & _).
  assert (Hlist : get_topic_subscribers ops_manager "ops" = [0]) by reflexivity.
  destruct Hstranger as [Htrue Hsame].
  - exists 0. rewrite Hlist. left.
  - intros r sub Hin Hsub. rewrite Hlist in Hin.
    apply list_elem_of_singleton in Hin. subst r.
    vm_compute in Hsub. injection Hsub as <-. discriminate.
  - split; [exact Htrue|]. split; [exact Hsame|]. apply Hnews. reflexivity.
Defined.

(** *** Further properties of the subscription manager *)

Lemma filter_filter_bool {A} (p q : A -> bool) (l : list A) :
  List.filter p (List.filter q l) = List.filter (fun x => q x && p x) l.
Proof.
  induction l as [|x l IH]; [reflexivity|]. simpl.
  destruct (q x); simpl; [destruct (p x)|]; rewrite IH; reflexivity.
Qed.

Lemma find_subscription_some (objs : gmap ref TopicSubscription) (refs : list ref)
  (t : string) (r : ref) :
  find_subscription objs refs t = Some r ->
  r ∈ refs /\ exists sub, objs !! r = Some sub /\ SubscriptionManager.topic sub = t.
Proof.
  induction refs as [|x refs IH]; simpl; [discriminate|].
  unfold holds at 1. destruct (objs !! x) as [sub|] eqn:Hx.
  - case_bool_decide as Ht.
    + intros [= <-]. split; [left | eauto].
    + intros H. destruct (IH H) as [Hin Hsub]. split; [right; exact Hin | exact Hsub].
  - intros H. destruct (IH H) as [Hin Hsub]. split; [right; exact Hin | exact Hsub].
Qed.

Lemma find_subscription_alter (objs : gmap ref TopicSubscription) (refs : list ref)
  (t : string) (r : ref) (f : TopicSubscription -> TopicSubscription) :
  (forall sub, SubscriptionManager.topic (f sub) = SubscriptionManager.topic sub) ->
  find_subscription (alter f r objs) refs t = find_subscription objs refs t.
Proof.
  intros Hf. induction refs as [|x refs IH]; [reflexivity|]. simpl. rewrite IH.
  unfold holds. rewrite lookup_alter. case_decide as Hx; [|reflexivity].
  subst x. destruct (objs !! r) as [sub|]; simpl; [rewrite Hf|]; reflexivity.
Qed.

Section Pausing.
Variable re_search : string -> string -> outcome bool.

Lemma deliverable_paused (m : AgentMessage) (objs : gmap ref TopicSubscription)
  (r x : ref) :
  deliverable re_search m (alter (set_active false) r objs) x
  = deliverable re_search m objs x && negb (Nat.eqb x r).
Proof.
  unfold deliverable, holds. rewrite lookup_alter. case_decide as Hx.
  - subst x. rewrite Nat.eqb_refl, andb_false_r.
    destruct (objs !! r); reflexivity.
  - destruct (Nat.eqb_spec x r); [congruence|]. rewrite andb_true_r. reflexivity.
Qed.

Lemma filters_return_alter (m : AgentMessage) (objs : gmap ref TopicSubscription)
  (refs : list ref) (r : ref) (f : TopicSubscription -> TopicSubscription) :
  (forall sub, filter_criteria (f sub) = filter_criteria sub) ->
  filters_return re_search m objs refs ->
  filters_return re_search m (alter f r objs) refs.
Proof.
  intros Hf Hret x sub Hin. rewrite lookup_alter. case_decide as Hx.
  - subst x. destruct (objs !! r) as [sub0|] eqn:Hr; [|discriminate].
    intros [= <-]. rewrite Hf. exact (Hret r sub0 Hin Hr).
  - apply Hret, Hin.
Qed.

End Pausing.

(** Extra X16. Pausing a subscription through the agent's list takes it
    out of the routing through the topic's list — both lists refer to the
    same subscription object: every later routing returns what it would
    have returned, without the paused subscription. Resuming a subscription
    that was active before it was paused gives back the manager. *)
Theorem paused_subscription_is_skipped :
  forall (re_search : string -> string -> outcome bool)
         (mgr mgr' : SubscriptionManager) (agent t : string),
    pause_subscription mgr agent t = (mgr', true) ->
    exists r sub,
      r ∈ get_agent_subscriptions mgr agent
      /\ objects mgr !! r = Some sub /\ SubscriptionManager.topic sub = t
      /\ objects mgr' !! r = Some (set_active false sub)
      /\ (forall m refs,
            subscriptions mgr !! Message.topic m = Some refs ->
            filters_return re_search m (objects mgr) refs ->
            exists mgr1 mgr2 routed,
              route_message re_search mgr m = (mgr1, Returns routed)
              /\ route_message re_search mgr' m
                 = (mgr2, Returns (List.filter (fun x => negb (Nat.eqb x r)) routed)))
      /\ (active sub = true -> resume_subscription mgr' agent t = (mgr, true)).
Proof.
  intros re_search mgr mgr' agent t. unfold pause_subscription, assign.
  destruct (find_subscription (objects mgr) (get_agent_subscriptions mgr agent) t)
    as [r|] eqn:Hfind; [|discriminate].
  intros [= <-]. destruct (find_subscription_some _ _ _ _ Hfind) as (Hin & sub & Hsub & Ht).
  exists r, sub. split; [exact Hin|]. split; [exact Hsub|]. split; [exact Ht|].
  cbn [objects]. split.
  { transitivity (set_active false <$> Some sub); [|reflexivity].
    rewrite lookup_alter_eq. f_equal. exact Hsub. }
  split.
  - intros m refs Hrefs Hret.
    destruct (route_message_returns re_search mgr m refs Hrefs Hret) as (o1 & Hrun1 & _).
    destruct (route_message_returns re_search
                {| objects := alter (set_active false) r (objects mgr);
                   next_ref := next_ref mgr; subscriptions := subscriptions mgr;
                   agent_subscriptions := agent_subscriptions mgr;
                   message_handlers := message_handlers mgr |} m refs Hrefs)
      as (o2 & Hrun2 & _).
    { change (filters_return re_search m (alter (set_active false) r (objects mgr)) refs).
      apply filters_return_alter; [reflexivity | exact Hret]. }
    eexists _, _, _. split; [exact Hrun1|]. rewrite Hrun2. cbn [objects]. f_equal. f_equal.
    rewrite filter_filter_bool. apply filter_ext. intros x. apply deliverable_paused.
  - intros Hact. unfold resume_subscription, assign, get_agent_subscriptions in *.
    cbn [objects agent_subscriptions].
    rewrite find_subscription_alter by reflexivity. rewrite Hfind.
    f_equal. destruct mgr as [objs nxt subs asubs handlers]. cbn in *. f_equal.
    rewrite alter_alter_eq. apply alter_id. intros sub' Hsub'.
    rewrite Hsub in Hsub'. injection Hsub' as <-.
    destruct sub. cbn in *. subst. reflexivity.
Qed.

Lemma paused_subscription_is_skipped_witness :
  exists mgr',
    pause_subscription ops_manager "agent-2" "ops" = (mgr', true)
    /\ exists mgr2, route_message literal_search mgr' (ops_message "This is URGENT")
                    = (mgr2, Returns []).
Proof.
  destruct (pause_subscription ops_manager "agent-2" "ops") as [mgr' found] eqn:Hpause.
  assert (Hfound : found = true) by (vm_compute in Hpause; congruence). subst found.
  exists mgr'. split; [reflexivity|].
  destruct (paused_subscription_is_skipped literal_search ops_manager mgr'
              "agent-2" "ops" Hpause) as (r & sub & Hin & _ & _ & _ & Hroute & _).
  assert (Hr : r = 0).
  { change (get_agent_subscriptions ops_manager "agent-2") with [0] in Hin.
    apply list_elem_of_singleton in Hin. exact Hin. }
  subst r.
  destruct (Hroute (ops_message "This is URGENT") [0]) as (mgr1 & mgr2 & routed & H1 & H2).
  - reflexivity.
  - intros x s Hx Hs. apply list_elem_of_singleton in Hx. subst x.
    vm_compute in Hs. injection Hs as <-. exists true. reflexivity.
  - assert (Hrouted : routed = [0]) by (vm_compute in H1; congruence). subst routed.
    exists mgr2. exact H2.
Defined.

(** An index (by topic or by agent) lists its subscriptions well: no empty
    list, no reference twice, every reference allocated, with its object,
    and the object filed under its own key. *)
Definition listed_well (objs : gmap ref TopicSubscription) (nxt : ref)
  (index : gmap string (list ref)) (key_of : TopicSubscription -> string) : Prop :=
forall k refs, index !! k = Some refs ->
  refs <> [] /\ NoDup refs
  /\ forall r, r ∈ refs -> r < nxt /\ exists sub, objs !! r = Some sub /\ key_of sub = k.

Definition well_formed (mgr : SubscriptionManager) : Prop :=
listed_well (objects mgr) (next_ref mgr) (subscriptions mgr) SubscriptionManager.topic
/\ listed_well (objects mgr) (next_ref mgr) (agent_subscriptions mgr) agent_id.

Lemma listed_well_append (objs : gmap ref TopicSubscription) (nxt : ref)
  (index : gmap string (list ref)) (key_of : TopicSubscription -> string)
  (new : TopicSubscription) :
  listed_well objs nxt index key_of ->
  listed_well (<[nxt := new]> objs) (S nxt)
    (<[key_of new := (default [] (index !! key_of new) ++ [nxt])%list]> index) key_of.
Proof.
  intros Hw k refs. rewrite lookup_insert. case_decide as Hk.
  - intros [= <-]. subst k.
    assert (Hold : NoDup (default [] (index !! key_of new))
                   /\ forall r, r ∈ default [] (index !! key_of new) ->
                        r < nxt /\ exists sub, objs !! r = Some sub
                                               /\ key_of sub = key_of new).
    { destruct (index !! key_of new) as [old|] eqn:Hold; simpl.
      - destruct (Hw _ _ Hold) as (_ & Hnd & Hall). split; assumption.
      - split; [constructor | intros r Hr; inversion Hr]. }
    destruct Hold as [Hnd Hall].
    split; [intros Hnil; apply app_eq_nil in Hnil as [_ Hnil]; discriminate|].
    split.
    + apply NoDup_app. split; [exact Hnd|]. split; [|apply NoDup_singleton].
      intros x Hx Hx'. apply list_elem_of_singleton in Hx'. subst x.
      destruct (Hall nxt Hx) as [Hlt _]. lia.
    + intros r Hr. apply elem_of_app in Hr as [Hr|Hr].
      * destruct (Hall r Hr) as [Hlt (sub & Hsub & Hkey)]. split; [lia|].
        exists sub. rewrite lookup_insert_ne by lia. split; assumption.
      * apply list_elem_of_singleton in Hr. subst r. split; [lia|].
        exists new. rewrite lookup_insert_eq. split; reflexivity.
  - intros Hrefs. destruct (Hw k refs Hrefs) as (Hne & Hnd & Hall).
    split; [exact Hne|]. split; [exact Hnd|]. intros r Hr.
    destruct (Hall r Hr) as [Hlt (sub & Hsub & Hkey)]. split; [lia|].
    exists sub. rewrite lookup_insert_ne by lia. split; assumption.
Qed.

Lemma listed_well_filter (objs : gmap ref TopicSubscription) (nxt : ref)
  (index : gmap string (list ref)) (key_of : TopicSubscription -> string)
  (k : string) (refs : list ref) (p : ref -> bool) :
  index !! k = Some refs ->
  listed_well objs nxt index key_of ->
  listed_well objs nxt (store_or_delete k (List.filter p refs) index) key_of.
Proof.
  intros Hrefs Hw k' refs'. unfold store_or_delete.
  destruct (List.filter p refs) as [|x kept] eqn:Hkept.
  - rewrite lookup_delete. case_decide; [discriminate | apply Hw].
  - rewrite lookup_insert. case_decide as Hk; [|apply Hw].
    intros [= <-]. subst k'. destruct (Hw k refs Hrefs) as (_ & Hnd & Hall).
    split; [discriminate|]. rewrite <- Hkept.
    split; [apply filter_NoDup, Hnd|].
    intros r Hr. apply filter_elem_of in Hr as [Hr _]. apply Hall, Hr.
Qed.

Lemma listed_well_objects (objs objs' : gmap ref TopicSubscription) (nxt : ref)
  (index : gmap string (list ref)) (key_of : TopicSubscription -> string) :
  (forall r sub, objs !! r = Some sub ->
                 exists sub', objs' !! r = Some sub' /\ key_of sub' = key_of sub) ->
  listed_well objs nxt index key_of -> listed_well objs' nxt index key_of.
Proof.
  intros Hsame Hw k refs Hrefs. destruct (Hw k refs Hrefs) as (Hne & Hnd & Hall).
  split; [exact Hne|]. split; [exact Hnd|]. intros r Hr.
  destruct (Hall r Hr) as [Hlt (sub & Hsub & Hkey)]. split; [exact Hlt|].
  destruct (Hsame r sub Hsub) as (sub' & Hsub' & Hkey').
  exists sub'. split; [exact Hsub' | congruence].
Qed.

Lemma route_loop_identity (re_search : string -> string -> outcome bool)
  (m : AgentMessage) (refs : list ref) :
  forall (objs : gmap ref TopicSubscription) (matching : list ref) (r : ref)
         (sub : TopicSubscription),
    objs !! r = Some sub ->
    exists sub', (route_loop re_search m refs objs matching).1 !! r = Some sub'
                 /\ SubscriptionManager.topic sub' = SubscriptionManager.topic sub
                 /\ agent_id sub' = agent_id sub.
Proof.
  induction refs as [|x refs IH]; intros objs matching r sub Hr; cbn [route_loop].
  - exists sub. split; [exact Hr | split; reflexivity].
  - destruct (objs !! x) as [sx|] eqn:Hx; [|apply IH, Hr].
    destruct (negb (active sx)); [apply IH, Hr|].
    case_bool_decide; [apply IH, Hr|].
    destruct (message_matches_filter re_search m (filter_criteria sx)) as [[|]|e].
    + destruct (decide (x = r)) as [->|Hne].
      * destruct (IH (<[r := delivered m sx]> objs) (matching ++ [r])%list r
                    (delivered m sx)) as (sub' & Hsub' & Ht & Ha);
          [apply lookup_insert_eq|].
        exists sub'. split; [exact Hsub'|].
        assert (sx = sub) by congruence. subst sx. split; [exact Ht | exact Ha].
      * apply IH. rewrite lookup_insert_ne by exact Hne. exact Hr.
    + apply IH, Hr.
    + exists sub. split; [exact Hr | split; reflexivity].
Qed.

Lemma alter_identity (objs : gmap ref TopicSubscription) (x : ref)
  (f : TopicSubscription -> TopicSubscription) (key_of : TopicSubscription -> string) :
  (forall sub, key_of (f sub) = key_of sub) ->
  forall r sub, objs !! r = Some sub ->
    exists sub', alter f x objs !! r = Some sub' /\ key_of sub' = key_of sub.
Proof.
  intros Hf r sub Hr. rewrite lookup_alter. case_decide as Hx.
  - subst x. exists (f sub). split; [|apply Hf].
    transitivity (f <$> Some sub); [f_equal; exact Hr | reflexivity].
  - exists sub. split; [exact Hr | reflexivity].
Qed.

Lemma assign_well_formed (mgr : SubscriptionManager) (agent t : string)
  (f : TopicSubscription -> TopicSubscription) :
  (forall sub, SubscriptionManager.topic (f sub) = SubscriptionManager.topic sub) ->
  (forall sub, agent_id (f sub) = agent_id sub) ->
  well_formed mgr -> well_formed (assign mgr agent t f).1.
Proof.
  intros Ht Ha [Hw1 Hw2]. unfold assign.
  destruct (find_subscription (objects mgr) (get_agent_subscriptions mgr agent) t) as [r|];
    cbn [fst]; [|split; assumption].
  split; cbn [objects next_ref subscriptions agent_subscriptions].
  - eapply listed_well_objects; [|exact Hw1]. apply alter_identity, Ht.
  - eapply listed_well_objects; [|exact Hw2]. apply alter_identity, Ha.
Qed.

Section Reachability.
Variable re_search : string -> string -> outcome bool.

(** The states of a manager: those built from the empty manager by its
    operations. *)
Inductive reachable : SubscriptionManager -> Prop :=
| reachable_empty : reachable empty_manager
| reachable_subscribe mgr agent t stype fc h :
    reachable mgr -> reachable (subscribe_agent_to_topic mgr agent t stype fc h).1
| reachable_unsubscribe mgr agent t :
    reachable mgr -> reachable (unsubscribe_agent_from_topic mgr agent t).1
| reachable_route mgr m :
    reachable mgr -> reachable (route_message re_search mgr m).1
| reachable_pause mgr agent t :
    reachable mgr -> reachable (pause_subscription mgr agent t).1
| reachable_resume mgr agent t :
    reachable mgr -> reachable (resume_subscription mgr agent t).1
| reachable_update mgr agent t fc :
    reachable mgr -> reachable (update_subscription_filter mgr agent t fc).1.

Lemma reachable_is_well_formed (mgr : SubscriptionManager) :
  reachable mgr -> well_formed mgr.
Proof.
  induction 1 as [|mgr agent t stype fc h _ [Hw1 Hw2]|mgr agent t _ [Hw1 Hw2]
                  |mgr m _ [Hw1 Hw2]|mgr agent t _ IH|mgr agent t _ IH|mgr agent t fc _ IH].
  - split; intros k refs Hk;
      cbn [empty_manager subscriptions agent_subscriptions] in Hk;
      rewrite lookup_empty in Hk; discriminate.
  - unfold subscribe_agent_to_topic; cbn [fst]. split;
      cbn [objects next_ref subscriptions agent_subscriptions].
    + match goal with
      | |- listed_well (<[_ := ?new]> _) _ _ _ =>
          exact (listed_well_append _ _ _ SubscriptionManager.topic new Hw1)
      end.
    + match goal with
      | |- listed_well (<[_ := ?new]> _) _ _ _ =>
          exact (listed_well_append _ _ _ agent_id new Hw2)
      end.
  - unfold unsubscribe_agent_from_topic.
    destruct (subscriptions mgr !! t) as [refs|] eqn:Hrefs;
      destruct (agent_subscriptions mgr !! agent) as [arefs|] eqn:Harefs;
      cbn [fst]; split; cbn [objects next_ref subscriptions agent_subscriptions];
      first [ assumption
            | apply (listed_well_filter _ _ _ _ _ refs); assumption
            | apply (listed_well_filter _ _ _ _ _ arefs); assumption ].
  - unfold route_message. destruct (subscriptions mgr !! Message.topic m) as [refs|];
      [|split; assumption].
    pose proof (route_loop_identity re_search m refs (objects mgr) []) as Hid.
    destruct (route_loop re_search m refs (objects mgr) []) as [objs' result].
    cbn [fst] in *. unfold with_objects. split;
      cbn [objects next_ref subscriptions agent_subscriptions].
    + eapply listed_well_objects; [|exact Hw1]. intros r sub Hr.
      destruct (Hid r sub Hr) as (sub' & Hsub' & Ht & _). eauto.
    + eapply listed_well_objects; [|exact Hw2]. intros r sub Hr.
      destruct (Hid r sub Hr) as (sub' & Hsub' & _ & Ha). eauto.
  - apply assign_well_formed; [reflexivity | reflexivity | exact IH].
  - apply assign_well_formed; [reflexivity | reflexivity | exact IH].
  - apply assign_well_formed; [reflexivity | reflexivity | exact IH].
Qed.

End Reachability.

(** Extra X17. In every state a manager reaches, each topic and each agent
    lists its subscriptions without an empty list and without a reference
    twice, and every listed reference has its subscription object, filed
    under its own topic (agent). Hence in such a state unsubscribing
    returns false exactly when the topic has no subscriber. *)
Theorem reachable_manager_is_well_formed :
  forall (re_search : string -> string -> outcome bool) (mgr : SubscriptionManager),
    reachable re_search mgr ->
    (forall t r, r ∈ get_topic_subscribers mgr t ->
                 exists sub, objects mgr !! r = Some sub
                             /\ SubscriptionManager.topic sub = t)
    /\ (forall agent r, r ∈ get_agent_subscriptions mgr agent ->
                        exists sub, objects mgr !! r = Some sub /\ agent_id sub = agent)
    /\ (forall t, NoDup (get_topic_subscribers mgr t))
    /\ (forall agent, NoDup (get_agent_subscriptions mgr agent))
    /\ (forall agent t,
          (unsubscribe_agent_from_topic mgr agent t).2 = false
          <-> get_topic_subscribers mgr t = []).
Proof.
  intros re_search mgr Hreach.
  destruct (reachable_is_well_formed re_search mgr Hreach) as [Hw1 Hw2].
  unfold get_topic_subscribers, get_agent_subscriptions.
  split; [|split; [|split; [|split]]].
  - intros t r. destruct (subscriptions mgr !! t) as [refs|] eqn:Hrefs; simpl.
    + intros Hr. destruct (Hw1 t refs Hrefs) as (_ & _ & Hall). apply (Hall r Hr).
    + intros Hr. inversion Hr.
  - intros agent r. destruct (agent_subscriptions mgr !! agent) as [refs|] eqn:Hrefs; simpl.
    + intros Hr. destruct (Hw2 agent refs Hrefs) as (_ & _ & Hall). apply (Hall r Hr).
    + intros Hr. inversion Hr.
  - intros t. destruct (subscriptions mgr !! t) as [refs|] eqn:Hrefs; simpl.
    + apply (Hw1 t refs Hrefs).
    + constructor.
  - intros agent. destruct (agent_subscriptions mgr !! agent) as [refs|] eqn:Hrefs; simpl.
    + apply (Hw2 agent refs Hrefs).
    + constructor.
  - intros agent t. rewrite unsubscribe_result, bool_decide_eq_false.
    destruct (subscriptions mgr !! t) as [refs|] eqn:Hrefs; simpl.
    + destruct (Hw1 t refs Hrefs) as (Hne & _). split; [|contradiction].
      intros Hnot. exfalso. apply Hnot. eauto.
    + split; [reflexivity|]. intros _ [x Hx]. discriminate.
Qed.

Lemma reachable_manager_is_well_formed_witness :
  NoDup (get_topic_subscribers ops_manager "ops")
  /\ (unsubscribe_agent_from_topic ops_manager "agent-2" "news").2 = false.
Proof.
  assert (Hreach : reachable literal_search ops_manager)
    by (apply reachable_subscribe, reachable_empty).
  destruct (reachable_manager_is_well_formed literal_search ops_manager Hreach)
    as (_ & _ & Hnd & _ & Hfalse).
  split; [apply Hnd | apply Hfalse; reflexivity].
Defined.

Lemma lookup_store_or_delete {A} (k k' : string) (l : list A)
  (d : gmap string (list A)) :
  default [] (store_or_delete k l d !! k')
  = if decide (k = k') then l else default [] (d !! k').
Proof.
  unfold store_or_delete. destruct l as [|x l].
  - rewrite lookup_delete. case_decide; reflexivity.
  - rewrite lookup_insert. case_decide; reflexivity.
Qed.

(** Extra X18. Unsubscribing keeps, in order, exactly the subscriptions
    listed under the topic that are not the agent's subscriptions to that
    topic; the lists of other topics, and the subscription objects, are
    untouched, and the agent's handler for the topic is gone. *)
Theorem unsubscribe_keeps_the_others :
  forall (mgr : SubscriptionManager) (agent t : string),
    let mgr' := (unsubscribe_agent_from_topic mgr agent t).1 in
    get_topic_subscribers mgr' t
    = List.filter
        (fun r => negb (holds (objects mgr)
                          (fun sub => bool_decide (agent_id sub = agent)
                                      && bool_decide (SubscriptionManager.topic sub = t)) r))
        (get_topic_subscribers mgr t)
    /\ (forall r sub, r ∈ get_topic_subscribers mgr' t -> objects mgr' !! r = Some sub ->
                      ~ (agent_id sub = agent /\ SubscriptionManager.topic sub = t))
    /\ (forall t', t' <> t -> get_topic_subscribers mgr' t' = get_topic_subscribers mgr t')
    /\ objects mgr' = objects mgr
    /\ message_handlers mgr' !! handler_key agent t = None.
Proof.
  intros mgr agent t mgr'.
  assert (Hlist : forall t', get_topic_subscribers mgr' t'
                  = if decide (t = t')
                    then List.filter
                           (fun r => negb (holds (objects mgr)
                              (fun sub => bool_decide (agent_id sub = agent)
                                 && bool_decide (SubscriptionManager.topic sub = t)) r))
                           (get_topic_subscribers mgr t)
                    else get_topic_subscribers mgr t').
  { intros t'. unfold mgr', unsubscribe_agent_from_topic, get_topic_subscribers.
    destruct (subscriptions mgr !! t) as [refs|] eqn:Hrefs; cbn [fst subscriptions].
    - rewrite lookup_store_or_delete. reflexivity.
    - case_decide as Ht; [subst t'; rewrite Hrefs|]; reflexivity. }
  assert (Hobjs : objects mgr' = objects mgr).
  { unfold mgr', unsubscribe_agent_from_topic.
    destruct (subscriptions mgr !! t); reflexivity. }
  split; [rewrite Hlist, decide_True by reflexivity; reflexivity|].
  split; [|split; [|split]].
  - intros r sub. rewrite Hlist, decide_True, Hobjs by reflexivity.
    intros Hin Hsub [Ha Ht]. apply filter_elem_of in Hin as [_ Hkeep].
    unfold holds in Hkeep. rewrite Hsub in Hkeep.
    rewrite !bool_decide_eq_true_2 in Hkeep by assumption. discriminate.
  - intros t' Hne. rewrite Hlist, decide_False by congruence. reflexivity.
  - exact Hobjs.
  - unfold mgr', unsubscribe_agent_from_topic.
    destruct (subscriptions mgr !! t); cbn [fst message_handlers]; apply lookup_delete_eq.
Qed.

Lemma unsubscribe_keeps_the_others_witness :
  let mgr := (subscribe_agent_to_topic empty_manager "agent-1" "ops" ALL_MESSAGES
                None None).1 in
  get_topic_subscribers (unsubscribe_agent_from_topic mgr "agent-2" "builds").1 "ops"
  = get_topic_subscribers mgr "ops".
Proof.
  cbv zeta.
  destruct (unsubscribe_keeps_the_others
              (subscribe_agent_to_topic empty_manager "agent-1" "ops" ALL_MESSAGES
                 None None).1 "agent-2" "builds") as (_ & _ & Hothers & _).
  apply Hothers. discriminate.
Defined.

(** Extra X19. A new subscriber is served from the next message on: after
    a subscription to a topic, routing a message of that topic returns the
    subscriptions it returned before, followed by the new one when the
    sender is another agent and the new filter matches. *)
Theorem new_subscriber_is_routed :
  forall (re_search : string -> string -> outcome bool) (mgr : SubscriptionManager)
         (agent : string) (stype : SubscriptionType) (fc : option SubscriptionFilter)
         (h : option N) (m : AgentMessage) (matches : bool),
    well_formed mgr ->
    filters_return re_search m (objects mgr) (get_topic_subscribers mgr (Message.topic m)) ->
    message_matches_filter re_search m fc = Returns matches ->
    let subscribed := subscribe_agent_to_topic mgr agent (Message.topic m) stype fc h in
    exists objs1 objs2 before,
      (route_message re_search mgr m).2 = Returns before
      /\ route_message re_search subscribed.1 m
         = (with_objects subscribed.1 objs2,
            Returns (before ++ if negb (bool_decide (agent = sender_id m)) && matches
                               then [subscribed.2] else [])%list)
      /\ (route_message re_search mgr m).1 = with_objects mgr objs1.
Proof.
  intros re_search mgr agent stype fc h m matches [Hw _] Hret Hmatch subscribed.
  unfold get_topic_subscribers in Hret.
  set (new := {| SubscriptionManager.topic := Message.topic m; agent_id := agent;
                 subscription_type := stype; filter_criteria := fc; handler := h;
                 active := true; created_at := None; message_count := 0;
                 last_message_at := None |}).
  assert (Hold : forall x, x ∈ default [] (subscriptions mgr !! Message.topic m) ->
                           x <> next_ref mgr).
  { intros x Hx. destruct (subscriptions mgr !! Message.topic m) as [refs|] eqn:Hrefs;
      [|inversion Hx].
    destruct (Hw _ _ Hrefs) as (_ & _ & Hall). destruct (Hall x Hx) as [Hlt _]. lia. }
  destruct (route_message_returns re_search subscribed.1 m
              (default [] (subscriptions mgr !! Message.topic m) ++ [next_ref mgr])%list)
    as (objs2 & Hrun2 & _).
  { unfold subscribed, subscribe_agent_to_topic; cbn [fst subscriptions].
    apply lookup_insert_eq. }
  { unfold subscribed, subscribe_agent_to_topic; cbn [fst objects].
    intros x sub Hx. apply elem_of_app in Hx as [Hx|Hx].
    - rewrite lookup_insert_ne by (intros Heq; exact (Hold x Hx (eq_sym Heq))).
      apply Hret, Hx.
    - apply list_elem_of_singleton in Hx. subst x. rewrite lookup_insert_eq.
      intros [= <-]. exists matches. exact Hmatch. }
  assert (Hfilter :
            List.filter (deliverable re_search m (objects subscribed.1))
              (default [] (subscriptions mgr !! Message.topic m) ++ [next_ref mgr])%list
            = (List.filter (deliverable re_search m (objects mgr))
                 (default [] (subscriptions mgr !! Message.topic m))
               ++ if negb (bool_decide (agent = sender_id m)) && matches
                  then [next_ref mgr] else [])%list).
  { rewrite List.filter_app. f_equal.
    - apply filter_ext_in. intros x Hx. apply list_elem_of_In in Hx.
      unfold deliverable, holds, subscribed, subscribe_agent_to_topic; cbn [fst objects].
      rewrite lookup_insert_ne by (intros Heq; exact (Hold x Hx (eq_sym Heq))).
      reflexivity.
    - cbn [List.filter].
      unfold deliverable, holds, subscribed, subscribe_agent_to_topic; cbn [fst objects].
      rewrite lookup_insert_eq. unfold accepts. cbn [active agent_id filter_criteria].
      rewrite Hmatch. cbn [andb]. reflexivity. }
  rewrite Hfilter in Hrun2.
  destruct (subscriptions mgr !! Message.topic m) as [refs|] eqn:Hrefs.
  - destruct (route_message_returns re_search mgr m refs Hrefs Hret) as (objs1 & Hrun1 & _).
    exists objs1, objs2, (List.filter (deliverable re_search m (objects mgr)) refs).
    rewrite Hrun1. split; [reflexivity|]. split; [exact Hrun2 | reflexivity].
  - exists (objects mgr), objs2, []. unfold route_message at 1 3. rewrite Hrefs.
    split; [reflexivity|]. split; [exact Hrun2|]. destruct mgr; reflexivity.
Qed.

Lemma new_subscriber_is_routed_witness :
  exists mgr',
    route_message literal_search
      (subscribe_agent_to_topic ops_manager "agent-3" "ops" ALL_MESSAGES None None).1
      (ops_message "This is URGENT") = (mgr', Returns [0; 1]).
Proof.
  destruct (new_subscriber_is_routed literal_search ops_manager "agent-3" ALL_MESSAGES
              None None (ops_message "This is URGENT") true)
    as (objs1 & objs2 & before & Hbefore & Hrun & _).
  - apply (reachable_is_well_formed literal_search).
    apply reachable_subscribe, reachable_empty.
  - intros x sub Hx Hsub. change (x ∈ [0]) in Hx.
    apply list_elem_of_singleton in Hx. subst x.
    vm_compute in Hsub. injection Hsub as <-. exists true. reflexivity.
  - reflexivity.
  - assert (Hb : before = [0]) by (vm_compute in Hbefore; congruence). subst before.
    eexists. exact Hrun.
Defined.

Lemma store_or_delete_restore {A} (k : string) (old : list A) (x : A)
  (d : gmap string (list A)) :
  (forall l, d !! k = Some l -> l <> []) ->
  old = default [] (d !! k) ->
  store_or_delete k old (<[k := (old ++ [x])%list]> d) = d.
Proof.
  intros Hne ->. unfold store_or_delete.
  destruct (d !! k) as [l|] eqn:Hk; simpl.
  - destruct l as [|y l]; [exfalso; exact (Hne [] eq_refl eq_refl)|].
    rewrite insert_insert_eq. apply insert_id, Hk.
  - rewrite delete_insert_eq. apply delete_id, Hk.
Qed.

(** Extra X20. Subscribing an agent that has no subscription to a topic
    and unsubscribing it again gives back both indexes of the manager: the
    topic's and the agent's lists are as they were. *)
Theorem subscribe_unsubscribe_round_trip :
  forall (mgr : SubscriptionManager) (agent t : string) (stype : SubscriptionType)
         (fc : option SubscriptionFilter) (h : option N),
    well_formed mgr ->
    (forall r sub, r ∈ get_topic_subscribers mgr t -> objects mgr !! r = Some sub ->
                   agent_id sub <> agent) ->
    (forall r sub, r ∈ get_agent_subscriptions mgr agent -> objects mgr !! r = Some sub ->
                   SubscriptionManager.topic sub <> t) ->
    let back := unsubscribe_agent_from_topic
                  (subscribe_agent_to_topic mgr agent t stype fc h).1 agent t in
    back.2 = true
    /\ subscriptions back.1 = subscriptions mgr
    /\ agent_subscriptions back.1 = agent_subscriptions mgr.
Proof.
  intros mgr agent t stype fc h [Hw1 Hw2] Htopic Hagent back.
  unfold back, unsubscribe_agent_from_topic, subscribe_agent_to_topic,
    get_topic_subscribers, get_agent_subscriptions in *.
  cbn [fst objects subscriptions agent_subscriptions]. rewrite !lookup_insert_eq.
  cbn [fst snd subscriptions agent_subscriptions].
  assert (Hfresh1 : forall x, x ∈ default [] (subscriptions mgr !! t) -> x <> next_ref mgr).
  { intros x Hx. destruct (subscriptions mgr !! t) as [refs|] eqn:Hrefs; [|inversion Hx].
    destruct (Hw1 _ _ Hrefs) as (_ & _ & Hall). destruct (Hall x Hx) as [Hlt _]. lia. }
  assert (Hfresh2 : forall x, x ∈ default [] (agent_subscriptions mgr !! agent) ->
                              x <> next_ref mgr).
  { intros x Hx. destruct (agent_subscriptions mgr !! agent) as [refs|] eqn:Hrefs;
      [|inversion Hx].
    destruct (Hw2 _ _ Hrefs) as (_ & _ & Hall). destruct (Hall x Hx) as [Hlt _]. lia. }
  split; [reflexivity|]. split.
  - rewrite List.filter_app. cbn [List.filter]. unfold holds at 2.
    rewrite lookup_insert_eq. cbn [agent_id SubscriptionManager.topic].
    rewrite !bool_decide_eq_true_2 by reflexivity. cbn [andb negb].
    rewrite app_nil_r, filter_all.
    + apply store_or_delete_restore; [|reflexivity].
      intros l Hl. apply (Hw1 _ _ Hl).
    + intros x Hx. unfold holds.
      rewrite lookup_insert_ne by (intros Heq; exact (Hfresh1 x Hx (eq_sym Heq))).
      destruct (objects mgr !! x) as [sub|] eqn:Hsub; [|reflexivity].
      rewrite (bool_decide_eq_false_2 _ (Htopic x sub Hx Hsub)). reflexivity.
  - rewrite List.filter_app. cbn [List.filter]. unfold holds at 2.
    rewrite lookup_insert_eq. cbn [SubscriptionManager.topic].
    rewrite bool_decide_eq_true_2 by reflexivity. cbn [negb].
    rewrite app_nil_r, filter_all.
    + apply store_or_delete_restore; [|reflexivity].
      intros l Hl. apply (Hw2 _ _ Hl).
    + intros x Hx. unfold holds.
      rewrite lookup_insert_ne by (intros Heq; exact (Hfresh2 x Hx (eq_sym Heq))).
      destruct (objects mgr !! x) as [sub|] eqn:Hsub; [|reflexivity].
      rewrite (bool_decide_eq_false_2 _ (Hagent x sub Hx Hsub)). reflexivity.
Qed.

Lemma subscribe_unsubscribe_round_trip_witness :
  let back := unsubscribe_agent_from_topic
                (subscribe_agent_to_topic ops_manager "agent-3" "ops" ALL_MESSAGES
                   None None).1 "agent-3" "ops" in
  subscriptions back.1 = subscriptions ops_manager.
Proof.
  cbv zeta.
  apply (subscribe_unsubscribe_round_trip ops_manager "agent-3" "ops" ALL_MESSAGES
           None None).
  - apply (reachable_is_well_formed literal_search).
    apply reachable_subscribe, reachable_empty.
  - intros r sub Hr Hsub. change (r ∈ [0]) in Hr.
    apply list_elem_of_singleton in Hr. subst r.
    vm_compute in Hsub. injection Hsub as <-. discriminate.
  - intros r sub Hr. inversion Hr.
Defined.

End SubscriptionManagerFacts.

(** ** Custom predicates that raise *)

Module CustomPredicateFacts.
Import Message.

Section Predicates.
Variable re_search : string -> string -> outcome bool.



End Predicates.










End CustomPredicateFacts.

(** ** Binary64 arithmetic

    Bounds on the results of the float operations the retry delay is
    computed with, from the specification of the primitive floats
    ([SpecFloat]): rounding to nearest never passes a float that bounds the
    exact value. *)

Module FloatFacts.
Import ErrorHandler.
Local Open Scope Z_scope.

Lemma digits2_pos_bounds (m : positive) :
  2 ^ (Z.pos (digits2_pos m) - 1) <= Z.pos m < 2 ^ Z.pos (digits2_pos m).
Proof.
  induction m as [m IH|m IH|]; cbn [digits2_pos].
  - rewrite Pos2Z.inj_succ. replace (Z.succ (Z.pos (digits2_pos m)) - 1)
      with (Z.succ (Z.pos (digits2_pos m) - 1)) by lia.
    rewrite !Z.pow_succ_r by lia. lia.
  - rewrite Pos2Z.inj_succ. replace (Z.succ (Z.pos (digits2_pos m)) - 1)
      with (Z.succ (Z.pos (digits2_pos m) - 1)) by lia.
    rewrite !Z.pow_succ_r by lia. lia.
  - cbn. lia.
Qed.

(** [m * 2 ^ e] is at most [m' * 2 ^ e'], for [e <= e']. *)
Definition vle (m e m' e' : Z) : Prop := e <= e' /\ m <= m' * 2 ^ (e' - e).

Lemma vle_magnitude (m m' : positive) (e e' : Z) :
  vle (Z.pos m) e (Z.pos m') e' ->
  Z.pos (digits2_pos m) + e <= Z.pos (digits2_pos m') + e'.
Proof.
  intros [He Hm]. pose proof (digits2_pos_bounds m) as [Hlo _].
  pose proof (digits2_pos_bounds m') as [_ Hhi].
  assert (H : 2 ^ (Z.pos (digits2_pos m) - 1) < 2 ^ (Z.pos (digits2_pos m') + (e' - e))).
  { rewrite Z.pow_add_r by lia.
    assert (0 < 2 ^ (e' - e)) by (apply Z.pow_pos_nonneg; lia). nia. }
  apply Z.pow_lt_mono_r_iff in H; lia.
Qed.

Lemma iter_pos_nat {A} (f : A -> A) (p : positive) (x : A) :
  SpecFloat.iter_pos f p x = Nat.iter (Pos.to_nat p) f x.
Proof.
  revert x. induction p as [p IH|p IH|]; intros x; cbn [SpecFloat.iter_pos].
  - rewrite !IH, Pos2Nat.inj_xI. cbn [Nat.mul]. rewrite Nat.add_0_r.
    rewrite <- Nat.iter_add. rewrite <- Nat.iter_succ_r. reflexivity.
  - rewrite !IH, Pos2Nat.inj_xO. cbn [Nat.mul]. rewrite Nat.add_0_r.
    rewrite <- Nat.iter_add. reflexivity.
  - reflexivity.
Qed.

(** One shift to the right halves a non-negative mantissa; the flags
    record what was shifted out. *)
Lemma shr_1_spec (m : Z) (r s : bool) :
  0 <= m ->
  shr_m (shr_1 (Build_shr_record m r s)) = m / 2
  /\ shr_r (shr_1 (Build_shr_record m r s)) = Z.odd m
  /\ shr_s (shr_1 (Build_shr_record m r s)) = (r || s)%bool.
Proof.
  intros Hm. destruct m as [|p|p]; [repeat split | | lia].
  destruct p as [p|p|]; cbn [shr_1 shr_m shr_r shr_s].
  - repeat split. rewrite Pos2Z.inj_xI.
    apply Z.div_unique with (r := 1); lia.
  - repeat split. rewrite Pos2Z.inj_xO.
    apply Z.div_unique with (r := 0); lia.
  - repeat split.
Qed.

(** [n] shifts divide by [2 ^ n]; when a flag is set, the division was
    not exact. *)
Lemma shr_iter_spec (n : nat) (m : Z) :
  0 <= m ->
  let mrs := Nat.iter n shr_1 (Build_shr_record m false false) in
  shr_m mrs = m / 2 ^ Z.of_nat n
  /\ ((shr_r mrs || shr_s mrs)%bool = true -> m mod 2 ^ Z.of_nat n <> 0).
Proof.
  intros Hm. induction n as [|n IH].
  - cbn. split; [symmetry; apply Z.div_1_r | discriminate].
  - cbv zeta in *. rewrite Nat.iter_succ.
    destruct (Nat.iter n shr_1 (Build_shr_record m false false)) as [mn rn sn] eqn:Hn.
    cbn [shr_m shr_r shr_s] in IH. destruct IH as [Hmn Hflags].
    assert (Hpow : 0 < 2 ^ Z.of_nat n) by (apply Z.pow_pos_nonneg; lia).
    assert (Hmn0 : 0 <= mn) by (subst mn; apply Z.div_pos; lia).
    destruct (shr_1_spec mn rn sn Hmn0) as (H1 & H2 & H3).
    rewrite H1, H2, H3. rewrite Nat2Z.inj_succ, Z.pow_succ_r by lia.
    split.
    + subst mn. rewrite Z.div_div by lia. f_equal. lia.
    + intros Hflag. intros Hzero.
      assert (Hdiv : m mod 2 ^ Z.of_nat n = 0).
      { apply Z.mod_divide in Hzero; [|lia]. apply Z.mod_divide; [lia|].
        destruct Hzero as [q Hq]. exists (q * 2). lia. }
      apply orb_true_iff in Hflag as [Hodd|Hold]; [|exact (Hflags Hold Hdiv)].
      apply Z.mod_divide in Hzero; [|lia]. destruct Hzero as [q Hq].
      assert (mn = q * 2).
      { subst mn. rewrite Hq. replace (q * (2 * 2 ^ Z.of_nat n)) with
          ((q * 2) * 2 ^ Z.of_nat n) by lia. apply Z.div_mul. lia. }
      subst mn. rewrite H in Hodd. rewrite Z.odd_mul in Hodd. cbn in Hodd.
      rewrite andb_false_r in Hodd. discriminate.
Qed.

Lemma fexp_eq (e : Z) : fexp prec emax e = Z.max (e - 53) (-1074).
Proof. reflexivity. Qed.

Lemma loc_exact_flags (mrs : shr_record) :
  loc_of_shr_record mrs <> loc_Exact -> (shr_r mrs || shr_s mrs)%bool = true.
Proof. destruct mrs as [m [|] [|]]; cbn; congruence. Qed.

(** Shifting a positive mantissa with nothing shifted out before. *)
Lemma shr_spec (m : positive) (e n : Z) :
  let result := shr (Build_shr_record (Z.pos m) false false) e n in
  let k := Z.max 0 n in
  snd result = e + k
  /\ shr_m (fst result) = Z.pos m / 2 ^ k
  /\ (loc_of_shr_record (fst result) <> loc_Exact -> Z.pos m mod 2 ^ k <> 0).
Proof.
  cbv zeta. unfold shr. destruct n as [|p|p].
  - cbn [fst snd shr_m Z.max Z.compare]. change (2 ^ 0) with 1. rewrite Z.div_1_r.
    split; [lia|]. split; [reflexivity|]. intros H. contradiction H. reflexivity.
  - cbn [fst snd]. rewrite iter_pos_nat.
    replace (Z.max 0 (Z.pos p)) with (Z.of_nat (Pos.to_nat p)) by lia.
    destruct (shr_iter_spec (Pos.to_nat p) (Z.pos m)) as [Hm Hflags]; [lia|].
    split; [lia|]. split; [exact Hm|].
    intros H. apply Hflags, loc_exact_flags, H.
  - cbn [fst snd shr_m]. replace (Z.max 0 (Z.neg p)) with 0 by lia.
    change (2 ^ 0) with 1. rewrite Z.div_1_r.
    split; [lia|]. split; [reflexivity|]. intros H. contradiction H. reflexivity.
Qed.

Lemma round_nearest_even_bounds (m : Z) (l : location) :
  m <= round_nearest_even m l <= m + 1
  /\ (l = loc_Exact -> round_nearest_even m l = m).
Proof.
  destruct l as [|[| |]]; cbn [round_nearest_even].
  - split; [lia | reflexivity].
  - destruct (Z.even m); split; try lia; discriminate.
  - split; [lia | discriminate].
  - split; [lia | discriminate].
Qed.

(** The mantissa after the first shift and the rounding is at most the
    least multiple count that covers the exact value. *)
Lemma rounded_mantissa_bound (m : positive) (k N : Z) (mrs : shr_record) :
  0 <= k ->
  shr_m mrs = Z.pos m / 2 ^ k ->
  (loc_of_shr_record mrs <> loc_Exact -> Z.pos m mod 2 ^ k <> 0) ->
  Z.pos m <= N * 2 ^ k ->
  0 <= round_nearest_even (shr_m mrs) (loc_of_shr_record mrs) <= N.
Proof.
  intros Hk Hm Hloc HN.
  assert (Hpow : 0 < 2 ^ k) by (apply Z.pow_pos_nonneg; lia).
  pose proof (Z.div_mod (Z.pos m) (2 ^ k) ltac:(lia)) as Hdm.
  pose proof (Z.mod_pos_bound (Z.pos m) (2 ^ k) Hpow) as Hmod.
  assert (Hq : 0 <= Z.pos m / 2 ^ k) by (apply Z.div_pos; lia).
  destruct (round_nearest_even_bounds (shr_m mrs) (loc_of_shr_record mrs)) as [Hb He].
  rewrite Hm in *.
  destruct (loc_of_shr_record mrs) as [|c] eqn:El.
  - rewrite (He eq_refl). split; [lia|]. nia.
  - assert (Hne : Z.pos m mod 2 ^ k <> 0) by (apply Hloc; discriminate).
    split; [lia|]. nia.
Qed.

(** Rounding never exceeds a float that is at least the exact value: the
    result of rounding [m * 2 ^ e] is a zero or a finite float of at most
    [mb * 2 ^ eb], and no infinity. *)
Lemma binary_round_aux_bound (s : bool) (m mb : positive) (e eb : Z) :
  e <= fexp prec emax (Z.pos (digits2_pos m) + e) ->
  canonical_mantissa prec emax mb eb = true ->
  eb <= emax - prec ->
  vle (Z.pos m) e (Z.pos mb) eb ->
  binary_round_aux prec emax s (Z.pos m) e loc_Exact = S754_zero s
  \/ exists m' e',
       binary_round_aux prec emax s (Z.pos m) e loc_Exact = S754_finite s m' e'
       /\ vle (Z.pos m') e' (Z.pos mb) eb.
Proof.
  intros Hpre Hcan Hemax Hle.
  apply Z.eqb_eq in Hcan.
  pose proof (vle_magnitude m mb e eb Hle) as Hmag.
  remember (fexp prec emax (Z.pos (digits2_pos m) + e)) as fe eqn:Hfe.
  assert (Hfe_eb : fe <= eb) by (rewrite fexp_eq in *; lia).
  assert (Hfe_min : -1074 <= fe) by (rewrite fexp_eq in *; lia).
  unfold binary_round_aux, shr_fexp. cbn [Zdigits2 shr_record_of_loc].
  rewrite <- Hfe.
  pose proof (shr_spec m e (fe - e)) as H1. cbv zeta in H1.
  destruct (shr {| shr_m := Z.pos m; shr_r := false; shr_s := false |} e (fe - e))
    as [mrs' e'].
  cbn [fst snd] in H1. destruct H1 as (He' & Hm' & Hloc').
  replace (Z.max 0 (fe - e)) with (fe - e) in * by lia.
  assert (Heq : e' = fe) by lia. clear He'. subst e'.
  destruct Hle as [Hee HmN].
  assert (HN : Z.pos m <= (Z.pos mb * 2 ^ (eb - fe)) * 2 ^ (fe - e)).
  { rewrite <- Z.mul_assoc, <- Z.pow_add_r by lia.
    replace (eb - fe + (fe - e)) with (eb - e) by lia. exact HmN. }
  pose proof (rounded_mantissa_bound m (fe - e) _ mrs' ltac:(lia) Hm' Hloc' HN) as Hm1.
  destruct (round_nearest_even (shr_m mrs') (loc_of_shr_record mrs')) as [|p1|p1];
    [| |lia].
  - left. cbn [Zdigits2 shr_record_of_loc]. unfold shr.
    destruct (fexp prec emax (0 + fe) - fe) as [|q|q] eqn:Hq;
      [reflexivity | rewrite fexp_eq in Hq; lia | reflexivity].
  - cbn [Zdigits2 shr_record_of_loc].
    assert (Hle1 : vle (Z.pos p1) fe (Z.pos mb) eb) by (split; [lia | lia]).
    pose proof (vle_magnitude p1 mb fe eb Hle1) as Hmag1.
    remember (fexp prec emax (Z.pos (digits2_pos p1) + fe)) as fe2 eqn:Hfe2.
    assert (Hfe2_eb : fe2 <= eb) by (rewrite fexp_eq in *; lia).
    pose proof (shr_spec p1 fe (fe2 - fe)) as H2. cbv zeta in H2.
    destruct (shr {| shr_m := Z.pos p1; shr_r := false; shr_s := false |} fe (fe2 - fe))
      as [mrs'' e''].
    cbn [fst snd] in H2. destruct H2 as (He'' & Hm'' & _).
    set (k2 := Z.max 0 (fe2 - fe)) in *.
    assert (Hpow : 0 < 2 ^ k2) by (apply Z.pow_pos_nonneg; lia).
    destruct (shr_m mrs'') as [|m2|m2] eqn:Hm2.
    + left. reflexivity.
    + right. assert (Hfin : (e'' <=? emax - prec) = true) by (apply Z.leb_le; lia).
      rewrite Hfin. exists m2, e''. split; [reflexivity|]. split; [lia|].
      assert (HN2 : Z.pos p1 <= (Z.pos mb * 2 ^ (eb - e'')) * 2 ^ k2).
      { rewrite <- Z.mul_assoc, <- Z.pow_add_r by lia.
        replace (eb - e'' + k2) with (eb - fe) by lia. lia. }
      rewrite Hm''. apply Z.div_le_upper_bound; [lia|]. lia.
    + exfalso. assert (0 <= Z.pos p1 / 2 ^ k2) by (apply Z.div_pos; lia). lia.
Qed.

Lemma pos_iter_xO (m d : positive) :
  Z.pos (Pos.iter xO m d) = Z.pos m * 2 ^ Z.pos d
  /\ Z.pos (digits2_pos (Pos.iter xO m d)) = Z.pos (digits2_pos m) + Z.pos d.
Proof.
  rewrite Pos2Nat.inj_iter.
  replace (Z.pos d) with (Z.of_nat (Pos.to_nat d)) by lia.
  induction (Pos.to_nat d) as [|n [IH1 IH2]].
  - cbn. split; lia.
  - cbn [nat_rect digits2_pos]. rewrite Pos2Z.inj_xO, Pos2Z.inj_succ.
    rewrite IH1, IH2, Nat2Z.inj_succ, Z.pow_succ_r by lia. split; lia.
Qed.

(** The same for a mantissa that is aligned before it is rounded. *)
Lemma binary_round_bound (s : bool) (m mb : positive) (e eb : Z) :
  canonical_mantissa prec emax mb eb = true ->
  eb <= emax - prec ->
  vle (Z.pos m) e (Z.pos mb) eb ->
  binary_round prec emax s m e = S754_zero s
  \/ exists m' e',
       binary_round prec emax s m e = S754_finite s m' e'
       /\ vle (Z.pos m') e' (Z.pos mb) eb.
Proof.
  intros Hcan Hemax Hle. unfold binary_round, shl_align.
  pose proof (vle_magnitude m mb e eb Hle) as Hmag.
  pose proof Hcan as Hcan'. apply Z.eqb_eq in Hcan'.
  remember (fexp prec emax (Z.pos (digits2_pos m) + e)) as fe eqn:Hfe.
  assert (Hfe_eb : fe <= eb) by (rewrite fexp_eq in *; lia).
  destruct (fe - e) as [|d|d] eqn:Hd.
  - apply binary_round_aux_bound; [lia | exact Hcan | exact Hemax | exact Hle].
  - apply binary_round_aux_bound; [lia | exact Hcan | exact Hemax | exact Hle].
  - destruct (pos_iter_xO m d) as [Hval Hdig].
    pose proof (Pos2Z.opp_pos d) as Hneg.
    apply binary_round_aux_bound; [|exact Hcan | exact Hemax |].
    + rewrite Hdig. replace (Z.pos (digits2_pos m) + Z.pos d + fe)
        with (Z.pos (digits2_pos m) + e) by lia. lia.
    + destruct Hle as [Hee Hm]. split; [exact Hfe_eb|]. rewrite Hval.
      replace (eb - e) with (eb - fe - Z.pos d) in Hm by lia.
      assert (Heb : eb - fe = (eb - fe - Z.pos d) + Z.pos d) by lia.
      rewrite Heb, Z.pow_add_r by lia.
      assert (0 < 2 ^ Z.pos d) by (apply Z.pow_pos_nonneg; lia). nia.
Qed.

(** A zero or a finite float of magnitude at most [mb * 2 ^ eb]. *)
Definition within (x : spec_float) (mb : positive) (eb : Z) : Prop :=
match x with
| S754_zero _ => True
| S754_finite _ m e => vle (Z.pos m) e (Z.pos mb) eb
| _ => False
end.

Definition non_negative (x : spec_float) : Prop :=
match x with
| S754_zero _ => True
| S754_finite s _ _ => s = false
| _ => False
end.

(** The mantissa of 1.0 and of 0.5. *)
Definition unit_mantissa : positive := 4503599627370496.

Lemma round_result_within (s : bool) (r : spec_float) (mb : positive) (eb : Z) :
  r = S754_zero s
  \/ (exists m' e', r = S754_finite s m' e' /\ vle (Z.pos m') e' (Z.pos mb) eb) ->
  within r mb eb /\ (s = false -> non_negative r).
Proof.
  intros [->|(m' & e' & -> & H)]; cbn; auto.
Qed.

Lemma within_leb (x : spec_float) (mb : positive) (eb : Z) :
  within x mb eb -> SFleb (SFabs x) (S754_finite false mb eb) = true.
Proof.
  destruct x as [s|s| |s m e]; cbn [within]; try contradiction.
  - intros _. reflexivity.
  - intros [He Hm]. unfold SFleb. cbn [SFabs SFcompare].
    destruct (Z.compare_spec e eb) as [->|Hlt|Hgt]; [|reflexivity|lia].
    rewrite Z.sub_diag in Hm. change (2 ^ 0) with 1 in Hm.
    change (PosDef.Pos.compare_cont Eq m mb) with (Pos.compare m mb).
    destruct (Pos.compare_spec m mb) as [->|Hlt|Hgt]; [reflexivity | reflexivity | lia].
Qed.

Lemma valid_finite (s : bool) (m : positive) (e : Z) :
  valid_binary (S754_finite s m e) = true ->
  canonical_mantissa prec emax m e = true /\ e <= emax - prec.
Proof.
  cbn [SpecFloat.valid_binary]. unfold bounded. intros H.
  apply andb_true_iff in H as [H1 H2]. apply Z.leb_le in H2. auto.
Qed.

(** A product with a factor of magnitude at most 1 is not larger than
    the other factor. *)
Lemma SFmul_within (sx sy : bool) (mx my : positive) (ex ey : Z) :
  valid_binary (S754_finite sx mx ex) = true ->
  valid_binary (S754_finite sy my ey) = true ->
  vle (Z.pos my) ey (Z.pos unit_mantissa) (-52) ->
  within (SF64mul (S754_finite sx mx ex) (S754_finite sy my ey)) mx ex.
Proof.
  intros Hx Hy [Hey Hmy].
  destruct (valid_finite _ _ _ Hx) as [Hcx Hbx].
  destruct (valid_finite _ _ _ Hy) as [Hcy Hby].
  unfold SF64mul, SFmul.
  apply (round_result_within (xorb sx sy)).
  pose proof Hcx as Hcx'. pose proof Hcy as Hcy'.
  apply Z.eqb_eq in Hcx', Hcy'. rewrite fexp_eq in Hcx', Hcy'.
  pose proof (digits2_pos_bounds mx) as [Hxlo Hxhi].
  pose proof (digits2_pos_bounds my) as [Hylo Hyhi].
  pose proof (digits2_pos_bounds (mx * my)) as [Hplo Hphi].
  assert (Hdig : Z.pos (digits2_pos mx) + Z.pos (digits2_pos my) - 1
                 <= Z.pos (digits2_pos (mx * my))).
  { assert (H : 2 ^ (Z.pos (digits2_pos mx) - 1 + (Z.pos (digits2_pos my) - 1))
                < 2 ^ Z.pos (digits2_pos (mx * my))).
    { rewrite Z.pow_add_r by lia. rewrite Pos2Z.inj_mul in Hphi.
      assert (0 < 2 ^ (Z.pos (digits2_pos mx) - 1)) by (apply Z.pow_pos_nonneg; lia).
      assert (0 < 2 ^ (Z.pos (digits2_pos my) - 1)) by (apply Z.pow_pos_nonneg; lia).
      nia. }
    apply Z.pow_lt_mono_r_iff in H; lia. }
  apply binary_round_aux_bound; [|exact Hcx | exact Hbx |].
  - rewrite fexp_eq. lia.
  - split; [lia|]. rewrite Pos2Z.inj_mul.
    replace (ex - (ex + ey)) with (- 52 - ey + 52) by lia.
    rewrite Z.pow_add_r by lia. change (Z.pos unit_mantissa) with (2 ^ 52) in Hmy.
    rewrite Z.mul_comm in Hmy. nia.
Qed.

Lemma shl_align_spec (m : positive) (e e' : Z) :
  e' <= e -> Z.pos (fst (shl_align m e e')) = Z.pos m * 2 ^ (e - e').
Proof.
  intros He. unfold shl_align. destruct (e' - e) as [|d|d] eqn:Hd; cbn [fst].
  - replace (e - e') with 0 by lia. lia.
  - lia.
  - destruct (pos_iter_xO m d) as [Hval _]. rewrite Hval.
    pose proof (Pos2Z.opp_pos d). f_equal. f_equal. lia.
Qed.

(** Half minus a float between 0 and 1 has a magnitude of at most a
    half. *)
Lemma SFsub_half_within (y : spec_float) :
  non_negative y -> within y unit_mantissa (-52) ->
  within (SF64sub (S754_finite false unit_mantissa (-53)) y) unit_mantissa (-53).
Proof.
  destruct y as [s|s| |s my ey]; cbn [non_negative within]; try contradiction.
  - intros _ _. unfold SF64sub, SFsub. cbn [within]. split; [lia|].
    rewrite Z.sub_diag. change (2 ^ 0) with 1. lia.
  - intros -> [Hey Hmy]. unfold SF64sub, SFsub, binary_normalize. cbn [cond_Zopp].
    set (ez := Z.min (-53) ey).
    rewrite (shl_align_spec unit_mantissa (-53) ez) by lia.
    rewrite (shl_align_spec my ey ez) by lia.
    change (Z.pos unit_mantissa) with (2 ^ 52) in *.
    assert (Hhalf : 2 ^ 52 * 2 ^ (-53 - ez) = 2 ^ (-1 - ez)).
    { rewrite <- Z.pow_add_r by lia. f_equal. lia. }
    assert (Hunit : Z.pos my * 2 ^ (ey - ez) <= 2 * 2 ^ (-1 - ez)).
    { replace (2 * 2 ^ (-1 - ez)) with (2 ^ (- ez))
        by (replace (- ez) with (Z.succ (-1 - ez)) by lia; rewrite Z.pow_succ_r by lia;
            reflexivity).
      replace (- ez) with (- ey + (ey - ez)) by lia. rewrite Z.pow_add_r by lia.
      replace (-52 - ey) with (- ey - 52) in Hmy by lia.
      assert (H52 : 2 ^ 52 * 2 ^ (-52 - ey) = 2 ^ (- ey)).
      { rewrite <- Z.pow_add_r by lia. f_equal. lia. }
      replace (- ey - 52) with (-52 - ey) in Hmy by lia. rewrite H52 in Hmy.
      apply Z.mul_le_mono_nonneg_r; [apply Z.pow_nonneg; lia | exact Hmy]. }
    rewrite Hhalf.
    assert (Hpos : 0 < 2 ^ (-1 - ez)) by (apply Z.pow_pos_nonneg; lia).
    assert (Hcan : canonical_mantissa prec emax unit_mantissa (-53) = true)
      by reflexivity.
    destruct (2 ^ (-1 - ez) - Z.pos my * 2 ^ (ey - ez)) as [|p|p] eqn:Hz.
    + exact I.
    + apply (round_result_within false).
      apply binary_round_bound; [exact Hcan | change (emax - prec) with 971; lia |].
      split; [lia|]. change (Z.pos unit_mantissa) with (2 ^ 52). rewrite Hhalf. lia.
    + apply (round_result_within true).
      apply binary_round_bound; [exact Hcan | change (emax - prec) with 971; lia |].
      split; [lia|]. change (Z.pos unit_mantissa) with (2 ^ 52). rewrite Hhalf.
      pose proof (Pos2Z.opp_pos p). lia.
Qed.

(** One added to a float between -1 and 0 lies between 0 and 1. *)
Lemma SFadd_one_within (mr : positive) (er : Z) :
  vle (Z.pos mr) er (Z.pos unit_mantissa) (-52) ->
  let sum := SF64add (S754_finite true mr er) (S754_finite false unit_mantissa (-52)) in
  non_negative sum /\ within sum unit_mantissa (-52).
Proof.
  intros [Her Hmr]. cbv zeta. unfold SF64add, SFadd, binary_normalize. cbn [cond_Zopp].
  set (ez := Z.min er (-52)). replace ez with er in * by (unfold ez; lia).
  rewrite (shl_align_spec mr er er) by lia.
  rewrite (shl_align_spec unit_mantissa (-52) er) by lia.
  rewrite Z.sub_diag. change (2 ^ 0) with 1. rewrite Z.mul_1_r.
  assert (Hcan : canonical_mantissa prec emax unit_mantissa (-52) = true)
    by reflexivity.
  destruct (- Z.pos mr + Z.pos unit_mantissa * 2 ^ (-52 - er)) as [|p|p] eqn:Hz.
  - split; exact I.
  - assert (H : within (binary_round prec emax false p er) unit_mantissa (-52)
                /\ (false = false -> non_negative (binary_round prec emax false p er))).
    { apply (round_result_within false).
      apply binary_round_bound; [exact Hcan | change (emax - prec) with 971; lia |]. split; lia. }
    destruct H as [Hw Hn]. split; [apply Hn; reflexivity | exact Hw].
  - pose proof (Pos2Z.opp_pos p). lia.
Qed.

(** A mantissa that is already canonical is not changed by rounding. *)
Lemma binary_round_aux_exact (s : bool) (m : positive) (e : Z) :
  canonical_mantissa prec emax m e = true -> e <= emax - prec ->
  binary_round_aux prec emax s (Z.pos m) e loc_Exact = S754_finite s m e.
Proof.
  intros Hcan He. apply Z.eqb_eq in Hcan.
  unfold binary_round_aux, shr_fexp. cbn [Zdigits2 shr_record_of_loc].
  rewrite Hcan, Z.sub_diag. cbn [shr shr_m loc_of_shr_record round_nearest_even].
  cbn [Zdigits2 shr_record_of_loc]. rewrite Hcan, Z.sub_diag. cbn [shr shr_m].
  apply Z.leb_le in He. rewrite He. reflexivity.
Qed.

(** A value below 1 whose mantissa is no longer than that of a float of
    the same exponent is a float: rounding it is exact, and the result is a
    valid float below 1. *)
Lemma binary_round_fraction (s : bool) (p mant : positive) (e : Z) :
  canonical_mantissa prec emax mant e = true ->
  e < 0 ->
  Z.pos p <= Z.pos mant ->
  Z.pos p < 2 ^ (- e) ->
  exists p' e',
    binary_round prec emax s p e = S754_finite s p' e'
    /\ valid_binary (S754_finite s p' e') = true
    /\ vle (Z.pos p') e' (Z.pos unit_mantissa) (-52).
Proof.
  intros Hcan He Hle Hlt.
  pose proof (digits2_pos_bounds p) as [Hplo Hphi].
  pose proof (digits2_pos_bounds mant) as [Hmlo Hmhi].
  assert (Hdig : Z.pos (digits2_pos p) <= Z.pos (digits2_pos mant)).
  { assert (H : 2 ^ (Z.pos (digits2_pos p) - 1) < 2 ^ Z.pos (digits2_pos mant)) by lia.
    apply Z.pow_lt_mono_r_iff in H; lia. }
  assert (Hsmall : Z.pos (digits2_pos p) + e <= 0).
  { assert (H : 2 ^ (Z.pos (digits2_pos p) - 1) < 2 ^ (- e)) by lia.
    apply Z.pow_lt_mono_r_iff in H; lia. }
  pose proof Hcan as Hcan'. apply Z.eqb_eq in Hcan'. rewrite fexp_eq in Hcan'.
  unfold binary_round, shl_align.
  remember (fexp prec emax (Z.pos (digits2_pos p) + e)) as fe eqn:Hfe.
  assert (Hfe_e : fe <= e) by (rewrite fexp_eq in Hfe; lia).
  assert (Hfe_53 : fe <= -53) by (rewrite fexp_eq in Hfe; lia).
  destruct (fe - e) as [|d|d] eqn:Hd; [|lia|].
  - assert (Heq : fe = e) by lia. rewrite Heq in Hfe.
    assert (Hc : canonical_mantissa prec emax p e = true)
      by (apply Z.eqb_eq; symmetry; exact Hfe).
    exists p, e. rewrite (binary_round_aux_exact s p e Hc) by (change (emax - prec) with 971; lia).
    split; [reflexivity|]. split.
    + cbn [SpecFloat.valid_binary]. unfold bounded. rewrite Hc. apply Z.leb_le. change (emax - prec) with 971. lia.
    + split; [lia|]. change (Z.pos unit_mantissa) with (2 ^ 52).
      rewrite <- Z.pow_add_r by lia. replace (52 + (-52 - e)) with (- e) by lia. lia.
  - destruct (pos_iter_xO p d) as [Hval Hdg]. pose proof (Pos2Z.opp_pos d) as Hneg.
    assert (Hc : canonical_mantissa prec emax (Pos.iter xO p d) fe = true).
    { apply Z.eqb_eq. rewrite Hdg.
      replace (Z.pos (digits2_pos p) + Z.pos d + fe) with (Z.pos (digits2_pos p) + e)
        by lia. symmetry. exact Hfe. }
    exists (Pos.iter xO p d), fe.
    rewrite (binary_round_aux_exact s _ fe Hc) by (change (emax - prec) with 971; lia).
    split; [reflexivity|]. split.
    + cbn [SpecFloat.valid_binary]. unfold bounded. rewrite Hc. apply Z.leb_le. change (emax - prec) with 971. lia.
    + split; [lia|]. change (Z.pos unit_mantissa) with (2 ^ 52).
      rewrite <- Z.pow_add_r by lia. replace (52 + (-52 - fe)) with (- e + Z.pos d) by lia.
      rewrite Hval, Z.pow_add_r by lia.
      assert (0 < 2 ^ Z.pos d) by (apply Z.pow_pos_nonneg; lia). nia.
Qed.

Definition finite_or_zero (x : spec_float) : Prop :=
match x with
| S754_zero _ | S754_finite _ _ _ => True
| _ => False
end.

Lemma is_finite_spec (x : float) : is_finite x = true -> finite_or_zero (Prim2SF x).
Proof.
  unfold is_finite, is_nan, is_infinity. rewrite !FloatAxioms.eqb_spec, FloatAxioms.abs_spec.
  destruct (Prim2SF x) as [s|s| |s m e]; cbn [finite_or_zero SFabs]; try (intros _; exact I).
  - change (Prim2SF infinity) with (S754_infinity false).
    destruct s; cbn; discriminate.
  - cbn. discriminate.
Qed.

Lemma SFcompare_finite_refl (s : bool) (m : positive) (e : Z) :
  SFcompare (S754_finite s m e) (S754_finite s m e) = Some Eq.
Proof.
  cbn [SFcompare]. change (PosDef.Pos.compare_cont Eq m m) with (Pos.compare m m).
  rewrite Z.compare_refl, Pos.compare_refl. destruct s; reflexivity.
Qed.

(** [t % 1] lies between 0 and 1, both included, for a finite [t]. *)
Lemma mod_one_range (t : float) :
  is_finite t = true ->
  non_negative (Prim2SF (mod_one t)) /\ within (Prim2SF (mod_one t)) unit_mantissa (-52).
Proof.
  intros Hfin. apply is_finite_spec in Hfin.
  pose proof (FloatAxioms.Prim2SF_valid t) as Hvalid.
  unfold mod_one, fmod_one.
  destruct (Prim2SF t) as [s|s| |s mant e] eqn:Ht; cbn [finite_or_zero] in Hfin;
    try contradiction.
  - assert (Hnan : is_nan t = false)
      by (unfold is_nan; rewrite FloatAxioms.eqb_spec, Ht; destruct s; reflexivity).
    assert (Hzero : (t =? 0)%float = true)
      by (rewrite FloatAxioms.eqb_spec, Ht; destruct s; reflexivity).
    rewrite Hnan, Hzero. split; exact I.
  - destruct (0 <=? e) eqn:He.
    + destruct s; split; exact I.
    + apply Z.leb_gt in He. cbv zeta.
      destruct (valid_finite _ _ _ Hvalid) as [Hcan _].
      assert (Hpow : 0 < 2 ^ (- e)) by (apply Z.pow_pos_nonneg; lia).
      pose proof (Z.mod_pos_bound (Z.pos mant) (2 ^ (- e)) Hpow) as Hfrac.
      pose proof (Z.mod_le (Z.pos mant) (2 ^ (- e)) ltac:(lia) Hpow) as Hle.
      destruct (Z.pos mant mod 2 ^ (- e)) as [|p|p] eqn:Hp; [| |lia].
      * destruct s; split; exact I.
      * assert (Hround : binary_normalize prec emax (if s then - Z.pos p else Z.pos p) e s
                         = binary_round prec emax s p e) by (destruct s; reflexivity).
        rewrite Hround.
        destruct (binary_round_fraction s p mant e Hcan He Hle (proj2 Hfrac))
          as (p' & e' & -> & Hv & Hone).
        set (r := SF2Prim (S754_finite s p' e')).
        assert (Hr : Prim2SF r = S754_finite s p' e') by (apply FloatAxioms.Prim2SF_SF2Prim, Hv).
        assert (Hnan : is_nan r = false).
        { unfold is_nan. rewrite FloatAxioms.eqb_spec, Hr. unfold SFeqb.
          rewrite SFcompare_finite_refl. reflexivity. }
        assert (Hzero : (r =? 0)%float = false)
          by (rewrite FloatAxioms.eqb_spec, Hr; destruct s; reflexivity).
        assert (Hneg : (r <? 0)%float = s)
          by (rewrite FloatAxioms.ltb_spec, Hr; destruct s; reflexivity).
        rewrite Hnan, Hzero, Hneg. destruct s.
        -- rewrite FloatAxioms.add_spec, Hr. apply SFadd_one_within. exact Hone.
        -- rewrite Hr. split; [reflexivity | exact Hone].
Qed.

Lemma within_half_unit (x : spec_float) :
  within x unit_mantissa (-53) -> within x unit_mantissa (-52).
Proof.
  destruct x as [s|s| |s m e]; cbn [within]; auto.
  intros [He Hm]. split; [lia|].
  replace (-52 - e) with (Z.succ (-53 - e)) by lia. rewrite Z.pow_succ_r by lia.
  assert (0 < 2 ^ (-53 - e)) by (apply Z.pow_pos_nonneg; lia). lia.
Qed.

(** The jitter factor [0.5 - t % 1] is at most a half either way. *)
Lemma jitter_factor_within (t : float) :
  is_finite t = true -> within (Prim2SF (half - mod_one t)) unit_mantissa (-53).
Proof.
  intros Hfin. destruct (mod_one_range t Hfin) as [Hpos Hone].
  rewrite FloatAxioms.sub_spec. apply SFsub_half_within; assumption.
Qed.

(** A product with a float of magnitude at most 1 is not larger than the
    other factor. *)
Lemma mul_within (a f : float) :
  finite_or_zero (Prim2SF a) -> within (Prim2SF f) unit_mantissa (-52) ->
  finite_or_zero (Prim2SF (a * f)) /\ (abs (a * f) <=? abs a)%float = true.
Proof.
  intros Ha Hf. rewrite FloatAxioms.leb_spec, !FloatAxioms.abs_spec, FloatAxioms.mul_spec.
  pose proof (FloatAxioms.Prim2SF_valid a) as Hva. pose proof (FloatAxioms.Prim2SF_valid f) as Hvf.
  destruct (Prim2SF a) as [sa|sa| |sa ma ea]; cbn [finite_or_zero] in Ha;
    try contradiction;
    destruct (Prim2SF f) as [sf|sf| |sf mf ef]; cbn [within] in Hf; try contradiction.
  - split; [exact I | reflexivity].
  - split; [exact I | reflexivity].
  - split; [exact I | reflexivity].
  - pose proof (SFmul_within sa sf ma mf ea ef Hva Hvf Hf) as Hw.
    split.
    + destruct (SF64mul (S754_finite sa ma ea) (S754_finite sf mf ef));
        cbn [within] in Hw; try contradiction; exact I.
    + apply within_leb. exact Hw.
Qed.

(** The jitter [d * 0.1 * (0.5 - t % 1)] is at most [d * 0.1] either way,
    and its factor [0.5 - t % 1] at most a half. *)
Theorem jitter_within_tenth (d t : float) :
  is_finite d = true -> is_finite t = true ->
  (abs (half - mod_one t) <=? half)%float = true
  /\ (abs (d * tenth * (half - mod_one t)) <=? abs (d * tenth))%float = true.
Proof.
  intros Hd Ht. pose proof (jitter_factor_within t Ht) as Hfactor. split.
  - rewrite FloatAxioms.leb_spec, FloatAxioms.abs_spec. apply within_leb. exact Hfactor.
  - assert (Htenth : within (Prim2SF tenth) unit_mantissa (-52)).
    { vm_compute. split; intros H; discriminate H. }
    destruct (mul_within d tenth (is_finite_spec d Hd) Htenth) as [Ha _].
    apply mul_within; [exact Ha|]. apply within_half_unit, Hfactor.
Qed.

(** [t % 1] as a float lies between 0 and 1. *)
Lemma mod_one_between (t : float) :
  is_finite t = true ->
  (0 <=? mod_one t)%float = true /\ (mod_one t <=? 1)%float = true.
Proof.
  intros Hfin. destruct (mod_one_range t Hfin) as [Hpos Hone].
  rewrite !FloatAxioms.leb_spec. change (Prim2SF 0) with (S754_zero false).
  change (Prim2SF 1) with (S754_finite false unit_mantissa (-52)).
  destruct (Prim2SF (mod_one t)) as [s|s| |s m e]; cbn [non_negative within] in *;
    try contradiction.
  - split; reflexivity.
  - subst s. split; [reflexivity|].
    apply (within_leb (S754_finite false m e)). exact Hone.
Qed.

Local Close Scope Z_scope.
End FloatFacts.

(** ** Retry delays and retries *)

Module ErrorHandlerFacts.
Import Message ErrorHandler.

(** *** Floats *)

Lemma SFltb_irrefl (f : spec_float) : SFltb f f = false.
Proof.
  unfold SFltb, SFcompare. destruct f as [s|s| |s m e]; try reflexivity.
  - destruct s; reflexivity.
  - change (PosDef.Pos.compare_cont Eq m m) with (Pos.compare m m).
    rewrite Z.compare_refl, Pos.compare_refl. destruct s; reflexivity.
Qed.

Lemma ltb_irrefl (x : float) : (x <? x)%float = false.
Proof. rewrite ltb_spec. apply SFltb_irrefl. Qed.

(** [min] returns one of its arguments, and none above the second. *)
Lemma py_min_cases (a b : float) :
  (py_min a b = a /\ (b <? a)%float = false) \/ (py_min a b = b /\ (b <? a)%float = true).
Proof. unfold py_min. destruct (b <? a)%float; [right | left]; split; reflexivity. Qed.

Lemma py_min_not_above (a b : float) : (b <? py_min a b)%float = false.
Proof.
  destruct (py_min_cases a b) as [[-> H]|[-> _]]; [exact H | apply ltb_irrefl].
Qed.

(** A power computed by repeated multiplication, exact on the powers of
    two that fit; as [float.__pow__] it raises when the result of a finite
    base overflows. *)
Fixpoint power_of (x : float) (n : nat) : float :=
match n with
| O => 1%float
| S n' => (x * power_of x n')%float
end.

Definition result_out_of_range : exn :=
Exn "OverflowError" "(34, 'Numerical result out of range')".

Definition plain_pow (x : float) (n : Z) : outcome float :=
let r := power_of x (Z.to_nat n) in
if is_infinity r && negb (is_infinity x) then Raises result_out_of_range else Returns r.

Definition plain_power : Power :=
{| float_pow := plain_pow; float_pow_zero := fun x => eq_refl |}.

(** The first delay is always computed: 1 converts to a float, and a
    power with exponent 0 is 1.0. *)
Lemma first_delay_returns (pw : Power) (cfg : RetryConfig) (loop_time : float) :
  exists d, calculate_delay pw cfg 0 loop_time = Returns d.
Proof.
  unfold calculate_delay. change (Z.of_nat 0) with 0%Z. rewrite float_pow_zero.
  destruct (strategy cfg); eexists; reflexivity.
Qed.

(** *** Claim C5: the retry delay *)

(** The delay formulas as the specification words them, with [attempt]
    the number the code passes to [_calculate_delay]. *)
Definition specified_delay (pw : Power) (cfg : RetryConfig) (attempt : nat) : outcome float :=
match strategy cfg with
| IMMEDIATE => Returns 0%float
| FIXED_DELAY => Returns (base_delay cfg)
| LINEAR_BACKOFF =>
    bind_outcome (float_of_int (Z.of_nat attempt)) (fun n =>
      Returns (base_delay cfg * n)%float)
| EXPONENTIAL_BACKOFF =>
    bind_outcome (float_pow pw (backoff_multiplier cfg) (Z.of_nat attempt)) (fun p =>
      Returns (base_delay cfg * p)%float)
end.

(** [x] is [formula] with at most 10% of it added or taken away. *)
Definition within_tenth (formula x : float) : Prop :=
(abs (x - formula) <=? tenth * abs formula)%float = true.

(** The claim of C5 as the specification words it: a delay is computed, it
    is the formula with at most 10% jitter, capped, and it is not above
    the maximum delay. *)
Definition delay_as_specified (pw : Power) (cfg : RetryConfig) (attempt : nat)
  (loop_time : float) : Prop :=
exists formula x d,
  specified_delay pw cfg attempt = Returns formula
  /\ within_tenth formula x
  /\ calculate_delay pw cfg attempt loop_time = Returns d
  /\ d = py_min x (max_delay cfg)
  /\ (max_delay cfg <? d)%float = false.

Definition fixed_config : RetryConfig :=
{| max_retries := 3; base_delay := 100%float; max_delay := 60%float;
   backoff_multiplier := 2%float; strategy := FIXED_DELAY;
   retryable_errors := [NETWORK_ERROR; TIMEOUT_ERROR; MESSAGE_BROKER_ERROR] |}.

Definition linear_config : RetryConfig :=
{| max_retries := 3; base_delay := 1%float; max_delay := 60%float;
   backoff_multiplier := 2%float; strategy := LINEAR_BACKOFF;
   retryable_errors := [NETWORK_ERROR; TIMEOUT_ERROR; MESSAGE_BROKER_ERROR] |}.

(** An exponential policy whose multiplier is 2^600: its square is no
    float. *)
Definition steep_config : RetryConfig :=
{| max_retries := 3; base_delay := 1%float; max_delay := 60%float;
   backoff_multiplier := 0x1p+600%float; strategy := EXPONENTIAL_BACKOFF;
   retryable_errors := [NETWORK_ERROR; TIMEOUT_ERROR; MESSAGE_BROKER_ERROR] |}.

(** Claim C5, counterexample. A fixed delay of 100 seconds under a maximum
    of 60 seconds is returned as it is, above the maximum; the first
    linear delay (attempt 0) with base 1 is 1 second, not within 10% of
    the specified base times attempt, which is 0; and the exponential
    delay of attempt 2 with multiplier 2^600 is not computed at all: the
    power raises OverflowError. *)
Lemma calculate_delay_not_as_specified :
  (forall pw attempt loop_time,
      calculate_delay pw fixed_config attempt loop_time = Returns 100%float)
  /\ (max_delay fixed_config <? 100)%float = true
  /\ ~ delay_as_specified plain_power fixed_config 0 0%float
  /\ calculate_delay plain_power linear_config 0 half = Returns 1%float
  /\ specified_delay plain_power linear_config 0 = Returns 0%float
  /\ ~ delay_as_specified plain_power linear_config 0 half
  /\ calculate_delay plain_power steep_config 2 0%float = Raises result_out_of_range
  /\ ~ delay_as_specified plain_power steep_config 2 0%float
  /\ ~ (forall pw cfg attempt loop_time, delay_as_specified pw cfg attempt loop_time).
Proof.
  assert (Hfixed : ~ delay_as_specified plain_power fixed_config 0 0%float).
  { intros (formula & x & d & _ & _ & Hd & _ & Hmax).
    cbn in Hd. injection Hd as <-. vm_compute in Hmax. discriminate. }
  assert (Hlinear : ~ delay_as_specified plain_power linear_config 0 half).
  { intros (formula & x & d & Hformula & Hx & Hd & Hmin & _).
    vm_compute in Hformula. injection Hformula as <-.
    vm_compute in Hd. injection Hd as <-.
    destruct (py_min_cases x (max_delay linear_config)) as [[Heq _]|[Heq _]];
      rewrite Heq in Hmin.
    - subst x. vm_compute in Hx. discriminate.
    - apply (f_equal (fun f => (f <? 2)%float)) in Hmin. vm_compute in Hmin.
      discriminate. }
  assert (Hsteep : ~ delay_as_specified plain_power steep_config 2 0%float).
  { intros (formula & x & d & _ & _ & Hd & _). vm_compute in Hd. discriminate. }
  split; [reflexivity|]. split; [reflexivity|]. split; [exact Hfixed|].
  split; [reflexivity|]. split; [reflexivity|]. split; [exact Hlinear|].
  split; [reflexivity|]. split; [exact Hsteep|].
  intros H. exact (Hfixed (H _ _ _ _)).
Qed.

(** The delay [r] returned for the formula value [d]: the jitter
    [d × 0.1 × (0.5 − loop_time mod 1)] is added, which is at most [d × 0.1]
    either way when [d] and the loop time are finite, and the sum is
    returned when the maximum delay is not below it, the maximum delay
    otherwise; either way the maximum delay is not below [r]. *)
Definition jittered_and_capped (cfg : RetryConfig) (d loop_time r : float) : Prop :=
let jitter := (d * 0x1.999999999999ap-4 * (0x1p-1 - mod_one loop_time))%float in
let sum := (d + jitter)%float in
((r = sum /\ (max_delay cfg <? sum)%float = false)
 \/ (r = max_delay cfg /\ (max_delay cfg <? sum)%float = true))
/\ (max_delay cfg <? r)%float = false
/\ (is_finite d = true -> is_finite loop_time = true ->
    (abs jitter <=? abs (d * 0x1.999999999999ap-4))%float = true).

Lemma jittered_spec (cfg : RetryConfig) (d loop_time : float) :
  jittered_and_capped cfg d loop_time (jittered cfg d loop_time).
Proof.
  unfold jittered_and_capped, jittered. split; [|split; [apply py_min_not_above|]].
  - match goal with |- context [py_min ?a ?b] => destruct (py_min_cases a b) as [H|H] end;
      [left | right]; exact H.
  - intros Hd Ht. apply (FloatFacts.jitter_within_tenth d loop_time Hd Ht).
Qed.

(** Claim C5, amended. With [attempt] counted from 0 as the code passes
    it, the delay is 0.0 for the immediate strategy and the base delay for
    the fixed one, neither jittered nor capped. For the linear strategy
    the formula is base×(attempt+1) and for the exponential one
    base×multiplier^attempt, in float arithmetic; an exception of the
    conversion or of the power (OverflowError) is raised by the
    computation; otherwise the jitter formula×0.1×(0.5 − loop time mod 1)
    is added, which for a finite formula value and a finite loop time is at
    most formula×0.1 either way (10%), and the sum is capped at the maximum
    delay, so that a linear or exponential delay that is returned is never
    above the maximum. The delay of attempt 0 is always computed. For a
    finite loop time, loop time mod 1 lies between 0 and 1 and the jitter
    factor 0.5 − loop time mod 1 between −0.5 and 0.5. *)
Theorem calculate_delay_by_strategy :
  forall (pw : Power) (cfg : RetryConfig) (attempt : nat) (loop_time : float),
    let computed := calculate_delay pw cfg attempt loop_time in
    match strategy cfg with
    | IMMEDIATE => computed = Returns 0%float
    | FIXED_DELAY => computed = Returns (base_delay cfg)
    | LINEAR_BACKOFF =>
        match float_of_int (Z.of_nat attempt + 1) with
        | Returns n =>
            exists r, computed = Returns r
                      /\ jittered_and_capped cfg (base_delay cfg * n)%float loop_time r
        | Raises e => computed = Raises e
        end
    | EXPONENTIAL_BACKOFF =>
        match float_pow pw (backoff_multiplier cfg) (Z.of_nat attempt) with
        | Returns p =>
            exists r, computed = Returns r
                      /\ jittered_and_capped cfg (base_delay cfg * p)%float loop_time r
        | Raises e => computed = Raises e
        end
    end
    /\ (exists d, calculate_delay pw cfg 0 loop_time = Returns d)
    /\ (is_finite loop_time = true ->
        (0 <=? mod_one loop_time)%float = true
        /\ (mod_one loop_time <=? 1)%float = true
        /\ (abs (0x1p-1 - mod_one loop_time) <=? 0x1p-1)%float = true)
    /\ float_of_int 1 = Returns 1%float
    /\ float_of_int 2 = Returns 2%float
    /\ float_of_int 3 = Returns 3%float
    /\ mod_one 0x1.88p+3%float = 0x1p-2%float
    /\ mod_one 3%float = 0%float
    /\ mod_one (-0x1p-2)%float = 0x1.8p-1%float.
Proof.
  intros pw cfg attempt loop_time computed. split.
  - unfold computed, calculate_delay. destruct (strategy cfg); try reflexivity.
    + destruct (float_pow pw (backoff_multiplier cfg) (Z.of_nat attempt)) as [p|e];
        cbv beta iota delta [bind_outcome]; [|reflexivity].
      eexists. split; [reflexivity | apply jittered_spec].
    + destruct (float_of_int (Z.of_nat attempt + 1)) as [n|e];
        cbv beta iota delta [bind_outcome]; [|reflexivity].
      eexists. split; [reflexivity | apply jittered_spec].
  - split; [apply first_delay_returns|]. split.
    + intros Ht. destruct (FloatFacts.mod_one_between loop_time Ht) as [Hlo Hhi].
      split; [exact Hlo|]. split; [exact Hhi|].
      apply (FloatFacts.jitter_within_tenth 0%float loop_time eq_refl Ht).
    + repeat split; reflexivity.
Qed.

(** With the default policy, the third retry at loop time 12.25 waits
    4.1 seconds: 4 and a jitter of 0.1, which is within a tenth of 4. *)
Lemma calculate_delay_by_strategy_witness :
  exists r,
    calculate_delay plain_power default_config 2 0x1.88p+3%float = Returns r
    /\ (max_delay default_config <? r)%float = false
    /\ (abs (r - 4) <=? abs (4 * 0x1.999999999999ap-4))%float = true.
Proof.
  destruct (calculate_delay_by_strategy plain_power default_config 2 0x1.88p+3%float)
    as [Hdelay _].
  cbv beta iota zeta delta [strategy default_config] in Hdelay.
  change (float_pow plain_power (backoff_multiplier default_config) (Z.of_nat 2))
    with (Returns (A := float) 4%float) in Hdelay.
  cbv beta iota in Hdelay.
  destruct Hdelay as (r & Hr & _ & Hmax & _). exists r.
  split; [exact Hr|]. split; [exact Hmax|].
  vm_compute in Hr. injection Hr as <-. reflexivity.
Defined.

(** *** Claim C2: the retry decision for a message *)

(** A message with retries left and no time to live, and a validation
    error. *)
Definition fresh_message : AgentMessage :=
{| id := 7; timestamp := 0%Z; sender_id := "agent-1"; sender_name := "Agent 1";
   sender_role := "worker"; message_type := TASK; priority := NORMAL;
   content := "resize the image"; topic := "jobs"; reply_to := None;
   metadata := ∅; tags := []; correlation_id := None; requires_response := false;
   response_timeout := None; ttl := None; retry_count := 0;
   Message.max_retries := 3 |}.

Definition invalid_input : exn := Exn "ValueError" "Invalid input".

Lemma handle_message_error_result (h : ErrorHandler) (now : datetime) (e : exn)
  (m : AgentMessage) (operation : string) :
  (handle_message_error h now e m operation).2 = should_retry now m.
Proof.
  unfold handle_message_error, py_and. cbn [allocate fst snd truthy].
  destruct (should_retry now m); reflexivity.
Qed.

(** Claim C2, the behaviour of the code. The handler permits a retry
    whenever the message itself is eligible, whatever the error: the
    un-awaited coroutine of the policy check counts as true. A message
    with retries left is retried on a validation error, which the awaited
    policy check rejects. *)
Theorem handle_message_error_ignores_policy :
  (forall h now e m operation,
      (handle_message_error h now e m operation).2 = should_retry now m)
  /\ classify_error invalid_input = VALIDATION_ERROR
  /\ await (is_error_retryable (new_handler default_config) invalid_input) = false
  /\ should_retry 0%Z fresh_message = true
  /\ (handle_message_error (new_handler default_config) 0%Z invalid_input
         fresh_message "publish").2 = true.
Proof.
  split; [exact handle_message_error_result|].
  repeat split; vm_compute; reflexivity.
Qed.


Lemma amend_last_length {A} (f : A -> A) (l : list A) :
  length (Py.amend_last f l) = length l.
Proof.
  induction l as [|x [|y l] IH]; [reflexivity | reflexivity |].
  change (S (length (Py.amend_last f (y :: l))) = S (length (y :: l))).
  rewrite IH. reflexivity.
Qed.

Lemma altered_record (f : ErrorContext -> ErrorContext) (m : gmap ref ErrorContext)
    (r : ref) (c : ErrorContext) :
  m !! r = Some c -> alter f r m !! r = Some (f c).
Proof. intros H. rewrite lookup_alter_eq, H. reflexivity. Qed.

(** A delay that raises is not that of attempt 0. *)
Lemma raising_delay_is_later (pw : Power) (cfg : RetryConfig) (attempt : nat)
    (loop_time : float) (e : exn) :
  calculate_delay pw cfg attempt loop_time = Raises e -> 0 < attempt.
Proof.
  intros Hd. destruct attempt as [|attempt]; [|lia].
  destruct (first_delay_returns pw cfg loop_time) as [d Hd']. congruence.
Qed.

(** One attempt is recorded per call of the operation, and one delay is
    slept per call after that of attempt 0; an iteration whose delay
    computation raises records, sleeps and calls nothing. *)
Lemma retry_loop_accounting {A} (pw : Power) (retry_func : nat -> outcome A)
    (clock : Clock) (remaining : nat) :
  forall (attempt : nat) (bound : bool) (h : ErrorHandler) (ctx : ref) (made : nat)
         (sleeps : list float),
    let run := retry_loop pw retry_func clock remaining attempt bound h ctx made sleeps in
    made <= calls run <= made + remaining
    /\ (0 < remaining -> attempt = 0 -> made < calls run)
    /\ length (retry_history (handler_after run))
       = length (retry_history h) + (calls run - made)
    /\ length (slept run)
       = length sleeps + (calls run - made)
         - (if (0 <? attempt)%nat then 0 else if (made <? calls run)%nat then 1 else 0)
    /\ retry_config (handler_after run) = retry_config h.
Proof.
  induction remaining as [|remaining IH]; intros attempt bound h ctx made sleeps run.
  - unfold run. cbn [retry_loop handler_after calls slept].
    rewrite Nat.ltb_irrefl. destruct (0 <? attempt)%nat; repeat split; lia.
  - unfold run. cbn [retry_loop].
    destruct (calculate_delay pw (retry_config h) attempt (loop_time_at clock attempt))
      as [d|e0] eqn:Hd.
    + destruct (retry_func attempt) as [v|e].
      * cbn [handler_after calls slept amend_attempt push_attempt with_history
             retry_history retry_config].
        rewrite amend_last_length, length_app. cbn [length].
        replace (made <? S made)%nat with true by (symmetry; apply Nat.ltb_lt; lia).
        destruct (0 <? attempt)%nat; [rewrite length_app; cbn [length]|];
          repeat split; lia.
      * unfold on_exception. cbn [retry_config with_history push_attempt].
        case_bool_decide as Hlast.
        -- cbn [handler_after calls slept mutate amend_attempt push_attempt with_history
                retry_history retry_config].
           rewrite amend_last_length, length_app. cbn [length].
           replace (made <? S made)%nat with true by (symmetry; apply Nat.ltb_lt; lia).
           destruct (0 <? attempt)%nat; [rewrite length_app; cbn [length]|];
             repeat split; lia.
        -- match goal with
           | |- context [retry_loop _ _ _ remaining (S attempt) true ?h' ctx ?made' ?sleeps'] =>
               destruct (IH (S attempt) true h' ctx made' sleeps')
                 as (Hcalls & _ & Hhist & Hslept & Hcfg);
               set (rest := retry_loop pw retry_func clock remaining (S attempt) true h'
                              ctx made' sleeps') in *
           end.
           cbn [record_error mutate amend_attempt push_attempt with_history
                retry_history retry_config] in Hhist, Hcfg.
           rewrite amend_last_length, length_app in Hhist. cbn [length] in Hhist.
           change (0 <? S attempt)%nat with true in Hslept.
           replace (made <? calls rest)%nat with true
             by (symmetry; apply Nat.ltb_lt; lia).
           split; [lia|]. split; [lia|]. split; [lia|]. split; [|exact Hcfg].
           destruct (0 <? attempt)%nat;
             [rewrite length_app in Hslept; cbn [length] in Hslept|]; lia.
    + pose proof (raising_delay_is_later _ _ _ _ _ Hd) as Hlater.
      replace (0 <? attempt)%nat with true by (symmetry; apply Nat.ltb_lt; lia).
      destruct bound.
      * unfold on_exception. case_bool_decide as Hlast.
        -- cbn [handler_after calls slept mutate amend_attempt with_history
                retry_history retry_config].
           rewrite amend_last_length. cbv iota. repeat split; lia.
        -- match goal with
           | |- context [retry_loop _ _ _ remaining (S attempt) true ?h' ctx made sleeps] =>
               destruct (IH (S attempt) true h' ctx made sleeps)
                 as (Hcalls & _ & Hhist & Hslept & Hcfg);
               set (rest := retry_loop pw retry_func clock remaining (S attempt) true h'
                              ctx made sleeps) in *
           end.
           cbn [record_error mutate amend_attempt with_history
                retry_history retry_config] in Hhist, Hcfg.
           rewrite amend_last_length in Hhist.
           change (0 <? S attempt)%nat with true in Hslept.
           cbv iota in Hslept |- *.
           split; [lia|]. split; [lia|]. split; [lia|]. split; [lia | exact Hcfg].
      * cbn [handler_after calls slept]. cbv iota. repeat split; lia.
Qed.

(** *** Claim C3: the retries are used up *)

Section Exhaustion.
Context {A : Type}.
Variable pw : Power.
Variable retry_func : nat -> outcome A.
Variable clock : Clock.
(** The operation fails at every attempt, with [failure k] at attempt [k]. *)
Variable failure : nat -> exn.
Hypothesis always_fails : forall k, retry_func k = Raises (failure k).




End Exhaustion.




Definition connection_failed : exn := Exn "ConnectionError" "Connection failed".
Definition connection_refused : exn := Exn "ConnectionError" "Connection refused".

(** An operation that cannot connect, and a clock that ticks once a second. *)
Definition unreachable (k : nat) : outcome string := Raises connection_refused.

Definition ticking : Clock :=
{| utcnow_at := fun k => seconds (Z.of_nat k); loop_time_at := fun k => half |}.






(** *** Further properties of the error handler *)

Section FirstSuccess.
Context {A : Type}.
Variable pw : Power.
Variable retry_func : nat -> outcome A.
Variable clock : Clock.
Variable failure : nat -> exn.
Variable delays : nat -> float.
(** The operation fails at the attempts before [k] and returns [v] at
    attempt [k]. *)
Variable k : nat.
Variable v : A.
Hypothesis fails_before : forall j, j < k -> retry_func j = Raises (failure j).
Hypothesis succeeds_at : retry_func k = Returns v.



End FirstSuccess.



(** Extra X22. Whatever the operation does, the handler calls it at most
    [max_retries] times, and at least once exactly when an operation is
    given, the error's type is retryable and [max_retries] is positive; it
    records one retry attempt per call, sleeps once per call after the
    first, and only a call that returned makes the result other than
    [None]. *)
Theorem retry_accounting :
  forall (A : Type) (pw : Power) (h : ErrorHandler) (now : datetime) (clock : Clock)
         (e : exn) (context : option (gmap string string))
         (retry_func : option (nat -> outcome A)),
    let run := handle_error pw h now clock e context retry_func in
    (Z.of_nat (calls run) <= Z.max 0 (max_retries (retry_config h)))%Z
    /\ (0 < calls run <->
        is_Some retry_func
        /\ classify_error e ∈ retryable_errors (retry_config h)
        /\ (0 < max_retries (retry_config h))%Z)
    /\ length (retry_history (handler_after run))
       = length (retry_history h) + calls run
    /\ length (slept run) = calls run - 1
    /\ (is_Some (result run) -> 0 < calls run)
    /\ retry_config (handler_after run) = retry_config h.
Proof.
  intros A pw h now clock e context retry_func run. unfold run, handle_error.
  cbn [allocate]. destruct retry_func as [f|].
  - case_bool_decide as Hretry.
    + unfold retry_operation. cbn [retry_config with_history record_error].
      match goal with
      | |- context [retry_loop pw f clock ?n 0 false ?h' ?ctx 0 []] =>
          destruct (retry_loop_accounting pw f clock n 0 false h' ctx 0 [])
            as (Hcalls & Hpos & Hhist & Hslept & Hcfg);
          set (rest := retry_loop pw f clock n 0 false h' ctx 0 []) in *
      end.
      cbn [retry_config with_history record_error retry_history length Nat.ltb Nat.leb]
        in Hhist, Hslept, Hcfg.
      split; [lia|]. split.
      { split.
        - intros Hsome. split; [eexists; reflexivity|]. split; [exact Hretry | lia].
        - intros (_ & _ & Hmax). apply Hpos; [lia | reflexivity]. }
      split; [lia|]. split.
      { destruct (calls rest); simpl in Hslept; lia. }
      split; [|exact Hcfg].
      intros [v Hv]. apply Hpos; [|reflexivity]. subst rest.
      destruct (Z.to_nat (max_retries (retry_config h))) as [|n'] eqn:En; [|lia].
      cbn [retry_loop result] in Hv. discriminate.
    + cbn [handler_after calls slept result record_error with_history retry_history
           retry_config length].
      split; [lia|]. split.
      { split; [lia|]. intros (_ & Hin & _). contradiction. }
      split; [lia|]. split; [reflexivity|]. split; [|reflexivity].
      intros [v Hv]. discriminate.
  - cbn [handler_after calls slept result record_error with_history retry_history
         retry_config length].
    split; [lia|]. split.
    { split; [lia|]. intros ([f Hf] & _). discriminate. }
    split; [lia|]. split; [reflexivity|]. split; [|reflexivity].
    intros [v Hv]. discriminate.
Qed.

Lemma retry_accounting_witness :
  let run := handle_error plain_power (new_handler default_config) 0%Z ticking
               connection_failed None (Some unreachable) in
  0 < calls run /\ length (slept run) = calls run - 1.
Proof.
  cbv zeta.
  destruct (retry_accounting string plain_power (new_handler default_config) 0%Z ticking
              connection_failed None (Some unreachable))
    as (_ & Hcalled & _ & Hslept & _).
  split; [|exact Hslept].
  apply Hcalled. split; [eexists; reflexivity|]. split.
  - change (NETWORK_ERROR ∈ [NETWORK_ERROR; TIMEOUT_ERROR; MESSAGE_BROKER_ERROR]). left.
  - reflexivity.
Defined.

(** Every reference of the error history has its object in the store, and
    the store holds nothing at or beyond the next reference. *)
Definition recorded (h : ErrorHandler) : Prop :=
  (forall r, r ∈ error_history h -> is_Some (error_objects h !! r))
  /\ (forall r, is_Some (error_objects h !! r) -> r < next_ref h).

Lemma trim_elem_of {A} (size : Z) (l : list A) (x : A) :
  x ∈ Py.trim size l -> x ∈ l.
Proof.
  unfold Py.trim, Py.last_n, Py.slice_from. intros Hin.
  destruct (size <? Z.of_nat (length l))%Z; [|exact Hin].
  destruct (0 <=? - size)%Z;
    match type of Hin with _ ∈ drop ?n _ =>
      rewrite <- (take_drop n l); apply elem_of_app; right; exact Hin end.
Qed.

Lemma record_error_history (h : ErrorHandler) (r : ref) :
  (Z.of_nat (length (error_history (record_error h r))) <= max_history_size)%Z
  /\ last (error_history (record_error h r)) = Some r
  /\ (forall x, x ∈ error_history (record_error h r) -> x ∈ error_history h \/ x = r).
Proof.
  cbn [record_error with_history error_history]. split; [|split].
  - apply PyFacts.trim_bounded. reflexivity.
  - apply PyFacts.trim_keeps_last. reflexivity.
  - intros x Hx. apply trim_elem_of, elem_of_app in Hx as [Hx|Hx]; [left; exact Hx|].
    right. apply list_elem_of_singleton in Hx. exact Hx.
Qed.

(** The retry loop touches one error record only, and of that record
    neither the type, the time stamp nor the metadata. *)
Lemma retry_loop_store {A} (pw : Power) (retry_func : nat -> outcome A) (clock : Clock)
    (remaining : nat) :
  forall (attempt : nat) (bound : bool) (h : ErrorHandler) (ctx : ref) (made : nat)
         (sleeps : list float) (c : ErrorContext),
    error_objects h !! ctx = Some c ->
    let h' := handler_after (retry_loop pw retry_func clock remaining attempt bound h ctx
                               made sleeps) in
    next_ref h' = next_ref h
    /\ (forall r, r <> ctx -> error_objects h' !! r = error_objects h !! r)
    /\ (exists c', error_objects h' !! ctx = Some c'
                   /\ error_type c' = error_type c
                   /\ error_timestamp c' = error_timestamp c
                   /\ error_metadata c' = error_metadata c)
    /\ ((Z.of_nat (length (error_history h)) <= max_history_size)%Z ->
        (Z.of_nat (length (error_history h')) <= max_history_size)%Z)
    /\ (forall r, r ∈ error_history h' -> r ∈ error_history h \/ r = ctx)
    /\ (last (error_history h) = Some ctx -> last (error_history h') = Some ctx).
Proof.
  induction remaining as [|remaining IH]; intros attempt bound h ctx made sleeps c Hc h'.
  - unfold h'. cbn [retry_loop handler_after].
    repeat split; eauto 6.
  - assert (Hstep : forall (e : exn) (h1 : ErrorHandler) (made1 : nat)
                           (sleeps1 : list float),
               error_objects h1 = error_objects h ->
               next_ref h1 = next_ref h ->
               error_history h1 = error_history h ->
               let h1' := handler_after
                            (on_exception attempt e h1 ctx made1 sleeps1
                               (fun h2 => retry_loop pw retry_func clock remaining
                                            (S attempt) true h2 ctx made1 sleeps1)) in
               next_ref h1' = next_ref h
               /\ (forall r, r <> ctx -> error_objects h1' !! r = error_objects h !! r)
               /\ (exists c', error_objects h1' !! ctx = Some c'
                              /\ error_type c' = error_type c
                              /\ error_timestamp c' = error_timestamp c
                              /\ error_metadata c' = error_metadata c)
               /\ ((Z.of_nat (length (error_history h)) <= max_history_size)%Z ->
                   (Z.of_nat (length (error_history h1')) <= max_history_size)%Z)
               /\ (forall r, r ∈ error_history h1' -> r ∈ error_history h \/ r = ctx)
               /\ (last (error_history h) = Some ctx ->
                   last (error_history h1') = Some ctx)).
    { intros e h1 made1 sleeps1 Hobjs Hnext1 Hhist1 h1'. unfold h1', on_exception.
      case_bool_decide as Hlast.
      - cbn [handler_after mutate amend_attempt with_history next_ref
             error_objects error_history].
        rewrite Hobjs, Hnext1, Hhist1.
        split; [reflexivity|]. split.
        { intros r Hr. apply lookup_alter_ne. congruence. }
        split; [|repeat split; eauto].
        eexists. split; [apply altered_record; exact Hc|].
        repeat split; reflexivity.
      - match goal with
        | |- context [retry_loop _ _ _ remaining (S attempt) true
                        (record_error ?hp ctx) ctx made1 sleeps1] =>
            destruct (IH (S attempt) true (record_error hp ctx) ctx made1 sleeps1
                        (set_error_message (exn_text e)
                           (set_retry_count (Z.of_nat attempt + 1) c)))
              as (Hnext & Hothers & (c' & Hc' & Htype & Htime & Hmeta)
                  & Hbound & Hrefs & Hfinal);
            [cbn [record_error mutate amend_attempt with_history error_objects];
             rewrite Hobjs; apply altered_record, altered_record; exact Hc|];
            destruct (record_error_history hp ctx) as (Hb & Hl & Hr);
            set (rest := retry_loop pw retry_func clock remaining (S attempt) true
                           (record_error hp ctx) ctx made1 sleeps1) in *
        end.
        cbn [record_error mutate amend_attempt with_history error_objects next_ref]
          in Hnext, Hothers.
        rewrite Hnext1 in Hnext. rewrite Hobjs in Hothers.
        split; [exact Hnext|]. split.
        { intros r Hne.
          transitivity (alter (set_error_message (exn_text e)) ctx
                          (alter (set_retry_count (Z.of_nat attempt + 1)) ctx
                             (error_objects h)) !! r); [exact (Hothers r Hne)|].
          rewrite !lookup_alter_ne by congruence. reflexivity. }
        split; [exists c'; repeat split; assumption|].
        split; [intros _; apply Hbound; exact Hb|].
        split; [|intros _; apply Hfinal; exact Hl].
        intros r Hin. destruct (Hrefs r Hin) as [Hin'|Heq]; [|right; exact Heq].
        apply Hr in Hin'.
        cbn [mutate amend_attempt with_history error_history] in Hin'.
        rewrite Hhist1 in Hin'. exact Hin'. }
    unfold h'. cbn [retry_loop].
    destruct (calculate_delay pw (retry_config h) attempt (loop_time_at clock attempt))
      as [d|e0].
    + destruct (retry_func attempt) as [v|e].
      * cbn [handler_after amend_attempt push_attempt with_history next_ref
             error_objects error_history].
        repeat split; eauto 6.
      * apply Hstep; reflexivity.
    + destruct bound.
      * apply Hstep; reflexivity.
      * cbn [handler_after]. repeat split; eauto 6.
Qed.

(** Extra X23. Handling an error keeps the error history sound and
    bounded: afterwards it has at most 1000 entries, the last of them is
    the record made for this error, every entry has its record, the records
    of earlier errors are exactly as before, and the new record keeps the
    type and the time stamp it was made with however the retries go. *)
Theorem error_history_stays_recorded :
  forall (A : Type) (pw : Power) (h : ErrorHandler) (now : datetime) (clock : Clock)
         (e : exn) (context : option (gmap string string))
         (retry_func : option (nat -> outcome A)),
    recorded h ->
    let h' := handler_after (handle_error pw h now clock e context retry_func) in
    recorded h'
    /\ (Z.of_nat (length (error_history h')) <= max_history_size)%Z
    /\ last (error_history h') = Some (next_ref h)
    /\ (forall r, r < next_ref h -> error_objects h' !! r = error_objects h !! r)
    /\ exists c, error_objects h' !! next_ref h = Some c
                 /\ error_type c = classify_error e
                 /\ error_timestamp c = now
                 /\ error_metadata c = default ∅ context.
Proof.
  intros A pw h now clock e context retry_func [Hrefs Hfresh] h'.
  set (c0 := {| error_type := classify_error e; error_message := exn_text e;
                error_timestamp := now; agent_id := None; error_topic := None;
                message_id := None; error_retry_count := 0;
                error_metadata := default ∅ context |}).
  set (h1 := with_history h (<[next_ref h := c0]> (error_objects h)) (S (next_ref h))
               (error_history h) (retry_history h)).
  destruct (record_error_history h1 (next_ref h)) as (Hb & Hl & Hr).
  assert (Hstop :
    let h2 := record_error h1 (next_ref h) in
    recorded h2
    /\ (Z.of_nat (length (error_history h2)) <= max_history_size)%Z
    /\ last (error_history h2) = Some (next_ref h)
    /\ (forall r, r < next_ref h -> error_objects h2 !! r = error_objects h !! r)
    /\ exists c, error_objects h2 !! next_ref h = Some c
                 /\ error_type c = classify_error e
                 /\ error_timestamp c = now
                 /\ error_metadata c = default ∅ context).
  { cbv zeta. split; [split|].
    - intros r Hin. apply Hr in Hin as [Hin| ->].
      + cbn [record_error h1 with_history error_objects].
        destruct (decide (r = next_ref h)) as [->|Hne].
        * rewrite lookup_insert_eq. eexists; reflexivity.
        * rewrite lookup_insert_ne by congruence. apply Hrefs. exact Hin.
      + cbn [record_error h1 with_history error_objects].
        rewrite lookup_insert_eq. eexists; reflexivity.
    - intros r. cbn [record_error h1 with_history error_objects next_ref].
      destruct (decide (r = next_ref h)) as [->|Hne]; [lia|].
      rewrite lookup_insert_ne by congruence. intros Hsome. apply Hfresh in Hsome. lia.
    - split; [exact Hb|]. split; [exact Hl|]. split.
      + intros r Hlt. cbn [record_error h1 with_history error_objects].
        apply lookup_insert_ne. lia.
      + exists c0. cbn [record_error h1 with_history error_objects].
        rewrite lookup_insert_eq. repeat split; reflexivity. }
  unfold h', handle_error. cbn [allocate]. fold c0. fold h1.
  destruct retry_func as [f|]; [|exact Hstop].
  case_bool_decide as Hretry; [|exact Hstop].
  destruct Hstop as ([Hrefs2 Hfresh2] & _ & _ & Hold & (c & Hc & Htype & Htime & Hmeta)).
  unfold retry_operation.
  match goal with
  | |- context [retry_loop pw f clock ?n 0 false ?h2 ?ctx 0 []] =>
      destruct (retry_loop_store pw f clock n 0 false h2 ctx 0 [] c Hc)
        as (Hnext & Hothers & (c' & Hc' & Htype' & Htime' & Hmeta')
            & Hbound & Hin & Hlast);
      set (rest := retry_loop pw f clock n 0 false h2 ctx 0 []) in *
  end.
  split; [split|].
  - intros r Hr'. destruct (Hin r Hr') as [Hr''| ->].
    + destruct (decide (r = next_ref h)) as [->|Hne]; [eexists; exact Hc'|].
      destruct (Hrefs2 r Hr'') as [x Hx]. exists x.
      transitivity (error_objects (record_error h1 (next_ref h)) !! r);
        [exact (Hothers r Hne) | exact Hx].
    + eexists; exact Hc'.
  - intros r [x Hx]. rewrite Hnext.
    destruct (decide (r = next_ref h)) as [->|Hne].
    + cbn [record_error h1 with_history next_ref]. lia.
    + apply Hfresh2. exists x.
      transitivity (error_objects (handler_after rest) !! r);
        [symmetry; exact (Hothers r Hne) | exact Hx].
  - split; [apply Hbound; exact Hb|]. split; [apply Hlast; exact Hl|]. split.
    + intros r Hlt.
      transitivity (error_objects (record_error h1 (next_ref h)) !! r);
        [apply Hothers; lia | apply Hold; exact Hlt].
    + exists c'. split; [exact Hc'|]. repeat split; congruence.
Qed.

Lemma error_history_stays_recorded_witness :
  let h' := handler_after
              (handle_error (A := string) plain_power (new_handler default_config) 0%Z
                 ticking connection_failed None None) in
  (Z.of_nat (length (error_history h')) <= max_history_size)%Z
  /\ last (error_history h') = Some 0.
Proof.
  cbv zeta.
  destruct (error_history_stays_recorded string plain_power (new_handler default_config)
              0%Z ticking connection_failed None None) as (_ & Hb & Hl & _).
  - split.
    + intros r Hr. cbn [new_handler error_history] in Hr. inversion Hr.
    + intros r [x Hx]. cbn [new_handler error_objects] in Hx.
      rewrite lookup_empty in Hx. discriminate.
  - split; [exact Hb | exact Hl].
Defined.


Section DelayFailure.
Context {A : Type}.
Variable pw : Power.
Variable retry_func : nat -> outcome A.
Variable clock : Clock.
Variable failure : nat -> exn.
Variable delays : nat -> float.
(** The exception the delay computation of an attempt raises. *)
Variable overflow : nat -> exn.
(** The operation fails at every attempt; the delays of the attempts
    before [k] are computed, those from [k] on are not. *)
Variable k : nat.
Hypothesis always_fails : forall j, retry_func j = Raises (failure j).



End DelayFailure.



End ErrorHandlerFacts.

(** ** Message life cycle *)

Module MessageFacts.
Import Message.

Lemma retry_count_after (n : nat) (m : AgentMessage) :
  retry_count (Nat.iter n increment_retry m) = (retry_count m + Z.of_nat n)%Z
  /\ Message.max_retries (Nat.iter n increment_retry m) = Message.max_retries m
  /\ ttl (Nat.iter n increment_retry m) = ttl m
  /\ timestamp (Nat.iter n increment_retry m) = timestamp m.
Proof.
  induction n as [|n (Hcount & Hmax & Httl & Htime)].
  - cbn [Nat.iter nat_rect]. repeat split. lia.
  - change (Nat.iter (S n) increment_retry m)
      with (increment_retry (Nat.iter n increment_retry m)).
    cbn [increment_retry retry_count Message.max_retries ttl timestamp].
    repeat split; try assumption. lia.
Qed.

Lemma is_expired_later (now now' : datetime) (m : AgentMessage) :
  (now <= now')%Z -> is_expired now m = true -> is_expired now' m = true.
Proof.
  unfold is_expired. intros Hle. destruct (ttl m) as [t|]; [|discriminate].
  rewrite !bool_decide_eq_true. lia.
Qed.

Lemma is_expired_after (n : nat) (now : datetime) (m : AgentMessage) :
  is_expired now (Nat.iter n increment_retry m) = is_expired now m.
Proof.
  destruct (retry_count_after n m) as (_ & _ & Httl & Htime).
  unfold is_expired. rewrite Httl, Htime. reflexivity.
Qed.

(** Extra X25. A message that was retried [n] times more may be retried
    again exactly when its retry count plus [n] is below its maximum and it
    has not expired; a message that may not be retried never may again,
    neither later nor after more retries. *)
Theorem retry_budget :
  forall (m : AgentMessage) (now : datetime) (n : nat),
    (should_retry now (Nat.iter n increment_retry m) = true <->
     (retry_count m + Z.of_nat n < Message.max_retries m)%Z
     /\ is_expired now m = false)
    /\ (forall (now' : datetime) (n' : nat),
           (now <= now')%Z -> n <= n' ->
           should_retry now' (Nat.iter n' increment_retry m) = true ->
           should_retry now (Nat.iter n increment_retry m) = true).
Proof.
  intros m now n.
  assert (Hiff : forall t k,
    should_retry t (Nat.iter k increment_retry m) = true <->
    (retry_count m + Z.of_nat k < Message.max_retries m)%Z /\ is_expired t m = false).
  { intros t k. unfold should_retry. rewrite is_expired_after.
    destruct (retry_count_after k m) as (-> & -> & _ & _).
    rewrite andb_true_iff, bool_decide_eq_true, negb_true_iff. reflexivity. }
  split; [apply Hiff|].
  intros now' n' Hnow Hn Hlater. apply Hiff in Hlater as [Hcount Hfresh].
  apply Hiff. split; [lia|].
  destruct (is_expired now m) eqn:E; [|reflexivity].
  rewrite (is_expired_later now now' m Hnow E) in Hfresh. discriminate.
Qed.

(** A message with the default retry settings and no time to live. *)
Definition probe : AgentMessage :=
{| id := 1; timestamp := 0%Z; sender_id := "agent-1"; sender_name := "Agent 1";
   sender_role := "operator"; message_type := TEXT; priority := NORMAL;
   content := "ping"; topic := "ops"; reply_to := None; metadata := ∅;
   tags := []; correlation_id := None; requires_response := false;
   response_timeout := None; ttl := None; retry_count := 0; Message.max_retries := 3 |}.

Lemma retry_budget_witness :
  should_retry (seconds 5) (Nat.iter 2 increment_retry probe) = true
  /\ should_retry (seconds 5) (Nat.iter 1 increment_retry probe) = true.
Proof.
  assert (Htwice : should_retry (seconds 5) (Nat.iter 2 increment_retry probe) = true).
  { apply (proj2 (proj1 (retry_budget probe (seconds 5) 2))).
    split; [reflexivity | reflexivity]. }
  split; [exact Htwice|].
  apply (proj2 (retry_budget probe (seconds 5) 1) (seconds 5) 2);
    [reflexivity | lia | exact Htwice].
Defined.

End MessageFacts.

(** ** Conversation threads *)

Module ConversationManagerFacts.
Import Message ConversationManager.

Lemma find_thread_first (mgr : ConversationManager) (now : datetime)
  (before after : list UUID) (first : UUID) :
  (forall x, x ∈ before -> eligible mgr now x = false) ->
  eligible mgr now first = true ->
  find_thread mgr now (before ++ first :: after)%list = Some first.
Proof.
  intros Hbefore Hfirst. induction before as [|x before IH]; simpl.
  - rewrite Hfirst. reflexivity.
  - rewrite (Hbefore x) by left. apply IH. intros y Hy. apply Hbefore. right. exact Hy.
Qed.

Lemma find_thread_none (mgr : ConversationManager) (now : datetime) (tids : list UUID) :
  (forall x, x ∈ tids -> eligible mgr now x = false) ->
  find_thread mgr now tids = None.
Proof.
  intros Hnone. induction tids as [|x tids IH]; simpl; [reflexivity|].
  rewrite (Hnone x) by left. apply IH. intros y Hy. apply Hnone. right. exact Hy.
Qed.

(** The last activity of a known thread. *)
Definition last_activity_of (mgr : ConversationManager) (tid : UUID) : option datetime :=
last_activity <$> threads mgr !! tid.

Definition note (n : N) (at_time : datetime) (text : string) : AgentMessage :=
{| id := n; timestamp := at_time; sender_id := "agent-1"; sender_name := "Agent 1";
   sender_role := "operator"; message_type := TEXT; priority := NORMAL;
   content := text; Message.topic := "ops"; reply_to := None; metadata := ∅;
   tags := []; correlation_id := None; requires_response := false;
   response_timeout := None; ttl := None; retry_count := 0; max_retries := 3 |}.

(** Two threads opened on ["ops"], the first at second 0 and the second at
    second 100. *)
Definition two_threads : ConversationManager :=
let first := (create_thread default_manager 1%N (seconds 0) "ops"
                (note 11 (seconds 0) "disk is full") None).1 in
(create_thread first 2%N (seconds 100) "ops"
   (note 12 (seconds 100) "cleanup started") None).1.

(** The claim of C4 as the specification words it: the thread a message
    without thread id lands in is, among the eligible threads of its topic,
    one with the newest last activity. *)
Definition reuses_most_recent (mgr : ConversationManager) (fresh : UUID)
  (now : datetime) (m : AgentMessage) : Prop :=
forall other seen seen',
  other ∈ default [] (topic_threads mgr !! Message.topic m) ->
  eligible mgr now other = true ->
  last_activity_of mgr other = Some seen ->
  last_activity_of mgr (add_message_to_thread mgr fresh now m None).2 = Some seen' ->
  (seen <= seen')%Z.

(** Claim C4, counterexample. Both threads of [two_threads] are eligible
    at second 200 and the second one was active last, yet the message
    lands in the first. *)
Lemma add_message_reuses_first_thread :
  let m := note 13 (seconds 200) "cleanup done" in
  (add_message_to_thread two_threads 3%N (seconds 200) m None).2 = 1%N
  /\ eligible two_threads (seconds 200) 1%N = true
  /\ eligible two_threads (seconds 200) 2%N = true
  /\ last_activity_of two_threads 1%N = Some (seconds 0)
  /\ last_activity_of two_threads 2%N = Some (seconds 100)
  /\ ~ reuses_most_recent two_threads 3%N (seconds 200) m.
Proof.
  cbv zeta.
  assert (H1 : (add_message_to_thread two_threads 3%N (seconds 200)
                  (note 13 (seconds 200) "cleanup done") None).2 = 1%N)
    by (vm_compute; reflexivity).
  assert (H2 : last_activity_of two_threads 1%N = Some (seconds 0))
    by (vm_compute; reflexivity).
  assert (H3 : last_activity_of two_threads 2%N = Some (seconds 100))
    by (vm_compute; reflexivity).
  assert (H4 : eligible two_threads (seconds 200) 2%N = true) by (vm_compute; reflexivity).
  split; [exact H1|]. split; [vm_compute; reflexivity|]. split; [exact H4|].
  split; [exact H2|]. split; [exact H3|].
  intros Hclaim.
  specialize (Hclaim 2%N (seconds 100) (seconds 0)).
  rewrite H1 in Hclaim.
  assert (Hle : (seconds 100 <= seconds 0)%Z).
  { apply Hclaim; [|exact H4|exact H3|exact H2].
    change (2%N ∈ [1%N; 2%N]). right. left. }
  vm_compute in Hle. apply Hle. reflexivity.
Qed.

(** Claim C4, amended. A message added without thread id lands in the
    first thread, in the order of the topic's thread list (the order of
    creation), that is known, active and was last active less than the
    timeout ago, and no thread is created; only when the list holds no
    such thread is a new thread created, appended to the list, and the
    message lands there. *)
Theorem add_message_reuses_first_eligible :
  forall (mgr : ConversationManager) (fresh : UUID) (now : datetime) (m : AgentMessage),
    let tids := default [] (topic_threads mgr !! Message.topic m) in
    let after_add := add_message_to_thread mgr fresh now m None in
    (forall before first after,
        tids = (before ++ first :: after)%list ->
        (forall x, x ∈ before -> eligible mgr now x = false) ->
        eligible mgr now first = true ->
        after_add.2 = first
        /\ topic_threads after_add.1 = topic_threads mgr
        /\ dom (threads after_add.1) = dom (threads mgr))
    /\ ((forall x, x ∈ tids -> eligible mgr now x = false) ->
        after_add.2 = fresh
        /\ topic_threads after_add.1 !! Message.topic m = Some (tids ++ [fresh])%list
        /\ exists thread, threads after_add.1 !! fresh = Some thread
             /\ ConversationManager.topic thread = Message.topic m
             /\ is_active thread = true
             /\ last_activity thread = timestamp m).
Proof.
  intros mgr fresh now m tids after_add. split.
  - intros before first after Htids Hbefore Hfirst.
    unfold after_add, add_message_to_thread, find_or_create_thread. fold tids.
    rewrite Htids, (find_thread_first mgr now before after first Hbefore Hfirst).
    cbn [fst snd threads topic_threads]. split; [reflexivity|]. split; [reflexivity|].
    apply dom_alter_L.
  - intros Hnone.
    unfold after_add, add_message_to_thread, find_or_create_thread. fold tids.
    rewrite (find_thread_none mgr now tids Hnone).
    cbn [create_thread fst snd threads topic_threads thread_id].
    split; [reflexivity|]. split; [apply lookup_insert_eq|].
    rewrite lookup_alter_eq, lookup_insert_eq. eexists. split; [reflexivity|].
    repeat split.
Qed.

Lemma add_message_reuses_first_eligible_witness :
  let m := note 13 (seconds 200) "cleanup done" in
  (add_message_to_thread two_threads 3%N (seconds 200) m None).2 = 1%N
  /\ (add_message_to_thread default_manager 3%N (seconds 200) m None).2 = 3%N.
Proof.
  cbv zeta. split.
  - apply (proj1 (add_message_reuses_first_eligible two_threads 3%N (seconds 200)
                    (note 13 (seconds 200) "cleanup done")) [] 1%N [2%N]).
    + reflexivity.
    + intros x Hx. inversion Hx.
    + vm_compute. reflexivity.
  - apply (proj2 (add_message_reuses_first_eligible default_manager 3%N (seconds 200)
                    (note 13 (seconds 200) "cleanup done"))).
    intros x Hx. inversion Hx.
Defined.


(** *** Further properties of conversation threads *)

Lemma find_thread_first_or_same (mgr : ConversationManager) (now : datetime)
    (before after : list UUID) (first : UUID) :
  (forall x, x ∈ before -> x = first \/ eligible mgr now x = false) ->
  eligible mgr now first = true ->
  find_thread mgr now (before ++ first :: after)%list = Some first.
Proof.
  intros Hbefore Hfirst. induction before as [|x before IH]; simpl.
  - rewrite Hfirst. reflexivity.
  - destruct (Hbefore x) as [-> | Hx]; [left | rewrite Hfirst; reflexivity |].
    rewrite Hx. apply IH. intros y Hy. apply Hbefore. right. exact Hy.
Qed.

Lemma find_thread_some (mgr : ConversationManager) (now : datetime) (tids : list UUID)
    (tid : UUID) :
  find_thread mgr now tids = Some tid ->
  exists before after,
    tids = (before ++ tid :: after)%list
    /\ (forall x, x ∈ before -> eligible mgr now x = false)
    /\ eligible mgr now tid = true.
Proof.
  induction tids as [|x tids IH]; simpl; [discriminate|].
  destruct (eligible mgr now x) eqn:Ex.
  - intros [= ->]. exists [], tids. split; [reflexivity|]. split; [|exact Ex].
    intros y Hy. inversion Hy.
  - intros Hfound. destruct (IH Hfound) as (before & after & -> & Hbefore & Htid).
    exists (x :: before), after. split; [reflexivity|]. split; [|exact Htid].
    intros y Hy. apply elem_of_cons in Hy as [-> | Hy]; [exact Ex | apply Hbefore, Hy].
Qed.

Lemma find_thread_nothing (mgr : ConversationManager) (now : datetime)
    (tids : list UUID) :
  find_thread mgr now tids = None -> forall x, x ∈ tids -> eligible mgr now x = false.
Proof.
  induction tids as [|y tids IH]; simpl; intros Hnone x Hx; [inversion Hx|].
  destruct (eligible mgr now y) eqn:Ey; [discriminate|].
  apply elem_of_cons in Hx as [-> | Hx]; [exact Ey | apply IH; assumption].
Qed.

(** A thread that is not eligible stays so as time passes, as long as it
    is left alone. *)
Lemma eligible_later (mgr mgr' : ConversationManager) (now now' : datetime) (tid : UUID) :
  threads mgr' !! tid = threads mgr !! tid ->
  thread_timeout mgr' = thread_timeout mgr ->
  (now <= now')%Z ->
  eligible mgr now tid = false -> eligible mgr' now' tid = false.
Proof.
  unfold eligible. intros -> -> Hle. destruct (threads mgr !! tid) as [thread|]; [|trivial].
  rewrite !andb_false_iff, !bool_decide_eq_false. intros [H|H]; [left; exact H|right; lia].
Qed.

(** The thread a message without thread id lands in, as the manager
    holds it afterwards. *)
Lemma landing_thread (mgr : ConversationManager) (fresh : UUID) (now : datetime)
    (m : AgentMessage) :
  let after_add := add_message_to_thread mgr fresh now m None in
  thread_timeout after_add.1 = thread_timeout mgr
  /\ max_context_messages after_add.1 = max_context_messages mgr
  /\ (exists thread, threads after_add.1 !! after_add.2 = Some thread
        /\ is_active thread = true /\ last_activity thread = timestamp m)
  /\ (forall x, x <> after_add.2 -> threads after_add.1 !! x = threads mgr !! x)
  /\ exists before,
       (forall x, x ∈ before -> x = after_add.2 \/ eligible mgr now x = false)
       /\ exists after,
            default [] (topic_threads after_add.1 !! Message.topic m)
            = (before ++ after_add.2 :: after)%list.
Proof.
  cbv zeta. unfold add_message_to_thread, find_or_create_thread.
  destruct (find_thread mgr now (default [] (topic_threads mgr !! Message.topic m)))
    as [tid|] eqn:Efind.
  - destruct (find_thread_some _ _ _ _ Efind) as (before & after & Hlist & Hbefore & Htid).
    cbn [fst snd thread_timeout max_context_messages threads topic_threads].
    split; [reflexivity|]. split; [reflexivity|]. split; [|split].
    + unfold eligible in Htid. destruct (threads mgr !! tid) as [thread|] eqn:Eth;
        [|discriminate].
      apply andb_true_iff in Htid as [Hactive _].
      exists (touch_thread m thread). rewrite lookup_alter_eq, Eth.
      split; [reflexivity|]. split; [exact Hactive | reflexivity].
    + intros x Hx. apply lookup_alter_ne. congruence.
    + exists before. split; [intros x Hx; right; apply Hbefore, Hx|].
      exists after. exact Hlist.
  - cbn [create_thread fst snd thread_timeout max_context_messages threads topic_threads
         thread_id].
    split; [reflexivity|]. split; [reflexivity|]. split; [|split].
    + eexists. rewrite lookup_alter_eq, lookup_insert_eq. split; [reflexivity|].
      split; reflexivity.
    + intros x Hx. rewrite lookup_alter_ne, lookup_insert_ne by congruence. reflexivity.
    + exists (default [] (topic_threads mgr !! Message.topic m)). split.
      * intros x Hx. right. exact (find_thread_nothing _ _ _ Efind x Hx).
      * exists []. rewrite lookup_insert_eq. reflexivity.
Qed.

(** Extra X26. When no thread of the topic is eligible, adding a message
    without thread id opens a thread that holds the message twice: once
    stored by [create_thread] and once appended by [add_message_to_thread].
    The thread counts one message, and the context holds it twice as well
    unless it keeps one message only. *)
Theorem new_thread_holds_first_message_twice :
  forall (mgr : ConversationManager) (fresh : UUID) (now : datetime) (m : AgentMessage),
    find_thread mgr now (default [] (topic_threads mgr !! Message.topic m)) = None ->
    let after_add := add_message_to_thread mgr fresh now m None in
    after_add.2 = fresh
    /\ get_thread_messages after_add.1 fresh None = [m; m]
    /\ message_count <$> threads after_add.1 !! fresh = Some 1%Z
    /\ created_at <$> threads after_add.1 !! fresh = Some now
    /\ last_activity <$> threads after_add.1 !! fresh = Some (timestamp m)
    /\ message_threads after_add.1 !! id m = Some fresh
    /\ ((0 <= max_context_messages mgr)%Z ->
        recent_messages <$> get_conversation_context after_add.1 fresh
        = Some (if bool_decide (max_context_messages mgr = 1)%Z then [m] else [m; m])).
Proof.
  intros mgr fresh now m Hnone after_add.
  unfold after_add, add_message_to_thread, find_or_create_thread. rewrite Hnone.
  cbn [create_thread fst snd thread_id]. unfold get_thread_messages, get_conversation_context.
  cbn [threads thread_messages message_threads conversation_contexts
       max_context_messages].
  split; [reflexivity|]. split.
  { rewrite !lookup_insert_eq. reflexivity. }
  rewrite !lookup_alter_eq, !lookup_insert_eq.
  split; [reflexivity|]. split; [reflexivity|]. split; [reflexivity|].
  split; [reflexivity|]. intros Hlimit.
  cbn [fmap option_fmap option_map update_conversation_context recent_messages
       app length]. f_equal.
  case_bool_decide as Hone.
  - rewrite Hone. reflexivity.
  - destruct (Z.ltb_spec (max_context_messages mgr) (Z.of_nat 2)); [|reflexivity].
    replace (max_context_messages mgr) with 0%Z by lia. reflexivity.
Qed.

Lemma new_thread_holds_first_message_twice_witness :
  let m := note 13 (seconds 200) "cleanup done" in
  get_thread_messages (add_message_to_thread default_manager 3%N (seconds 200) m None).1
    3%N None = [m; m].
Proof.
  cbv zeta.
  apply (new_thread_holds_first_message_twice default_manager 3%N (seconds 200)
           (note 13 (seconds 200) "cleanup done")).
  reflexivity.
Defined.


(** Extra X27. After a message was added without thread id, a message of
    the same topic added while the clock is less than the timeout past the
    first message's time stamp lands in the same thread and is appended to
    its messages; added at or past the timeout, it lands in another
    thread. *)
Theorem follow_up_joins_the_thread :
  forall (mgr : ConversationManager) (fresh1 fresh2 : UUID) (now1 now2 : datetime)
         (m1 m2 : AgentMessage),
    Message.topic m2 = Message.topic m1 ->
    (now1 <= now2)%Z ->
    let first := add_message_to_thread mgr fresh1 now1 m1 None in
    let second := add_message_to_thread first.1 fresh2 now2 m2 None in
    ((now2 - timestamp m1 < thread_timeout mgr)%Z ->
     second.2 = first.2
     /\ get_thread_messages second.1 first.2 None
        = (get_thread_messages first.1 first.2 None ++ [m2])%list
     /\ topic_threads second.1 = topic_threads first.1)
    /\ (~ (now2 - timestamp m1 < thread_timeout mgr)%Z ->
        fresh2 <> first.2 -> second.2 <> first.2).
Proof.
  intros mgr fresh1 fresh2 now1 now2 m1 m2 Htopic Hclock first second.
  destruct (landing_thread mgr fresh1 now1 m1)
    as (Htimeout & _ & (thread & Hthread & Hactive & Hlast) & Hothers
        & before & Hbefore & after & Hlist).
  fold first in Htimeout, Hthread, Hothers, Hbefore, Hlist.
  assert (Hstate : forall tid,
            find_thread first.1 now2 (default [] (topic_threads first.1 !! Message.topic m2))
            = Some tid ->
            second.2 = tid
            /\ get_thread_messages second.1 tid None
               = (get_thread_messages first.1 tid None ++ [m2])%list
            /\ topic_threads second.1 = topic_threads first.1).
  { intros tid Hfound. unfold second, add_message_to_thread, find_or_create_thread.
    rewrite Hfound. cbn [fst snd]. unfold get_thread_messages.
    cbn [thread_messages topic_threads]. rewrite lookup_insert_eq.
    repeat split; reflexivity. }
  split.
  - intros Hsoon. apply Hstate. rewrite Htopic, Hlist.
    apply find_thread_first_or_same.
    + intros x Hx. destruct (decide (x = first.2)) as [Hsame|Hother]; [left; exact Hsame|].
      right. destruct (Hbefore x Hx) as [Hsame|Hnot]; [contradiction|].
      apply (eligible_later mgr first.1 now1 now2 x (Hothers x Hother) Htimeout Hclock Hnot).
    + unfold eligible. rewrite Hthread, Hactive, Hlast, Htimeout.
      apply andb_true_iff. split; [reflexivity|]. apply bool_decide_eq_true. exact Hsoon.
  - intros Hlate Hfresh Hsame.
    destruct (find_thread first.1 now2
                (default [] (topic_threads first.1 !! Message.topic m2)))
      as [tid|] eqn:Efind.
    + destruct (Hstate tid eq_refl) as (Hsecond & _).
      destruct (find_thread_some _ _ _ _ Efind) as (_ & _ & _ & _ & Htid).
      rewrite <- Hsecond, Hsame in Htid. unfold eligible in Htid.
      rewrite Hthread, Hactive, Hlast, Htimeout in Htid.
      apply andb_true_iff in Htid as [_ Htid]. apply bool_decide_eq_true in Htid.
      contradiction.
    + apply Hfresh. rewrite <- Hsame.
      unfold second, add_message_to_thread, find_or_create_thread. rewrite Efind.
      reflexivity.
Qed.

Lemma follow_up_joins_the_thread_witness :
  let first := add_message_to_thread default_manager 3%N (seconds 200)
                 (note 13 (seconds 200) "cleanup done") None in
  (add_message_to_thread first.1 4%N (seconds 300)
     (note 14 (seconds 300) "thanks") None).2 = first.2.
Proof.
  cbv zeta.
  apply (proj1 (follow_up_joins_the_thread default_manager 3%N 4%N (seconds 200)
                  (seconds 300) (note 13 (seconds 200) "cleanup done")
                  (note 14 (seconds 300) "thanks") eq_refl ltac:(vm_compute; discriminate))).
  vm_compute. reflexivity.
Defined.


Lemma archived_lookup (mgr : ConversationManager) (now : datetime) (tid : UUID) :
  threads (archive_old_threads mgr now).1 !! tid
  = (fun thread => if is_old mgr now thread then deactivate thread else thread)
      <$> threads mgr !! tid.
Proof. cbn [archive_old_threads fst with_threads threads]. apply lookup_fmap. Qed.

(** Archiving deactivates only threads that no clock read from then on
    finds eligible. *)
Lemma archived_eligible (mgr : ConversationManager) (now now' : datetime) (tid : UUID) :
  (now <= now')%Z ->
  eligible (archive_old_threads mgr now).1 now' tid = eligible mgr now' tid.
Proof.
  intros Hle. unfold eligible. rewrite archived_lookup.
  cbn [archive_old_threads fst with_threads thread_timeout].
  destruct (threads mgr !! tid) as [thread|]; [|reflexivity].
  cbn [fmap option_fmap option_map]. unfold is_old.
  destruct (is_active thread) eqn:Eactive; cbn [andb]; [|rewrite Eactive; reflexivity].
  case_bool_decide as Hold; [|rewrite Eactive; reflexivity].
  cbn [deactivate is_active last_activity andb]. symmetry.
  apply bool_decide_eq_false. lia.
Qed.

Lemma find_thread_ext (mgr mgr' : ConversationManager) (now : datetime)
    (tids : list UUID) :
  (forall x, x ∈ tids -> eligible mgr' now x = eligible mgr now x) ->
  find_thread mgr' now tids = find_thread mgr now tids.
Proof.
  intros Hsame. induction tids as [|x tids IH]; [reflexivity|].
  cbn [find_thread]. rewrite (Hsame x) by left.
  rewrite IH; [reflexivity|]. intros y Hy. apply Hsame. right. exact Hy.
Qed.

(** Extra X28. A closed thread is never reused: [close_thread] succeeds
    exactly on a known thread, after it no message without thread id lands
    in that thread, and the other threads are as eligible as before.
    Archiving at some time does not change where a message added at that
    time or later lands. *)
Theorem deactivated_threads_are_not_reused :
  forall (mgr : ConversationManager) (tid fresh : UUID) (closed_by : string)
         (now now' : datetime) (m : AgentMessage),
    let closed := close_thread mgr tid closed_by in
    (closed.2 = true <-> is_Some (threads mgr !! tid))
    /\ (closed.2 = false -> closed.1 = mgr)
    /\ eligible closed.1 now tid = false
    /\ (forall other, other <> tid -> eligible closed.1 now other = eligible mgr now other)
    /\ (fresh <> tid -> (add_message_to_thread closed.1 fresh now m None).2 <> tid)
    /\ ((now <= now')%Z ->
        (add_message_to_thread (archive_old_threads mgr now).1 fresh now' m None).2
        = (add_message_to_thread mgr fresh now' m None).2).
Proof.
  intros mgr tid fresh closed_by now now' m closed.
  assert (Hnot : eligible closed.1 now tid = false).
  { unfold closed, close_thread, eligible.
    destruct (threads mgr !! tid) as [thread|] eqn:Eth; cbn [fst with_threads threads].
    - rewrite lookup_alter_eq, Eth. reflexivity.
    - rewrite Eth. reflexivity. }
  split; [|split; [|split; [exact Hnot|split; [|split]]]].
  - unfold closed, close_thread. destruct (threads mgr !! tid) as [thread|]; cbn [snd].
    + split; [eauto | reflexivity].
    + split; [discriminate | intros [x Hx]; discriminate].
  - unfold closed, close_thread. destruct (threads mgr !! tid) as [thread|]; cbn [fst snd];
      [discriminate | reflexivity].
  - intros other Hother. unfold closed, close_thread, eligible.
    destruct (threads mgr !! tid) as [thread|]; cbn [fst with_threads threads thread_timeout];
      [|reflexivity].
    rewrite lookup_alter_ne by congruence. reflexivity.
  - intros Hfresh Hsame.
    unfold add_message_to_thread, find_or_create_thread in Hsame.
    destruct (find_thread closed.1 now
                (default [] (topic_threads closed.1 !! Message.topic m)))
      as [found|] eqn:Efind; cbn [fst snd create_thread thread_id] in Hsame.
    + destruct (find_thread_some _ _ _ _ Efind) as (_ & _ & _ & _ & Hfound).
      rewrite Hsame, Hnot in Hfound. discriminate.
    + contradiction.
  - intros Hle. unfold add_message_to_thread, find_or_create_thread.
    cbn [archive_old_threads fst with_threads topic_threads].
    rewrite (find_thread_ext mgr _ now'
               (default [] (topic_threads mgr !! Message.topic m))
               (fun x _ => archived_eligible mgr now now' x Hle)).
    destruct (find_thread mgr now' (default [] (topic_threads mgr !! Message.topic m)));
      reflexivity.
Qed.

Lemma deactivated_threads_are_not_reused_witness :
  let closed := close_thread two_threads 1%N "agent-1" in
  closed.2 = true
  /\ (add_message_to_thread closed.1 3%N (seconds 200)
        (note 13 (seconds 200) "cleanup done") None).2 <> 1%N.
Proof.
  cbv zeta.
  destruct (deactivated_threads_are_not_reused two_threads 1%N 3%N "agent-1"
              (seconds 200) (seconds 200) (note 13 (seconds 200) "cleanup done"))
    as (Hok & _ & _ & _ & Hnot & _).
  split.
  - apply Hok. vm_compute. eexists; reflexivity.
  - apply Hnot. discriminate.
Defined.


(** A history trimmed to a positive size is its last [size] entries. *)
Lemma trim_drop {A} (size : Z) (l : list A) :
  (0 < size)%Z -> Py.trim size l = drop (length l - Z.to_nat size) l.
Proof.
  intros Hsize. unfold Py.trim, Py.last_n, Py.slice_from.
  destruct (Z.ltb_spec size (Z.of_nat (length l))).
  - destruct (Z.leb_spec 0 (- size)); [lia|]. f_equal. lia.
  - replace (length l - Z.to_nat size) with 0 by lia. reflexivity.
Qed.

Lemma last_n_drop {A} (size : Z) (l : list A) :
  (0 < size)%Z -> Py.last_n size l = drop (length l - Z.to_nat size) l.
Proof.
  intros Hsize. unfold Py.last_n, Py.slice_from.
  destruct (Z.leb_spec 0 (- size)); [lia|]. f_equal. lia.
Qed.

Lemma trim_trim_snoc {A} (size : Z) (l : list A) (x : A) :
  (0 < size)%Z -> Py.trim size (Py.trim size l ++ [x]) = Py.trim size (l ++ [x]).
Proof.
  intros Hsize. rewrite !trim_drop by exact Hsize.
  rewrite !length_app, length_drop. cbn [length].
  destruct (le_lt_dec (Z.to_nat size) (length l)) as [Hlong|Hshort].
  - rewrite !drop_app_le by (rewrite ?length_drop; lia).
    rewrite drop_drop. do 2 f_equal. lia.
  - replace (length l - Z.to_nat size) with 0 by lia. cbn [drop]. f_equal. lia.
Qed.

Lemma trim_shorten (size : Z) (l : list AgentMessage) :
  (0 < size)%Z -> Py.trim size (shorten size l) = Py.trim size l.
Proof.
  intros Hsize. unfold shorten. destruct (Z.ltb_spec (size * 2) (Z.of_nat (length l)));
    [|reflexivity].
  rewrite last_n_drop, !trim_drop by exact Hsize. rewrite length_drop, drop_drop.
  f_equal. lia.
Qed.

(** The managers the operations build from a new one. *)
Inductive reachable : ConversationManager -> Prop :=
| reach_new (max_context : Z) (timeout : timedelta) :
    reachable (new_manager max_context timeout)
| reach_create (mgr : ConversationManager) (fresh : UUID) (now : datetime)
    (topic_name : string) (m : AgentMessage) (given_title : option string) :
    reachable mgr -> reachable (create_thread mgr fresh now topic_name m given_title).1
| reach_add (mgr : ConversationManager) (fresh : UUID) (now : datetime)
    (m : AgentMessage) (explicit : option UUID) :
    reachable mgr -> reachable (add_message_to_thread mgr fresh now m explicit).1
| reach_close (mgr : ConversationManager) (tid : UUID) (closed_by : string) :
    reachable mgr -> reachable (close_thread mgr tid closed_by).1
| reach_archive (mgr : ConversationManager) (now : datetime) :
    reachable mgr -> reachable (archive_old_threads mgr now).1
| reach_cleanup (mgr : ConversationManager) (now : datetime) :
    reachable mgr -> reachable (cleanup_old_data mgr now).1.

(** Every context holds the last [max_context_messages] messages of its
    thread. *)
Definition tail_kept (mgr : ConversationManager) : Prop :=
  forall tid context,
    conversation_contexts mgr !! tid = Some context ->
    recent_messages context
    = Py.trim (max_context_messages mgr) (default [] (thread_messages mgr !! tid)).

Lemma create_thread_tail_kept (mgr : ConversationManager) (fresh : UUID) (now : datetime)
    (topic_name : string) (m : AgentMessage) (given_title : option string) :
  (0 < max_context_messages mgr)%Z -> tail_kept mgr ->
  tail_kept (create_thread mgr fresh now topic_name m given_title).1.
Proof.
  intros Hmax Hkept tid context.
  cbn [create_thread fst conversation_contexts thread_messages max_context_messages].
  destruct (decide (tid = fresh)) as [->|Hne].
  - rewrite !lookup_insert_eq. intros [= <-]. cbn [recent_messages default from_option].
    unfold Datatypes.id. unfold Py.trim. cbn [length].
    destruct (Z.ltb_spec (max_context_messages mgr) (Z.of_nat 1)); [lia | reflexivity].
  - rewrite !lookup_insert_ne by congruence. apply Hkept.
Qed.

(** The body of [add_message_to_thread] once the thread id is settled. *)
Lemma add_explicit_tail_kept (mgr : ConversationManager) (fresh : UUID) (now : datetime)
    (m : AgentMessage) (tid : UUID) :
  (0 < max_context_messages mgr)%Z -> tail_kept mgr ->
  tail_kept (add_message_to_thread mgr fresh now m (Some tid)).1.
Proof.
  intros Hmax Hkept tid' context.
  cbn [add_message_to_thread fst conversation_contexts thread_messages
       max_context_messages].
  destruct (decide (tid' = tid)) as [->|Hne].
  - rewrite lookup_alter_eq, lookup_insert_eq.
    destruct (conversation_contexts mgr !! tid) as [old|] eqn:Eold; [|discriminate].
    intros [= <-]. cbn [update_conversation_context recent_messages default from_option].
    unfold Datatypes.id. rewrite (Hkept tid old Eold).
    apply (trim_trim_snoc (max_context_messages mgr)). exact Hmax.
  - rewrite lookup_alter_ne, lookup_insert_ne by congruence. apply Hkept.
Qed.

Lemma add_message_as_explicit (mgr : ConversationManager) (fresh : UUID) (now : datetime)
    (m : AgentMessage) :
  add_message_to_thread mgr fresh now m None
  = add_message_to_thread (find_or_create_thread mgr fresh now m).1 fresh now m
      (Some (find_or_create_thread mgr fresh now m).2).
Proof.
  unfold add_message_to_thread. destruct (find_or_create_thread mgr fresh now m).
  reflexivity.
Qed.

Lemma find_or_create_tail_kept (mgr : ConversationManager) (fresh : UUID) (now : datetime)
    (m : AgentMessage) :
  (0 < max_context_messages mgr)%Z -> tail_kept mgr ->
  tail_kept (find_or_create_thread mgr fresh now m).1
  /\ max_context_messages (find_or_create_thread mgr fresh now m).1
     = max_context_messages mgr.
Proof.
  intros Hmax Hkept. unfold find_or_create_thread.
  destruct (find_thread mgr now (default [] (topic_threads mgr !! Message.topic m))).
  - split; [exact Hkept | reflexivity].
  - split; [|reflexivity].
    apply (create_thread_tail_kept mgr fresh now (Message.topic m) m None Hmax Hkept).
Qed.

Lemma cleanup_tail_kept (mgr : ConversationManager) (now : datetime) :
  (0 < max_context_messages mgr)%Z -> tail_kept mgr ->
  tail_kept (cleanup_old_data mgr now).1.
Proof.
  intros Hmax Hkept tid context.
  cbn [cleanup_old_data archive_old_threads fst with_threads conversation_contexts
       thread_messages max_context_messages threads].
  intros Hcontext. apply map_lookup_filter_Some in Hcontext as [Hcontext _].
  rewrite (Hkept tid context Hcontext), lookup_fmap.
  destruct (thread_messages mgr !! tid) as [messages|]; [|reflexivity].
  cbn [fmap option_fmap option_map default from_option]. unfold Datatypes.id.
  symmetry. apply trim_shorten. exact Hmax.
Qed.

Lemma reachable_tail_kept (mgr : ConversationManager) :
  reachable mgr -> (0 < max_context_messages mgr)%Z -> tail_kept mgr.
Proof.
  induction 1 as [max_context timeout
                 | mgr fresh now topic_name m given_title _ IH
                 | mgr fresh now m explicit _ IH
                 | mgr tid closed_by _ IH
                 | mgr now _ IH
                 | mgr now _ IH]; intros Hmax.
  - intros tid context Hcontext. cbn [new_manager conversation_contexts] in Hcontext.
    rewrite lookup_empty in Hcontext. discriminate.
  - apply create_thread_tail_kept; [exact Hmax | apply IH; exact Hmax].
  - destruct explicit as [tid|].
    + apply add_explicit_tail_kept; [exact Hmax | apply IH; exact Hmax].
    + rewrite add_message_as_explicit in Hmax |- *.
      assert (Hmax' : (0 < max_context_messages mgr)%Z).
      { cbn [add_message_to_thread fst max_context_messages] in Hmax.
        unfold find_or_create_thread in Hmax.
        destruct (find_thread mgr now (default [] (topic_threads mgr !! Message.topic m)));
          exact Hmax. }
      destruct (find_or_create_tail_kept mgr fresh now m Hmax' (IH Hmax'))
        as [Hkept Hsame].
      apply add_explicit_tail_kept; [rewrite Hsame; exact Hmax' | exact Hkept].
  - unfold close_thread in *. destruct (threads mgr !! tid); cbn [fst] in *;
      apply IH; exact Hmax.
  - apply IH. exact Hmax.
  - apply cleanup_tail_kept; [exact Hmax | apply IH; exact Hmax].
Qed.

(** Extra X29. In every manager built from a new one by creating threads,
    adding messages, closing, archiving and cleaning up, with a positive
    [max_context_messages], the context of a thread holds exactly the last
    [max_context_messages] messages stored for the thread, so never more
    than that many. *)
Theorem context_is_the_tail_of_the_thread :
  forall (mgr : ConversationManager) (tid : UUID) (context : ConversationContext),
    reachable mgr ->
    (0 < max_context_messages mgr)%Z ->
    get_conversation_context mgr tid = Some context ->
    recent_messages context
    = get_thread_messages mgr tid (Some (max_context_messages mgr))
    /\ (Z.of_nat (length (recent_messages context)) <= max_context_messages mgr)%Z.
Proof.
  intros mgr tid context Hreach Hmax Hcontext.
  pose proof (reachable_tail_kept mgr Hreach Hmax tid context Hcontext) as Hkept.
  split.
  - rewrite Hkept. unfold get_thread_messages.
    rewrite bool_decide_eq_false_2 by lia.
    rewrite trim_drop, last_n_drop by exact Hmax. reflexivity.
  - rewrite Hkept. apply PyFacts.trim_bounded. exact Hmax.
Qed.

Lemma context_is_the_tail_of_the_thread_witness :
  let mgr := (add_message_to_thread two_threads 3%N (seconds 200)
                (note 13 (seconds 200) "cleanup done") None).1 in
  exists context,
    get_conversation_context mgr 1%N = Some context
    /\ recent_messages context = get_thread_messages mgr 1%N (Some 10%Z).
Proof.
  cbv zeta.
  destruct (get_conversation_context
              (add_message_to_thread two_threads 3%N (seconds 200)
                 (note 13 (seconds 200) "cleanup done") None).1 1%N)
    as [context|] eqn:Econtext; [|vm_compute in Econtext; discriminate].
  exists context. split; [reflexivity|].
  refine (proj1 (context_is_the_tail_of_the_thread _ 1%N context _ _ Econtext)).
  - apply reach_add. unfold two_threads. apply reach_create, reach_create.
    apply (reach_new 10 (seconds (24 * 3600))).
  - reflexivity.
Defined.


Lemma shorten_bounded (limit : Z) (messages : list AgentMessage) :
  (0 < limit)%Z ->
  (Z.of_nat (length (shorten limit messages)) <= limit * 2)%Z
  /\ Py.last_n limit (shorten limit messages) = Py.last_n limit messages
  /\ shorten limit (shorten limit messages) = shorten limit messages.
Proof.
  intros Hlimit. unfold shorten.
  destruct (Z.ltb_spec (limit * 2) (Z.of_nat (length messages))) as [Hlong|Hshort].
  - assert (Hlen : length (Py.last_n limit messages) = Z.to_nat limit).
    { rewrite last_n_drop, length_drop by exact Hlimit. lia. }
    split; [lia|]. split.
    + rewrite !last_n_drop by exact Hlimit. rewrite length_drop, drop_drop. f_equal. lia.
    + destruct (Z.ltb_spec (limit * 2) (Z.of_nat (length (Py.last_n limit messages))));
        [lia | reflexivity].
  - split; [lia|]. split; [reflexivity|].
    destruct (Z.ltb_spec (limit * 2) (Z.of_nat (length messages))); [lia | reflexivity].
Qed.

Lemma archive_twice (mgr : ConversationManager) (now : datetime) :
  threads (archive_old_threads (archive_old_threads mgr now).1 now).1
  = threads (archive_old_threads mgr now).1.
Proof.
  apply map_eq. intros tid. rewrite (archived_lookup (archive_old_threads mgr now).1).
  rewrite archived_lookup. destruct (threads mgr !! tid) as [thread|]; [|reflexivity].
  cbn [fmap option_fmap option_map]. f_equal.
  destruct (is_old mgr now thread) eqn:Eold.
  - reflexivity.
  - unfold is_old in *. cbn [archive_old_threads fst with_threads thread_timeout].
    rewrite Eold. reflexivity.
Qed.

(** Extra X30. With a positive [max_context_messages], [cleanup_old_data]
    archives as [archive_old_threads] does, leaves every thread with at
    most twice [max_context_messages] stored messages while keeping its
    last [max_context_messages] ones, removes the context of exactly the
    threads that are then inactive, and a second cleanup at the same time
    changes nothing. *)
Theorem cleanup_old_data_effect :
  forall (mgr : ConversationManager) (now : datetime) (tid : UUID),
    (0 < max_context_messages mgr)%Z ->
    let cleaned := cleanup_old_data mgr now in
    threads cleaned.1 = threads (archive_old_threads mgr now).1
    /\ archived_threads cleaned.2 = (archive_old_threads mgr now).2
    /\ (Z.of_nat (length (get_thread_messages cleaned.1 tid None))
        <= max_context_messages mgr * 2)%Z
    /\ get_thread_messages cleaned.1 tid (Some (max_context_messages mgr))
       = get_thread_messages mgr tid (Some (max_context_messages mgr))
    /\ get_conversation_context cleaned.1 tid
       = (if is_closed (threads cleaned.1) tid then None
          else get_conversation_context mgr tid)
    /\ (cleanup_old_data cleaned.1 now).1 = cleaned.1.
Proof.
  intros mgr now tid Hmax cleaned.
  split; [reflexivity|]. split; [reflexivity|]. split; [|split; [|split]].
  - unfold cleaned, get_thread_messages.
    cbn [cleanup_old_data archive_old_threads fst with_threads thread_messages
         max_context_messages].
    rewrite lookup_fmap. destruct (thread_messages mgr !! tid) as [messages|].
    + apply shorten_bounded. exact Hmax.
    + cbn [fmap option_fmap option_map default from_option length]. lia.
  - unfold cleaned, get_thread_messages.
    cbn [cleanup_old_data archive_old_threads fst with_threads thread_messages
         max_context_messages].
    rewrite !bool_decide_eq_false_2 by lia.
    rewrite lookup_fmap. destruct (thread_messages mgr !! tid) as [messages|];
      [|reflexivity].
    apply shorten_bounded. exact Hmax.
  - unfold cleaned, get_conversation_context.
    cbn [cleanup_old_data archive_old_threads fst with_threads conversation_contexts
         threads].
    destruct (is_closed _ tid) eqn:Eclosed.
    + apply map_lookup_filter_None. right. intros context _ Hkeep. apply Hkeep.
      exact Eclosed.
    + destruct (conversation_contexts mgr !! tid) as [context|] eqn:Econtext.
      * apply map_lookup_filter_Some. split; [exact Econtext|].
        cbn [fst]. rewrite Eclosed. discriminate.
      * apply map_lookup_filter_None. left. exact Econtext.
  - unfold cleaned.
    pose proof (archive_twice mgr now) as Htwice.
    cbn [cleanup_old_data archive_old_threads fst with_threads threads thread_timeout
         max_context_messages topic_threads agent_threads message_threads
         thread_messages conversation_contexts] in Htwice |- *.
    unfold is_old in Htwice |- *. cbn [thread_timeout] in Htwice |- *.
    f_equal.
    + exact Htwice.
    + apply map_eq. intros k. rewrite !lookup_fmap.
      destruct (thread_messages mgr !! k) as [messages|]; [|reflexivity].
      cbn [fmap option_fmap option_map]. f_equal. apply shorten_bounded. exact Hmax.
    + match goal with
      | |- context [is_closed (?f <$> (?f <$> ?t))] =>
          replace (f <$> (f <$> t)) with (f <$> t) by (symmetry; exact Htwice)
      end.
      apply map_eq. intros k.
      match goal with
      | |- filter ?P (filter ?P ?m) !! k = _ =>
          destruct (filter P m !! k) as [context|] eqn:Ek
      end.
      * apply map_lookup_filter_Some. split; [exact Ek|].
        apply map_lookup_filter_Some in Ek as [_ Hkeep]. exact Hkeep.
      * apply map_lookup_filter_None. left. exact Ek.
Qed.

Lemma cleanup_old_data_effect_witness :
  let mgr := (add_message_to_thread two_threads 3%N (seconds 200)
                (note 13 (seconds 200) "cleanup done") None).1 in
  (Z.of_nat (length (get_thread_messages (cleanup_old_data mgr (seconds 300)).1 1%N None))
   <= 10 * 2)%Z.
Proof.
  cbv zeta.
  apply (cleanup_old_data_effect
           (add_message_to_thread two_threads 3%N (seconds 200)
              (note 13 (seconds 200) "cleanup done") None).1 (seconds 300) 1%N).
  reflexivity.
Defined.

End ConversationManagerFacts.
